(** * nanovgo: the drawing context of [nanovgo.go]

    A shallow embedding of the path pipeline of [nanovgo.go]: the state
    stack ([Save], [Restore]), the command recorder ([appendCommand] and the
    path operations built on it, [Arc], [ArcTo]), the path flattener
    ([flattenPaths]) and the two drawing calls ([Fill], [Stroke]).

    Go's [float32] is IEEE 754 binary32; it is embedded as [spec_float] with
    the operations of the standard library's [SpecFloat] at precision 24 and
    maximal exponent 128 (round to nearest, ties to even), so every
    definition below computes.  Fused multiply-add, which Go allows a
    compiler to use, is not modelled.  A run-time panic (index out of range,
    the explicit [panic] of [Stroke]) is the result [None]. *)

From Stdlib Require Import ZArith List Bool Lia SpecFloat Permutation.
Import ListNotations.
Local Open Scope Z_scope.

(** ** binary32 *)

Module F32.

Definition prec : Z := 24.
Definition emax : Z := 128.

Definition add : spec_float -> spec_float -> spec_float := SFadd prec emax.
Definition sub : spec_float -> spec_float -> spec_float := SFsub prec emax.
Definition mul : spec_float -> spec_float -> spec_float := SFmul prec emax.
Definition div : spec_float -> spec_float -> spec_float := SFdiv prec emax.
Definition sqrt : spec_float -> spec_float := SFsqrt prec emax.
Definition neg : spec_float -> spec_float := SFopp.

(** [a < b], [a <= b] and [a == b] of Go; [a > b] is [ltb b a] and
    [a >= b] is [leb b a].  Every comparison with a NaN is [false]. *)
Definition ltb : spec_float -> spec_float -> bool := SFltb.
Definition leb : spec_float -> spec_float -> bool := SFleb.
Definition eqb : spec_float -> spec_float -> bool := SFeqb.

(** The binary32 value of an integer constant, and of a decimal constant
    written as the quotient of two integers below [2^24] (the division
    rounds once, to the nearest binary32, as the Go compiler does for a
    constant). *)
Definition of_Z (z : Z) : spec_float := binary_normalize prec emax z 0 false.
Definition of_ratio (n d : Z) : spec_float := div (of_Z n) (of_Z d).

Definition zero : spec_float := S754_zero false.
Definition one : spec_float := of_Z 1.
Definition two : spec_float := of_Z 2.
Definition half : spec_float := of_ratio 1 2.

(** The exponent of the binary32 numbers of a given magnitude ([fexp] of
    [SpecFloat] at precision 24 and maximal exponent 128). *)
Definition fexp (e : Z) : Z := Z.max (e - 24) (-149).

(** Go's conversion [int(x)]: the fraction is discarded.  What a NaN, an
    infinity or a value outside of [int64] converts to is left to the
    implementation by the language; the value below is the one of amd64. *)
Definition int_indefinite : Z := - 2 ^ 63.

Definition to_int (x : spec_float) : Z :=
  match x with
  | S754_zero _ => 0
  | S754_finite s m e =>
      let q := match e with
               | Zneg p => Z.quot (Zpos m) (2 ^ Zpos p)
               | _ => Zpos m * 2 ^ e
               end in
      if 2 ^ 63 <=? q then int_indefinite else if s then - q else q
  | _ => int_indefinite
  end.

End F32.

Definition float32 : Type := spec_float.

Declare Scope f32_scope.
Delimit Scope f32_scope with f32.
Infix "+" := F32.add : f32_scope.
Infix "-" := F32.sub : f32_scope.
Infix "*" := F32.mul : f32_scope.
Infix "/" := F32.div : f32_scope.
Notation "- x" := (F32.neg x) : f32_scope.
Infix "<?" := F32.ltb : f32_scope.
Infix "<=?" := F32.leb : f32_scope.
Infix "=?" := F32.eqb : f32_scope.


(** ** Declarations of the package that [nanovgo.go] uses

    [nanovgo.go] is one file of the package; the types it works on, its
    constants and its small numeric helpers are declared in sibling files.
    What follows restates the declarations the embedded functions need. *)

(** Modelled from the spec: the opcode tags [nvgMOVETO] ... [nvgWINDING] of
    type [nvgCommands] (an integer type) are missing; the spec names the five
    tagged records of the opcode buffer, in this order. *)
Definition nvgCommands : Type := Z.
Definition nvgMOVETO : nvgCommands := 0.
Definition nvgLINETO : nvgCommands := 1.
Definition nvgBEZIERTO : nvgCommands := 2.
Definition nvgCLOSE : nvgCommands := 3.
Definition nvgWINDING : nvgCommands := 4.

(** Modelled from the spec: the winding classes [Solid] and [Hole] of the
    integer type [Winding] are missing. *)
Definition Winding : Type := Z.
Definition Solid : Winding := 1.
Definition Hole : Winding := 2.

(** Modelled from the spec: the sweep directions of the integer type
    [Direction] are missing. *)
Definition Direction : Type := Z.
Definition CounterClockwise : Direction := 1.
Definition Clockwise : Direction := 2.

(** Modelled from the spec: the point flag [nvgPtCORNER] is missing. *)
Definition nvgPointFlags : Type := Z.
Definition nvgPtCORNER : nvgPointFlags := 1.

(** Modelled from the spec: the enumeration [LineCap] (caps butt, round and
    square; joins round, bevel and miter) is missing. *)
Inductive LineCap : Type := Butt | Round | Square | Bevel | Miter.

(** Modelled from the spec: the constant [PI] is missing; it is the binary32
    nearest to the circle constant, [13176795 * 2^-22]. *)
Definition PI : float32 := S754_finite false 13176795 (-22).
(** [PI*2] and [PI*0.5] are constant expressions: Go evaluates them exactly
    and rounds once; scaling by a power of two is exact. *)
Definition PI_2 : float32 := S754_finite false 13176795 (-21).
Definition PI_half : float32 := S754_finite false 13176795 (-23).

(** Modelled from the spec: the helper [clampF] is missing; it clamps its
    first argument to the interval of the other two. *)
Definition clampF (a mn mx : float32) : float32 :=
  if (a <? mn)%f32 then mn else if (mx <? a)%f32 then mx else a.

(** Modelled from the spec: the helper [clampI] is missing; [clampF] on
    [int]. *)
Definition clampI (a mn mx : Z) : Z :=
  if a <? mn then mn else if mx <? a then mx else a.

(** Modelled from the spec: the helper [absF] is missing; the magnitude of
    its argument. *)
Definition absF (a : float32) : float32 := SFabs a.

(** Modelled from the spec: the array type [TransformMatrix] of six
    [float32] (a, b, c, d, e, f) is missing. *)
Record TransformMatrix : Type := mkTransformMatrix {
  m_a : float32; m_b : float32; m_c : float32;
  m_d : float32; m_e : float32; m_f : float32
}.

(** Modelled from the spec: the struct [Color] is missing. *)
Record Color : Type := mkColor {
  R : float32; G : float32; B : float32; A : float32
}.

(** Modelled from the spec: the struct [Paint] is missing. *)
Record Paint : Type := mkPaint {
  paint_xform : TransformMatrix;
  paint_extent : float32 * float32;
  radius : float32;
  feather : float32;
  innerColor : Color;
  outerColor : Color;
  image : Z
}.

(** Modelled from the spec: the struct [nvgScissor] is missing. *)
Record nvgScissor : Type := mkScissor {
  scissor_xform : TransformMatrix;
  scissor_extent : float32 * float32
}.

(** Modelled from the spec: the struct [nvgState] is missing; the fields are
    the ones [nanovgo.go] reads and writes. *)
Record nvgState : Type := mkState {
  fill : Paint;
  stroke : Paint;
  strokeWidth : float32;
  miterLimit : float32;
  lineJoin : LineCap;
  lineCap : LineCap;
  alpha : float32;
  xform : TransformMatrix;
  scissor : nvgScissor;
  fontSize : float32;
  letterSpacing : float32;
  lineHeight : float32;
  fontBlur : float32;
  textAlign : Z;
  fontID : Z
}.

(** Modelled from the spec: the struct [nvgVertex] is missing. *)
Record nvgVertex : Type := mkVertex {
  vx : float32; vy : float32; vu : float32; vv : float32
}.

(** Modelled from the spec: the struct [nvgPoint] is missing. *)
Record nvgPoint : Type := mkPoint {
  x : float32; y : float32;
  dx : float32; dy : float32;
  len : float32;
  dmx : float32; dmy : float32;
  flags : nvgPointFlags
}.

(** Modelled from the spec: the struct [nvgPath] is missing; [first] and
    [count] delimit the path's points in the shared arena. *)
Record nvgPath : Type := mkPath {
  first : Z;
  count : Z;
  closed : bool;
  nBevel : Z;
  fills : list nvgVertex;
  strokes : list nvgVertex;
  winding : Winding;
  convex : bool
}.

(** Modelled from the spec: the struct [nvgPathCache] is missing. *)
Record nvgPathCache : Type := mkPathCache {
  points : list nvgPoint;
  paths : list nvgPath;
  vertexes : list nvgVertex;
  bounds : float32 * float32 * float32 * float32
}.

(** The render backend behind [nvgParams]: what it was asked to draw, most
    recent call first, and its answer to [edgeAntiAlias()]. *)
Inductive RenderCall : Type :=
| RenderFill (paint : Paint) (sc : nvgScissor) (fringe : float32)
    (bnds : float32 * float32 * float32 * float32) (ps : list nvgPath)
| RenderStroke (paint : Paint) (sc : nvgScissor) (fringe : float32)
    (width : float32) (ps : list nvgPath).

Record nvgParams : Type := mkParams {
  edgeAntiAlias : bool;
  rendered : list RenderCall
}.

(** The [Context] struct of [nanovgo.go] (the font stash [fs] is a foreign
    object and is left out). *)
Record Context : Type := mkContext {
  params : nvgParams;
  commands : list float32;
  commandX : float32;
  commandY : float32;
  states : list nvgState;
  cache : nvgPathCache;
  tessTol : float32;
  distTol : float32;
  fringeWidth : float32;
  devicePxRatio : float32;
  fontImages : list Z;
  fontImageIdx : Z;
  drawCallCount : Z;
  fillTriCount : Z;
  strokeTriCount : Z;
  textTriCount : Z
}.

(** Field updates ([ctx.commands = ...] and the like). *)
Definition set_commands (v : list float32) (c : Context) : Context :=
  mkContext (params c) v (commandX c) (commandY c) (states c) (cache c)
    (tessTol c) (distTol c) (fringeWidth c) (devicePxRatio c) (fontImages c)
    (fontImageIdx c) (drawCallCount c) (fillTriCount c) (strokeTriCount c)
    (textTriCount c).

Definition set_commandXY (vx0 vy0 : float32) (c : Context) : Context :=
  mkContext (params c) (commands c) vx0 vy0 (states c) (cache c)
    (tessTol c) (distTol c) (fringeWidth c) (devicePxRatio c) (fontImages c)
    (fontImageIdx c) (drawCallCount c) (fillTriCount c) (strokeTriCount c)
    (textTriCount c).

Definition set_states (v : list nvgState) (c : Context) : Context :=
  mkContext (params c) (commands c) (commandX c) (commandY c) v (cache c)
    (tessTol c) (distTol c) (fringeWidth c) (devicePxRatio c) (fontImages c)
    (fontImageIdx c) (drawCallCount c) (fillTriCount c) (strokeTriCount c)
    (textTriCount c).

Definition set_cache (v : nvgPathCache) (c : Context) : Context :=
  mkContext (params c) (commands c) (commandX c) (commandY c) (states c) v
    (tessTol c) (distTol c) (fringeWidth c) (devicePxRatio c) (fontImages c)
    (fontImageIdx c) (drawCallCount c) (fillTriCount c) (strokeTriCount c)
    (textTriCount c).

Definition set_params (v : nvgParams) (c : Context) : Context :=
  mkContext v (commands c) (commandX c) (commandY c) (states c) (cache c)
    (tessTol c) (distTol c) (fringeWidth c) (devicePxRatio c) (fontImages c)
    (fontImageIdx c) (drawCallCount c) (fillTriCount c) (strokeTriCount c)
    (textTriCount c).

Definition set_counts (draw fillTri strokeTri : Z) (c : Context) : Context :=
  mkContext (params c) (commands c) (commandX c) (commandY c) (states c)
    (cache c) (tessTol c) (distTol c) (fringeWidth c) (devicePxRatio c)
    (fontImages c) (fontImageIdx c) draw fillTri strokeTri (textTriCount c).

Definition set_ratio (tess dist fringe ratio : float32) (c : Context) : Context :=
  mkContext (params c) (commands c) (commandX c) (commandY c) (states c)
    (cache c) tess dist fringe ratio (fontImages c) (fontImageIdx c)
    (drawCallCount c) (fillTriCount c) (strokeTriCount c) (textTriCount c).

Definition set_xform (t : TransformMatrix) (s : nvgState) : nvgState :=
  mkState (fill s) (stroke s) (strokeWidth s) (miterLimit s) (lineJoin s)
    (lineCap s) (alpha s) t (scissor s) (fontSize s) (letterSpacing s)
    (lineHeight s) (fontBlur s) (textAlign s) (fontID s).

Definition set_strokeWidth (w : float32) (s : nvgState) : nvgState :=
  mkState (fill s) (stroke s) w (miterLimit s) (lineJoin s)
    (lineCap s) (alpha s) (xform s) (scissor s) (fontSize s) (letterSpacing s)
    (lineHeight s) (fontBlur s) (textAlign s) (fontID s).

Definition set_A (v : float32) (c : Color) : Color := mkColor (R c) (G c) (B c) v.

Definition set_colors (ic oc : Color) (p : Paint) : Paint :=
  mkPaint (paint_xform p) (paint_extent p) (radius p) (feather p) ic oc (image p).

Definition set_points (v : list nvgPoint) (c : nvgPathCache) : nvgPathCache :=
  mkPathCache v (paths c) (vertexes c) (bounds c).

Definition set_paths (v : list nvgPath) (c : nvgPathCache) : nvgPathCache :=
  mkPathCache (points c) v (vertexes c) (bounds c).

Definition set_bounds (v : float32 * float32 * float32 * float32)
  (c : nvgPathCache) : nvgPathCache :=
  mkPathCache (points c) (paths c) (vertexes c) v.

Definition set_count_closed (n : Z) (cl : bool) (p : nvgPath) : nvgPath :=
  mkPath (first p) n cl (nBevel p) (fills p) (strokes p) (winding p) (convex p).

Definition set_dir (l ddx ddy : float32) (p : nvgPoint) : nvgPoint :=
  mkPoint (x p) (y p) ddx ddy l (dmx p) (dmy p) (flags p).

(** The zero values [TransformMatrix{}], [Paint{}] and [nvgState{}]. *)
Definition zeroMatrix : TransformMatrix :=
  mkTransformMatrix F32.zero F32.zero F32.zero F32.zero F32.zero F32.zero.
Definition zeroColor : Color := mkColor F32.zero F32.zero F32.zero F32.zero.
Definition zeroPaint : Paint :=
  mkPaint zeroMatrix (F32.zero, F32.zero) F32.zero F32.zero zeroColor zeroColor 0.
Definition zeroState : nvgState :=
  mkState zeroPaint zeroPaint F32.zero F32.zero Butt Butt F32.zero zeroMatrix
    (mkScissor zeroMatrix (F32.zero, F32.zero))
    F32.zero F32.zero F32.zero F32.zero 0 0.

(** ** Panics *)

Definition bind {X Y : Type} (m : option X) (f : X -> option Y) : option Y :=
  match m with
  | Some v => f v
  | None => None
  end.

Notation "v <- m ;; k" := (bind m (fun v => k))
  (at level 61, m at next level, right associativity).

(** [l[i]] for an [int] index: out of range is a panic. *)
Definition index {X : Type} (l : list X) (i : Z) : option X :=
  if i <? 0 then None else nth_error l (Z.to_nat i).

(** [l[i] = v], for an index already known to be in range. *)
Fixpoint store {X : Type} (l : list X) (i : nat) (v : X) : list X :=
  match l, i with
  | [], _ => []
  | _ :: t, O => v :: t
  | h :: t, S i' => h :: store t i' v
  end.

Definition len_ {X : Type} (l : list X) : Z := Z.of_nat (length l).

(** Go's [int] on a 64-bit platform: the result of an arithmetic operation
    wraps around. *)
Definition int (z : Z) : Z := (z + 2 ^ 63) mod 2 ^ 64 - 2 ^ 63.

(** ** The sibling files' functions

    The functions below are called by [nanovgo.go] and defined in other
    files of the package.  They are parameters of the embedding. *)
Class Package : Type := {
  (* constants *)
  nvgMaxStates : Z;
  (* TransformMatrix *)
  IdentityMatrix : TransformMatrix;
  TranslateMatrix : float32 -> float32 -> TransformMatrix;
  ScaleMatrix : float32 -> float32 -> TransformMatrix;
  RotateMatrix : float32 -> TransformMatrix;
  SkewXMatrix : float32 -> TransformMatrix;
  SkewYMatrix : float32 -> TransformMatrix;
  PreMultiply : TransformMatrix -> TransformMatrix -> TransformMatrix;
  TransformPoint : TransformMatrix -> float32 -> float32 -> float32 * float32;
  getAverageScale : TransformMatrix -> float32;
  (* nvgState *)
  reset : nvgState -> nvgState;
  (* numeric helpers *)
  minF : float32 -> float32 -> float32;
  maxF : float32 -> float32 -> float32;
  sinCosF : float32 -> float32 * float32;
  acosF : float32 -> float32;
  tanF : float32 -> float32;
  atan2F : float32 -> float32 -> float32;
  normalize : float32 -> float32 -> float32 * float32 * float32;
  cross : float32 -> float32 -> float32 -> float32 -> float32;
  ptEquals : float32 -> float32 -> float32 -> float32 -> float32 -> bool;
  distPtSeg : float32 -> float32 -> float32 -> float32 -> float32 -> float32 -> float32;
  (* nvgPathCache *)
  clearPathCache : nvgPathCache -> nvgPathCache;
  addPath : nvgPathCache -> nvgPathCache;
  addPoint : nvgPathCache -> float32 -> float32 -> nvgPointFlags -> float32 -> nvgPathCache;
  lastPoint : nvgPathCache -> option nvgPoint;
  tesselateBezier : nvgPathCache -> float32 -> float32 -> float32 -> float32 ->
    float32 -> float32 -> float32 -> float32 -> Z -> nvgPointFlags ->
    float32 -> float32 -> nvgPathCache;
  closePath : nvgPathCache -> nvgPathCache;
  pathWinding : nvgPathCache -> Winding -> nvgPathCache;
  expandFill : nvgPathCache -> float32 -> LineCap -> float32 -> float32 -> nvgPathCache;
  expandStroke : nvgPathCache -> float32 -> LineCap -> LineCap -> float32 ->
    float32 -> float32 -> nvgPathCache
}.

(** Modelled from the spec: the helper [polyReverse] is missing; it reverses
    the order of the first [npts] points in place. *)
Definition polyReverse (pts : list nvgPoint) (npts : Z) : list nvgPoint :=
  rev (firstn (Z.to_nat npts) pts) ++ skipn (Z.to_nat npts) pts.

(** Modelled from the spec: the helpers [triArea2] and [polyArea] are
    missing; [polyArea] is the signed area of the polygon of the first [npts]
    points, summed over the triangle fan of the first point. *)
Definition triArea2 (ax ay bx by_ cx cy : float32) : float32 :=
  let abX := (bx - ax)%f32 in
  let abY := (by_ - ay)%f32 in
  let acX := (cx - ax)%f32 in
  let acY := (cy - ay)%f32 in
  (acX * abY - abX * acY)%f32.

Fixpoint polyFan (a : nvgPoint) (pts : list nvgPoint) (area : float32) : float32 :=
  match pts with
  | b :: ((c :: _) as t) =>
      polyFan a t (area + triArea2 (x a) (y a) (x b) (y b) (x c) (y c))%f32
  | _ => area
  end.

Definition polyArea (pts : list nvgPoint) (npts : Z) : float32 :=
  match firstn (Z.to_nat npts) pts with
  | a :: t => (polyFan a t F32.zero * F32.half)%f32
  | [] => (F32.zero * F32.half)%f32
  end.

Section Nanovgo.

Context {pkg : Package}.

(** ** State handling *)

(** [getState]: [&ctx.states[len(ctx.states)-1]]. *)
Definition getState (ctx : Context) : option nvgState :=
  index (states ctx) (len_ (states ctx) - 1).

(** An assignment through the pointer [getState] returns. *)
Definition updState (f : nvgState -> nvgState) (ctx : Context) : option Context :=
  st <- getState ctx ;;
  Some (set_states (removelast (states ctx) ++ [f st]) ctx).

Definition Save (ctx : Context) : Context :=
  if nvgMaxStates <=? len_ (states ctx) then ctx
  else if 0 <? len_ (states ctx) then
    match getState ctx with
    | Some top => set_states (states ctx ++ [top]) ctx
    | None => ctx
    end
  else set_states (states ctx ++ [zeroState]) ctx.

Definition Restore (ctx : Context) : Context :=
  let nStates := len_ (states ctx) in
  if 1 <? nStates then
    set_states (firstn (Z.to_nat (nStates - 1)) (states ctx)) ctx
  else ctx.

Definition Reset (ctx : Context) : option Context := updState reset ctx.

Definition setDevicePixelRatio (ratio : float32) (ctx : Context) : Context :=
  set_ratio (F32.of_ratio 25 100 / ratio)%f32 (F32.of_ratio 1 100 / ratio)%f32
    (F32.one / ratio)%f32 ratio ctx.

(** The state part of [BeginFrame] (the call [renderViewport] of the backend
    leaves the context alone). *)
Definition BeginFrame (devicePixelRatio : float32) (ctx : Context) : option Context :=
  ctx1 <- Reset (Save (set_states [] ctx)) ;;
  let ctx2 := setDevicePixelRatio devicePixelRatio ctx1 in
  Some (mkContext (params ctx2) (commands ctx2) (commandX ctx2) (commandY ctx2)
          (states ctx2) (cache ctx2) (tessTol ctx2) (distTol ctx2)
          (fringeWidth ctx2) (devicePxRatio ctx2) (fontImages ctx2)
          (fontImageIdx ctx2) 0 0 0 0).

(** ** Transforms *)

Definition SetTransform (t : TransformMatrix) (ctx : Context) : option Context :=
  updState (fun state => set_xform (PreMultiply (xform state) t) state) ctx.

Definition ResetTransform (ctx : Context) : option Context :=
  updState (fun state => set_xform IdentityMatrix state) ctx.

Definition Translate (tx ty : float32) (ctx : Context) : option Context :=
  updState (fun state =>
    set_xform (PreMultiply (xform state) (TranslateMatrix tx ty)) state) ctx.

Definition Rotate (angle : float32) (ctx : Context) : option Context :=
  updState (fun state =>
    set_xform (PreMultiply (xform state) (RotateMatrix angle)) state) ctx.

Definition SkewX (angle : float32) (ctx : Context) : option Context :=
  updState (fun state =>
    set_xform (PreMultiply (xform state) (SkewXMatrix angle)) state) ctx.

Definition SkewY (angle : float32) (ctx : Context) : option Context :=
  updState (fun state =>
    set_xform (PreMultiply (xform state) (SkewYMatrix angle)) state) ctx.

Definition Scale (sx sy : float32) (ctx : Context) : option Context :=
  updState (fun state =>
    set_xform (PreMultiply (xform state) (ScaleMatrix sx sy)) state) ctx.

Definition SetStrokeWidth (width : float32) (ctx : Context) : option Context :=
  updState (set_strokeWidth width) ctx.

(** ** Recording commands *)

(** The loop of [appendCommand]: it walks the values from one opcode to the
    next and maps the points of each through [xForm].  The values before the
    cursor are never read again, so the walk is a recursion on the values
    from the cursor on; an operand missing at the end is an index out of
    range. *)
Fixpoint transformCommands (xForm : TransformMatrix) (vals : list float32)
  : option (list float32) :=
  match vals with
  | [] => Some []
  | op :: rest =>
      let c := F32.to_int op in
      if (c =? nvgMOVETO) || (c =? nvgLINETO) then
        match rest with
        | px :: py :: rest' =>
            let '(tx, ty) := TransformPoint xForm px py in
            r <- transformCommands xForm rest' ;;
            Some (op :: tx :: ty :: r)
        | _ => None
        end
      else if c =? nvgBEZIERTO then
        match rest with
        | c1x :: c1y :: c2x :: c2y :: px :: py :: rest' =>
            let '(t1x, t1y) := TransformPoint xForm c1x c1y in
            let '(t2x, t2y) := TransformPoint xForm c2x c2y in
            let '(tx, ty) := TransformPoint xForm px py in
            r <- transformCommands xForm rest' ;;
            Some (op :: t1x :: t1y :: t2x :: t2y :: tx :: ty :: r)
        | _ => None
        end
      else if c =? nvgCLOSE then
        r <- transformCommands xForm rest ;;
        Some (op :: r)
      else if c =? nvgWINDING then
        match rest with
        | w :: rest' =>
            r <- transformCommands xForm rest' ;;
            Some (op :: w :: r)
        | [] => Some [op]
        end
      else
        r <- transformCommands xForm rest ;;
        Some (op :: r)
  end.

Definition appendCommand (vals : list float32) (ctx : Context) : option Context :=
  state <- getState ctx ;;
  let xForm := xform state in
  v0 <- index vals 0 ;;
  ctx1 <-
    (if negb (F32.to_int v0 =? nvgCLOSE) && negb (F32.to_int v0 =? nvgWINDING)
     then
       cX <- index vals (len_ vals - 2) ;;
       cY <- index vals (len_ vals - 1) ;;
       Some (set_commandXY cX cY ctx)
     else Some ctx) ;;
  vals' <- transformCommands xForm vals ;;
  Some (set_commands (commands ctx1 ++ vals') ctx1).

Definition BeginPath (ctx : Context) : Context :=
  set_cache (clearPathCache (cache ctx)) (set_commands [] ctx).

Definition MoveTo (px py : float32) (ctx : Context) : option Context :=
  appendCommand [F32.of_Z nvgMOVETO; px; py] ctx.

Definition LineTo (px py : float32) (ctx : Context) : option Context :=
  appendCommand [F32.of_Z nvgLINETO; px; py] ctx.

Definition BezierTo (c1x c1y c2x c2y px py : float32) (ctx : Context)
  : option Context :=
  appendCommand [F32.of_Z nvgBEZIERTO; c1x; c1y; c2x; c2y; px; py] ctx.

Definition ClosePath (ctx : Context) : option Context :=
  appendCommand [F32.of_Z nvgCLOSE] ctx.

Definition PathWinding (w : Winding) (ctx : Context) : option Context :=
  appendCommand [F32.of_Z nvgWINDING; F32.of_Z w] ctx.

(** ** Arcs *)

(** The two loops of [Arc] that bring the sweep back into one turn,
    [for da < 0.0 { da += PI * 2 }] and [for da > 0.0 { da -= PI * 2 }].
    [fuel] bounds the number of iterations; [None] is a loop that has not
    finished within it. *)
Fixpoint addTurns (fuel : nat) (da : float32) : option float32 :=
  if (da <? F32.zero)%f32 then
    match fuel with
    | O => None
    | S fuel' => addTurns fuel' (da + PI_2)%f32
    end
  else Some da.

Fixpoint subTurns (fuel : nat) (da : float32) : option float32 :=
  if (F32.zero <? da)%f32 then
    match fuel with
    | O => None
    | S fuel' => subTurns fuel' (da - PI_2)%f32
    end
  else Some da.

(** "Clamp angles". *)
Definition arcSweep (fuel : nat) (a0 a1 : float32) (dir : Direction)
  : option float32 :=
  let da := (a1 - a0)%f32 in
  if dir =? Clockwise then
    if (PI_2 <=? absF da)%f32 then Some PI_2 else addTurns fuel da
  else
    if (PI_2 <=? absF da)%f32 then Some (- PI_2)%f32 else subTurns fuel da.

(** "Split arc into max 90 degree segments." *)
Definition arcDivs (da : float32) : Z :=
  clampI (F32.to_int (absF da / PI_half + F32.half)%f32) 1 5.

(** The state of the loop of [Arc] over [i]: the values so far and the
    previous point with its tangent. *)
Record arcLoop : Type := mkArcLoop {
  values : list float32;
  arc_px : float32; arc_py : float32;
  arc_pTanX : float32; arc_pTanY : float32
}.

Definition arcStep (move : nvgCommands) (cx cy r a0 da kappa : float32)
  (nDivs : Z) (st : arcLoop) (i : Z) : arcLoop :=
  let a := (a0 + da * F32.of_Z i / F32.of_Z nDivs)%f32 in
  let '(dy_, dx_) := sinCosF a in
  let x_ := (cx + dx_ * r)%f32 in
  let y_ := (cy + dy_ * r)%f32 in
  let tanX := (- dy_ * r * kappa)%f32 in
  let tanY := (dx_ * r * kappa)%f32 in
  let vs :=
    if i =? 0 then values st ++ [F32.of_Z move; x_; y_]
    else values st ++
           [F32.of_Z nvgBEZIERTO;
            (arc_px st + arc_pTanX st)%f32; (arc_py st + arc_pTanY st)%f32;
            (x_ - tanX)%f32; (y_ - tanY)%f32; x_; y_] in
  mkArcLoop vs x_ y_ tanX tanY.

(** The indices [0, 1, ..., n] of [for i := 0; i <= n; i++]. *)
Definition upto (n : Z) : list Z := map Z.of_nat (seq 0 (Z.to_nat (n + 1))).

Definition arcValues (move : nvgCommands) (cx cy r a0 da : float32)
  (dir : Direction) : list float32 :=
  let nDivs := arcDivs da in
  let hda := (da / F32.of_Z nDivs / F32.two)%f32 in
  let '(sin_, cos_) := sinCosF hda in
  let kappa := absF (F32.of_ratio 4 3 * (F32.one - cos_) / sin_)%f32 in
  let kappa := if dir =? CounterClockwise then (- kappa)%f32 else kappa in
  values
    (fold_left (arcStep move cx cy r a0 da kappa nDivs) (upto nDivs)
       (mkArcLoop [] F32.zero F32.zero F32.zero F32.zero)).

Definition Arc (fuel : nat) (cx cy r a0 a1 : float32) (dir : Direction)
  (ctx : Context) : option Context :=
  let move := if 0 <? len_ (commands ctx) then nvgLINETO else nvgMOVETO in
  da <- arcSweep fuel a0 a1 dir ;;
  appendCommand (arcValues move cx cy r a0 da dir) ctx.

(** The four tests of "Handle degenerate cases" in [ArcTo]. *)
Definition arcToDegenerate (ctx : Context) (x1 y1 x2 y2 radius_ : float32) : bool :=
  let x0 := commandX ctx in
  let y0 := commandY ctx in
  ptEquals x0 y0 x1 y1 (distTol ctx)
  || ptEquals x1 y1 x2 y2 (distTol ctx)
  || (distPtSeg x1 y1 x0 y0 x2 y2 <? distTol ctx * distTol ctx)%f32
  || (radius_ <? distTol ctx)%f32.

(** The unit vectors of the two legs, as [ArcTo] computes them. *)
Definition arcToLegs (ctx : Context) (x1 y1 x2 y2 : float32)
  : float32 * float32 * float32 * float32 :=
  let x0 := commandX ctx in
  let y0 := commandY ctx in
  let '(_, dx0, dy0) := normalize (x0 - x1)%f32 (y0 - y1)%f32 in
  let '(_, dx1, dy1) := normalize (x2 - x1)%f32 (y2 - y1)%f32 in
  (dx0, dy0, dx1, dy1).

(** The distance [d] from the corner to the tangent points. *)
Definition arcToTangentDistance (ctx : Context) (x1 y1 x2 y2 radius_ : float32)
  : float32 :=
  let '(dx0, dy0, dx1, dy1) := arcToLegs ctx x1 y1 x2 y2 in
  let a := acosF (dx0 * dx1 + dy0 * dy1)%f32 in
  (radius_ / tanF (a / F32.two))%f32.

Definition ArcTo (fuel : nat) (x1 y1 x2 y2 radius_ : float32) (ctx : Context)
  : option Context :=
  if len_ (commands ctx) =? 0 then Some ctx
  else if arcToDegenerate ctx x1 y1 x2 y2 radius_ then LineTo x1 y1 ctx
  else
    let '(dx0, dy0, dx1, dy1) := arcToLegs ctx x1 y1 x2 y2 in
    let d := arcToTangentDistance ctx x1 y1 x2 y2 radius_ in
    if (F32.of_Z 10000 <? d)%f32 then LineTo x1 y1 ctx
    else if (F32.zero <? cross dx0 dy0 dx1 dy1)%f32 then
      Arc fuel (x1 + dx0 * d + dy0 * radius_)%f32
        (y1 + dy0 * d + (- dx0) * radius_)%f32 radius_
        (atan2F dx0 (- dy0)%f32) (atan2F (- dx1)%f32 dy1) Clockwise ctx
    else
      Arc fuel (x1 + dx0 * d + (- dy0) * radius_)%f32
        (y1 + dy0 * d + dx0 * radius_)%f32 radius_
        (atan2F (- dx0)%f32 dy0) (atan2F dx1 (- dy1)%f32) CounterClockwise ctx.

(** ** Flattening *)

(** The first loop of [flattenPaths], over the opcode buffer. *)
Fixpoint flattenCommands (tessTol_ distTol_ : float32) (cmds : list float32)
  (c : nvgPathCache) : option nvgPathCache :=
  match cmds with
  | [] => Some c
  | op :: rest =>
      let k := F32.to_int op in
      if k =? nvgMOVETO then
        match rest with
        | px :: py :: rest' =>
            flattenCommands tessTol_ distTol_ rest'
              (addPoint (addPath c) px py nvgPtCORNER distTol_)
        | _ => None
        end
      else if k =? nvgLINETO then
        match rest with
        | px :: py :: rest' =>
            flattenCommands tessTol_ distTol_ rest'
              (addPoint c px py nvgPtCORNER distTol_)
        | _ => None
        end
      else if k =? nvgBEZIERTO then
        match lastPoint c with
        | Some last =>
            match rest with
            | c1x :: c1y :: c2x :: c2y :: px :: py :: rest' =>
                flattenCommands tessTol_ distTol_ rest'
                  (tesselateBezier c (x last) (y last) c1x c1y c2x c2y px py
                     0 nvgPtCORNER tessTol_ distTol_)
            | _ => None
            end
        | None =>
            match rest with
            | _ :: _ :: _ :: _ :: _ :: _ :: rest' =>
                flattenCommands tessTol_ distTol_ rest' c
            | _ => Some c
            end
        end
      else if k =? nvgCLOSE then
        flattenCommands tessTol_ distTol_ rest (closePath c)
      else if k =? nvgWINDING then
        match rest with
        | w :: rest' =>
            flattenCommands tessTol_ distTol_ rest' (pathWinding c (F32.to_int w))
        | [] => None
        end
      else flattenCommands tessTol_ distTol_ rest c
  end.

(** "Enforce winding": the points of a path (the slice
    [cache.points[path.first:]]) after the test of the sign of the area. *)
Definition enforceWinding (pts : list nvgPoint) (n : Z) (w : Winding)
  : list nvgPoint :=
  if 2 <? n then
    let area := polyArea pts n in
    if (w =? Solid) && (area <? F32.zero)%f32 then polyReverse pts n
    else if (w =? Hole) && (F32.zero <? area)%f32 then polyReverse pts n
    else pts
  else pts.

(** The state of the last loop of [flattenPaths], over the points of one
    path: the slice, the bounds, and the pointers [p0] and [p1] as indices
    into the slice. *)
Record dirLoop : Type := mkDirLoop {
  dl_points : list nvgPoint;
  dl_bounds : float32 * float32 * float32 * float32;
  dl_p0 : Z;
  dl_p1 : Z;
  dl_p1Index : Z
}.

Definition dirStep (st : dirLoop) : option dirLoop :=
  p0 <- index (dl_points st) (dl_p0 st) ;;
  p1 <- index (dl_points st) (dl_p1 st) ;;
  let '(l, ddx, ddy) := normalize (x p1 - x p0)%f32 (y p1 - y p0)%f32 in
  let pts := store (dl_points st) (Z.to_nat (dl_p0 st)) (set_dir l ddx ddy p0) in
  let '(b0, b1, b2, b3) := dl_bounds st in
  let bnds := (minF b0 (x p0), minF b1 (y p0), maxF b2 (x p0), maxF b3 (y p0)) in
  let p1Index := dl_p1Index st + 1 in
  Some (mkDirLoop pts bnds (dl_p1 st)
          (if len_ pts =? p1Index then dl_p1 st else p1Index) p1Index).

Fixpoint dirSteps (n : nat) (st : dirLoop) : option dirLoop :=
  match n with
  | O => Some st
  | S n' => st' <- dirStep st ;; dirSteps n' st'
  end.

(** The body of the loop over [j]: one path of the cache. *)
Definition flattenPath (distTol_ : float32) (c : nvgPathCache) (j : nat)
  : option nvgPathCache :=
  path <- nth_error (paths c) j ;;
  if (first path <? 0) || (len_ (points c) <? first path) then None
  else
    let before := firstn (Z.to_nat (first path)) (points c) in
    let pts := skipn (Z.to_nat (first path)) (points c) in
    p0 <- index pts (count path - 1) ;;
    p1 <- index pts 0 ;;
    let closing :=
      ptEquals (x p0) (y p0) (x p1) (y p1) distTol_ && (2 <? count path) in
    let n := if closing then count path - 1 else count path in
    let path' :=
      if closing then set_count_closed n true path else path in
    let pts1 := enforceWinding pts n (winding path') in
    st <- dirSteps (Z.to_nat n) (mkDirLoop pts1 (bounds c) (n - 1) 0 0) ;;
    Some (mkPathCache (before ++ dl_points st) (store (paths c) j path')
            (vertexes c) (dl_bounds st)).

Fixpoint flattenEach (distTol_ : float32) (js : list nat) (c : nvgPathCache)
  : option nvgPathCache :=
  match js with
  | [] => Some c
  | j :: js' => c' <- flattenPath distTol_ c j ;; flattenEach distTol_ js' c'
  end.

Definition initialBounds : float32 * float32 * float32 * float32 :=
  (F32.of_Z 1000000, F32.of_Z 1000000,
   (- F32.of_Z 1000000)%f32, (- F32.of_Z 1000000)%f32).

Definition flattenPaths (ctx : Context) : option Context :=
  if 0 <? len_ (paths (cache ctx)) then Some ctx
  else
    c1 <- flattenCommands (tessTol ctx) (distTol ctx) (commands ctx) (cache ctx) ;;
    let c2 := set_bounds initialBounds c1 in
    c3 <- flattenEach (distTol ctx) (seq 0 (length (paths c2))) c2 ;;
    Some (set_cache c3 ctx).

(** *** The winding of a flattened path

    What the flattener is to establish for each path: a computed area that
    does not disagree with the winding class. *)

Definition xy (p : nvgPoint) : float32 * float32 := (x p, y p).

(** The points of a path: [cache.points[path.first:]] up to [path.count]. *)
Definition pathPoints (c : nvgPathCache) (p : nvgPath) : list nvgPoint :=
  firstn (Z.to_nat (count p)) (skipn (Z.to_nat (first p)) (points c)).

(** The tests of "Enforce winding", negated: a [Solid] path whose area is
    not negative, a [Hole] whose area is not positive. *)
Definition windingAgrees (w : Winding) (area : float32) : bool :=
  negb ((w =? Solid) && (area <? F32.zero)%f32)
  && negb ((w =? Hole) && (F32.zero <? area)%f32).

(** [path.count] after the test of the closing point. *)
Definition closedCount (distTol_ : float32) (pts : list nvgPoint) (cnt : Z) : Z :=
  match index pts (cnt - 1), index pts 0 with
  | Some p0, Some p1 =>
      if ptEquals (x p0) (y p0) (x p1) (y p1) distTol_ && (2 <? cnt)
      then cnt - 1 else cnt
  | _, _ => cnt
  end.





(** ** Drawing *)

(** "Count triangles". *)
Definition countFill (ctx : Context) : Context :=
  fold_left (fun c path =>
      set_counts (int (drawCallCount c + 2))
        (int (fillTriCount c + (len_ (fills path) - 2)))
        (int (strokeTriCount c + (len_ (strokes path) - 2))) c)
    (paths (cache ctx)) ctx.

Definition countStroke (ctx : Context) : Context :=
  fold_left (fun c path =>
      set_counts (int (drawCallCount c + 2)) (fillTriCount c)
        (int (strokeTriCount c + (len_ (strokes path) - 2))) c)
    (paths (cache ctx)) ctx.

(** [paint.innerColor.A *= k; paint.outerColor.A *= k]. *)
Definition scaleAlpha (k : float32) (p : Paint) : Paint :=
  set_colors (set_A (A (innerColor p) * k)%f32 (innerColor p))
             (set_A (A (outerColor p) * k)%f32 (outerColor p)) p.

Definition render (call : RenderCall) (ctx : Context) : Context :=
  set_params (mkParams (edgeAntiAlias (params ctx)) (call :: rendered (params ctx))) ctx.

(** The cache after the call of [expandFill] in [Fill]. *)
Definition fillCache (ctx1 : Context) : nvgPathCache :=
  if edgeAntiAlias (params ctx1)
  then expandFill (cache ctx1) (fringeWidth ctx1) Miter (F32.of_ratio 24 10)
         (fringeWidth ctx1)
  else expandFill (cache ctx1) F32.zero Miter (F32.of_ratio 24 10)
         (fringeWidth ctx1).

Definition Fill (ctx : Context) : option Context :=
  state <- getState ctx ;;
  let fillPaint := fill state in
  ctx1 <- flattenPaths ctx ;;
  let ctx2 := set_cache (fillCache ctx1) ctx1 in
  let fillPaint := scaleAlpha (alpha state) fillPaint in
  let ctx3 :=
    render (RenderFill fillPaint (scissor state) (fringeWidth ctx2)
              (bounds (cache ctx2)) (paths (cache ctx2))) ctx2 in
  Some (countFill ctx3).

(** The stroke width of [Stroke] before the test against the fringe width:
    [clampF(state.strokeWidth*scale, 0.0, 200.0)]. *)
Definition scaledStrokeWidth (state : nvgState) : float32 :=
  let scale := getAverageScale (xform state) in
  clampF (strokeWidth state * scale)%f32 F32.zero (F32.of_Z 200).

(** The paint and the stroke width of [Stroke] after the block "If the stroke
    width is less than pixel size, use alpha to emulate coverage". *)
Definition strokeCoverage (fringe : float32) (state : nvgState)
  : Paint * float32 :=
  let strokeWidth_ := scaledStrokeWidth state in
  let strokePaint := stroke state in
  if (strokeWidth_ <? fringe)%f32 then
    let alpha_ := clampF (strokeWidth_ / fringe)%f32 F32.zero F32.one in
    (scaleAlpha (alpha_ * alpha_)%f32 strokePaint, fringe)
  else (strokePaint, strokeWidth_).

(** The cache after the call of [expandStroke] in [Stroke]. *)
Definition strokeCache (strokeWidth_ : float32) (state : nvgState)
  (ctx1 : Context) : nvgPathCache :=
  if edgeAntiAlias (params ctx1)
  then expandStroke (cache ctx1)
         (strokeWidth_ * F32.half + fringeWidth ctx1 * F32.half)%f32
         (lineCap state) (lineJoin state) (miterLimit state)
         (fringeWidth ctx1) (tessTol ctx1)
  else expandStroke (cache ctx1) (strokeWidth_ * F32.half)%f32
         (lineCap state) (lineJoin state) (miterLimit state)
         (fringeWidth ctx1) (tessTol ctx1).

Definition Stroke (ctx : Context) : option Context :=
  state <- getState ctx ;;
  let '(strokePaint, strokeWidth_) := strokeCoverage (fringeWidth ctx) state in
  let strokePaint := scaleAlpha (alpha state) strokePaint in
  ctx1 <- flattenPaths ctx ;;
  if existsb (fun path => count path =? 1) (paths (cache ctx1)) then None
  else
    let ctx2 := set_cache (strokeCache strokeWidth_ state ctx1) ctx1 in
    let ctx3 :=
      render (RenderStroke strokePaint (scissor state) (fringeWidth ctx2)
                strokeWidth_ (paths (cache ctx2))) ctx2 in
    Some (countStroke ctx3).

End Nanovgo.

(** ** A reference instance of the parameters

    The functions of the sibling files, written after the spec's
    description of the components, so that the embedding runs on concrete
    inputs.  Every theorem below holds for all instances; this one serves
    the examples. *)
Module Ref.

(** Modelled from the spec: [TransformMatrix.TransformPoint] is missing;
    the point mapping of the affine matrix [[a,c,e],[b,d,f],[0,0,1]]. *)
Definition TransformPoint (t : TransformMatrix) (sx sy : float32)
  : float32 * float32 :=
  ((sx * m_a t + sy * m_c t + m_e t)%f32, (sx * m_b t + sy * m_d t + m_f t)%f32).

(** Modelled from the spec: [IdentityMatrix], [TranslateMatrix] and
    [ScaleMatrix] are missing. *)
Definition IdentityMatrix : TransformMatrix :=
  mkTransformMatrix F32.one F32.zero F32.zero F32.one F32.zero F32.zero.
Definition TranslateMatrix (tx ty : float32) : TransformMatrix :=
  mkTransformMatrix F32.one F32.zero F32.zero F32.one tx ty.
Definition ScaleMatrix (sx sy : float32) : TransformMatrix :=
  mkTransformMatrix sx F32.zero F32.zero sy F32.zero F32.zero.

(** Modelled from the spec: [TransformMatrix.Multiply] and [PreMultiply]
    are missing; composition of affine matrices, [t.PreMultiply(s)] being
    [s] followed by [t]. *)
Definition Multiply (t s : TransformMatrix) : TransformMatrix :=
  mkTransformMatrix
    (m_a t * m_a s + m_b t * m_c s)%f32
    (m_a t * m_b s + m_b t * m_d s)%f32
    (m_c t * m_a s + m_d t * m_c s)%f32
    (m_c t * m_b s + m_d t * m_d s)%f32
    (m_e t * m_a s + m_f t * m_c s + m_e s)%f32
    (m_e t * m_b s + m_f t * m_d s + m_f s)%f32.
Definition PreMultiply (t s : TransformMatrix) : TransformMatrix := Multiply s t.

(** Modelled from the spec: [TransformMatrix.getAverageScale] is missing;
    the mean of the lengths of the images of the two axes. *)
Definition getAverageScale (t : TransformMatrix) : float32 :=
  let sx := F32.sqrt (m_a t * m_a t + m_c t * m_c t)%f32 in
  let sy := F32.sqrt (m_b t * m_b t + m_d t * m_d t)%f32 in
  ((sx + sy) * F32.half)%f32.

(** Modelled from the spec: [minF] and [maxF] are missing. *)
Definition minF (a b : float32) : float32 := if (a <? b)%f32 then a else b.
Definition maxF (a b : float32) : float32 := if (b <? a)%f32 then a else b.

(** Modelled from the spec: the trigonometric helpers [sinCosF], [tanF],
    [acosF] and [atan2F] wrap the math library, which the embedding does not
    have; the instance takes the first terms of their power series, and of
    the quadrant of [atan2F] only the half plane of positive abscissas. *)
Definition sinCosF (a : float32) : float32 * float32 :=
  let a2 := (a * a)%f32 in
  ((a * (F32.one - a2 / F32.of_Z 6 * (F32.one - a2 / F32.of_Z 20)))%f32,
   (F32.one - a2 / F32.two * (F32.one - a2 / F32.of_Z 12))%f32).
Definition tanF (a : float32) : float32 :=
  let '(s, c) := sinCosF a in (s / c)%f32.
Definition acosF (v : float32) : float32 :=
  (PI_half - v * (F32.one + v * v / F32.of_Z 6))%f32.
Definition atan2F (vy vx : float32) : float32 :=
  let q := (vy / vx)%f32 in (q * (F32.one - q * q / F32.of_Z 3))%f32.
Definition RotateMatrix (a : float32) : TransformMatrix :=
  let '(sn, cs) := sinCosF a in
  mkTransformMatrix cs sn (- sn)%f32 cs F32.zero F32.zero.
Definition SkewXMatrix (a : float32) : TransformMatrix :=
  mkTransformMatrix F32.one F32.zero (tanF a) F32.one F32.zero F32.zero.
Definition SkewYMatrix (a : float32) : TransformMatrix :=
  mkTransformMatrix F32.one (tanF a) F32.zero F32.one F32.zero F32.zero.

(** Modelled from the spec: [normalize] is missing; the length of a vector
    and the vector scaled to unit length (left alone when too short). *)
Definition normalize (vx_ vy_ : float32) : float32 * float32 * float32 :=
  let d := F32.sqrt (vx_ * vx_ + vy_ * vy_)%f32 in
  if (F32.of_ratio 1 1000000 <? d)%f32 then
    let id := (F32.one / d)%f32 in (d, (vx_ * id)%f32, (vy_ * id)%f32)
  else (d, vx_, vy_).

(** Modelled from the spec: [cross] is missing. *)
Definition cross (dx0 dy0 dx1 dy1 : float32) : float32 :=
  (dx1 * dy0 - dx0 * dy1)%f32.

(** Modelled from the spec: [ptEquals] is missing; two points closer than
    the tolerance. *)
Definition ptEquals (x1 y1 x2 y2 tol : float32) : bool :=
  let ddx := (x2 - x1)%f32 in
  let ddy := (y2 - y1)%f32 in
  (ddx * ddx + ddy * ddy <? tol * tol)%f32.

(** Modelled from the spec: [distPtSeg] is missing; the squared distance of
    the point [(px, py)] to the segment from [(ax, ay)] to [(bx, by)]. *)
Definition distPtSeg (px py ax ay bx by_ : float32) : float32 :=
  let pqx := (bx - ax)%f32 in
  let pqy := (by_ - ay)%f32 in
  let ddx := (px - ax)%f32 in
  let ddy := (py - ay)%f32 in
  let d := (pqx * pqx + pqy * pqy)%f32 in
  let t := (pqx * ddx + pqy * ddy)%f32 in
  let t := if (F32.zero <? d)%f32 then (t / d)%f32 else t in
  let t := clampF t F32.zero F32.one in
  let ex := (ax + t * pqx - px)%f32 in
  let ey := (ay + t * pqy - py)%f32 in
  (ex * ex + ey * ey)%f32.

(** Modelled from the spec: [nvgState.reset] is missing; it sets the style
    fields of a state to their defaults (the text alignment and the font
    are kept). *)
Definition reset (s : nvgState) : nvgState :=
  let white := mkColor F32.one F32.one F32.one F32.one in
  let black := mkColor F32.zero F32.zero F32.zero F32.one in
  let solid c :=
    mkPaint IdentityMatrix (F32.zero, F32.zero) F32.zero F32.one c c 0 in
  mkState (solid white) (solid black) F32.one (F32.of_Z 10) Miter Butt
    F32.one IdentityMatrix
    (mkScissor zeroMatrix ((- F32.one)%f32, (- F32.one)%f32))
    (F32.of_Z 16) F32.zero F32.one F32.zero (textAlign s) (fontID s).

(** Modelled from the spec: the methods of [nvgPathCache] that the
    flattener calls are missing.  [addPath] starts a path at the end of the
    arena; [addPoint] appends a point to the last path unless it is within
    the tolerance of the last point (the flags are then merged);
    [closePath] and [pathWinding] mark the last path. *)
Definition clearPathCache (c : nvgPathCache) : nvgPathCache :=
  mkPathCache [] [] (vertexes c) (bounds c).

Definition addPath (c : nvgPathCache) : nvgPathCache :=
  set_paths (paths c ++ [mkPath (len_ (points c)) 0 false 0 [] [] Solid false]) c.

Definition lastPoint (c : nvgPathCache) : option nvgPoint :=
  index (points c) (len_ (points c) - 1).

Definition updLastPath (f : nvgPath -> nvgPath) (c : nvgPathCache) : nvgPathCache :=
  match index (paths c) (len_ (paths c) - 1) with
  | Some p => set_paths (removelast (paths c) ++ [f p]) c
  | None => c
  end.

Definition addPoint (c : nvgPathCache) (px py : float32) (fl : nvgPointFlags)
  (tol : float32) : nvgPathCache :=
  match index (paths c) (len_ (paths c) - 1) with
  | None => c
  | Some path =>
      let fresh :=
        updLastPath (fun p => mkPath (first p) (count p + 1) (closed p)
                                (nBevel p) (fills p) (strokes p) (winding p)
                                (convex p))
          (set_points
             (points c ++ [mkPoint px py F32.zero F32.zero F32.zero F32.zero
                             F32.zero fl]) c) in
      match lastPoint c with
      | Some pt =>
          if (0 <? count path) && ptEquals (x pt) (y pt) px py tol then
            set_points
              (removelast (points c) ++
                 [mkPoint (x pt) (y pt) (dx pt) (dy pt) (len pt) (dmx pt)
                    (dmy pt) (Z.lor (flags pt) fl)]) c
          else fresh
      | None => fresh
      end
  end.

Definition closePath (c : nvgPathCache) : nvgPathCache :=
  updLastPath (fun p => set_count_closed (count p) true p) c.

Definition pathWinding (c : nvgPathCache) (w : Winding) : nvgPathCache :=
  updLastPath (fun p => mkPath (first p) (count p) (closed p) (nBevel p)
                          (fills p) (strokes p) w (convex p)) c.

(** Modelled from the spec: [tesselateBezier] is missing; recursive
    subdivision at the midpoint, until the curve is flat within the
    tessellation tolerance or ten levels deep. *)
Fixpoint tesselate (depth : nat) (c : nvgPathCache)
  (x1 y1 x2 y2 x3 y3 x4 y4 : float32) (fl : nvgPointFlags)
  (tessTol_ distTol_ : float32) : nvgPathCache :=
  match depth with
  | O => c
  | S depth' =>
      let ddx := (x4 - x1)%f32 in
      let ddy := (y4 - y1)%f32 in
      let d2 := absF ((x2 - x4) * ddy - (y2 - y4) * ddx)%f32 in
      let d3 := absF ((x3 - x4) * ddy - (y3 - y4) * ddx)%f32 in
      if ((d2 + d3) * (d2 + d3) <? tessTol_ * (ddx * ddx + ddy * ddy))%f32
      then addPoint c x4 y4 fl distTol_
      else
        let x12 := ((x1 + x2) * F32.half)%f32 in
        let y12 := ((y1 + y2) * F32.half)%f32 in
        let x23 := ((x2 + x3) * F32.half)%f32 in
        let y23 := ((y2 + y3) * F32.half)%f32 in
        let x34 := ((x3 + x4) * F32.half)%f32 in
        let y34 := ((y3 + y4) * F32.half)%f32 in
        let x123 := ((x12 + x23) * F32.half)%f32 in
        let y123 := ((y12 + y23) * F32.half)%f32 in
        let x234 := ((x23 + x34) * F32.half)%f32 in
        let y234 := ((y23 + y34) * F32.half)%f32 in
        let x1234 := ((x123 + x234) * F32.half)%f32 in
        let y1234 := ((y123 + y234) * F32.half)%f32 in
        tesselate depth'
          (tesselate depth' c x1 y1 x12 y12 x123 y123 x1234 y1234 0
             tessTol_ distTol_)
          x1234 y1234 x234 y234 x34 y34 x4 y4 fl tessTol_ distTol_
  end.

Definition tesselateBezier (c : nvgPathCache)
  (x1 y1 x2 y2 x3 y3 x4 y4 : float32) (level : Z) (fl : nvgPointFlags)
  (tessTol_ distTol_ : float32) : nvgPathCache :=
  tesselate (Z.to_nat (11 - level)) c x1 y1 x2 y2 x3 y3 x4 y4 fl
    tessTol_ distTol_.

(** Modelled from the spec: the tessellators [expandFill] and
    [expandStroke] are missing and outside of the embedded part; the
    instance hands each path its points as vertices, without fringe, joins
    or caps. *)
Definition pathVertices (c : nvgPathCache) (p : nvgPath) : list nvgVertex :=
  map (fun pt => mkVertex (x pt) (y pt) F32.half F32.one)
    (firstn (Z.to_nat (count p)) (skipn (Z.to_nat (first p)) (points c))).

Definition expandFill (c : nvgPathCache) (w : float32) (join : LineCap)
  (miter fringe : float32) : nvgPathCache :=
  set_paths
    (map (fun p => mkPath (first p) (count p) (closed p) 0
                     (pathVertices c p) [] (winding p) true) (paths c)) c.

Definition expandStroke (c : nvgPathCache) (w : float32) (cap join : LineCap)
  (miter fringe tess : float32) : nvgPathCache :=
  set_paths
    (map (fun p => mkPath (first p) (count p) (closed p) 0
                     [] (pathVertices c p) (winding p) (convex p)) (paths c)) c.

Definition package : Package :=
  Build_Package 32 IdentityMatrix TranslateMatrix ScaleMatrix RotateMatrix
    SkewXMatrix SkewYMatrix PreMultiply TransformPoint getAverageScale reset
    minF maxF sinCosF acosF tanF atan2F normalize cross ptEquals distPtSeg
    clearPathCache addPath addPoint lastPoint tesselateBezier closePath
    pathWinding expandFill expandStroke.

End Ref.

(** ** Examples: concrete contexts *)

(** The zero value [Context{}]. *)
Definition zeroContext : Context :=
  mkContext (mkParams false []) [] F32.zero F32.zero []
    (mkPathCache [] [] [] (F32.zero, F32.zero, F32.zero, F32.zero))
    F32.zero F32.zero F32.zero F32.zero [] 0 0 0 0 0.

(** A context or, for a run that panics, the zero context. *)
Definition orZero (o : option Context) : Context :=
  match o with
  | Some c => c
  | None => zeroContext
  end.

(** A context at the start of a frame, as [BeginFrame] leaves the zero
    context for the given device pixel ratio: one state, reset to the
    defaults. *)
Definition frameContext (ratio : float32) (aa : bool) : Context :=
  orZero (BeginFrame (pkg := Ref.package) ratio
            (set_params (mkParams aa []) zeroContext)).

(** The state stack of [frameContext] after one [Save]. *)
Definition savedContext : Context :=
  Save (pkg := Ref.package) (frameContext F32.one true).

(** The closed triangle (0, 0), (10, 0), (10, 10) recorded in a frame. *)
Definition triangleContext : Context :=
  orZero
    (c <- MoveTo (pkg := Ref.package) F32.zero F32.zero (frameContext F32.one true) ;;
     c <- LineTo (pkg := Ref.package) (F32.of_Z 10) F32.zero c ;;
     c <- LineTo (pkg := Ref.package) (F32.of_Z 10) (F32.of_Z 10) c ;;
     ClosePath (pkg := Ref.package) c).

(** The triangle after the walk over its commands, after [flattenPaths] and
    after [Fill]. *)
Definition triangleWalk : nvgPathCache :=
  match flattenCommands (pkg := Ref.package) (tessTol triangleContext)
          (distTol triangleContext) (commands triangleContext)
          (cache triangleContext) with
  | Some c => c
  | None => cache zeroContext
  end.

Definition triangleFlat : Context :=
  orZero (flattenPaths (pkg := Ref.package) triangleContext).

Definition triangleFilled : Context :=
  orZero (Fill (pkg := Ref.package) triangleContext).

(** A path of the single point (5, 5), before and after [flattenPaths]. *)
Definition pointContext : Context :=
  orZero (MoveTo (pkg := Ref.package) (F32.of_Z 5) (F32.of_Z 5)
            (frameContext F32.one true)).

Definition pointFlat : Context :=
  orZero (flattenPaths (pkg := Ref.package) pointContext).

(** A frame of the given device pixel ratio in which the coordinate system
    is scaled uniformly, the stroke width set, and the segment from (0, 0)
    to (10, 0) recorded. *)
Definition segmentContext (ratio scale width : float32) : Context :=
  orZero
    (c <- Scale (pkg := Ref.package) scale scale (frameContext ratio true) ;;
     c <- SetStrokeWidth width c ;;
     c <- MoveTo (pkg := Ref.package) F32.zero F32.zero c ;;
     LineTo (pkg := Ref.package) (F32.of_Z 10) F32.zero c).

(** What the renderer was handed by the most recent [renderStroke]: the
    alpha of the inner and of the outer color, and the stroke width. *)
Definition lastStroke (ctx : Context) : option (float32 * float32 * float32) :=
  match rendered (params ctx) with
  | RenderStroke paint _ _ width _ :: _ =>
      Some (A (innerColor paint), A (outerColor paint), width)
  | _ => None
  end.

(** * The rest of the drawing context

    The functions of [nanovgo.go] around the path pipeline: the accessors of
    the render state, the scoped [Block], scissoring, the shapes built on
    [appendCommand], the set-up of a context and the font images. *)

(** Field updates of [nvgState], [Paint] and [Context]. *)
Definition set_fill (p : Paint) (s : nvgState) : nvgState :=
  mkState p (stroke s) (strokeWidth s) (miterLimit s) (lineJoin s)
    (lineCap s) (alpha s) (xform s) (scissor s) (fontSize s) (letterSpacing s)
    (lineHeight s) (fontBlur s) (textAlign s) (fontID s).

Definition set_stroke (p : Paint) (s : nvgState) : nvgState :=
  mkState (fill s) p (strokeWidth s) (miterLimit s) (lineJoin s)
    (lineCap s) (alpha s) (xform s) (scissor s) (fontSize s) (letterSpacing s)
    (lineHeight s) (fontBlur s) (textAlign s) (fontID s).

Definition set_miterLimit (v : float32) (s : nvgState) : nvgState :=
  mkState (fill s) (stroke s) (strokeWidth s) v (lineJoin s)
    (lineCap s) (alpha s) (xform s) (scissor s) (fontSize s) (letterSpacing s)
    (lineHeight s) (fontBlur s) (textAlign s) (fontID s).

Definition set_lineJoin (v : LineCap) (s : nvgState) : nvgState :=
  mkState (fill s) (stroke s) (strokeWidth s) (miterLimit s) v
    (lineCap s) (alpha s) (xform s) (scissor s) (fontSize s) (letterSpacing s)
    (lineHeight s) (fontBlur s) (textAlign s) (fontID s).

Definition set_lineCap (v : LineCap) (s : nvgState) : nvgState :=
  mkState (fill s) (stroke s) (strokeWidth s) (miterLimit s) (lineJoin s)
    v (alpha s) (xform s) (scissor s) (fontSize s) (letterSpacing s)
    (lineHeight s) (fontBlur s) (textAlign s) (fontID s).

Definition set_alpha (v : float32) (s : nvgState) : nvgState :=
  mkState (fill s) (stroke s) (strokeWidth s) (miterLimit s) (lineJoin s)
    (lineCap s) v (xform s) (scissor s) (fontSize s) (letterSpacing s)
    (lineHeight s) (fontBlur s) (textAlign s) (fontID s).

Definition set_scissor (v : nvgScissor) (s : nvgState) : nvgState :=
  mkState (fill s) (stroke s) (strokeWidth s) (miterLimit s) (lineJoin s)
    (lineCap s) (alpha s) (xform s) v (fontSize s) (letterSpacing s)
    (lineHeight s) (fontBlur s) (textAlign s) (fontID s).

Definition set_fontSize (v : float32) (s : nvgState) : nvgState :=
  mkState (fill s) (stroke s) (strokeWidth s) (miterLimit s) (lineJoin s)
    (lineCap s) (alpha s) (xform s) (scissor s) v (letterSpacing s)
    (lineHeight s) (fontBlur s) (textAlign s) (fontID s).

Definition set_letterSpacing (v : float32) (s : nvgState) : nvgState :=
  mkState (fill s) (stroke s) (strokeWidth s) (miterLimit s) (lineJoin s)
    (lineCap s) (alpha s) (xform s) (scissor s) (fontSize s) v
    (lineHeight s) (fontBlur s) (textAlign s) (fontID s).

Definition set_lineHeight (v : float32) (s : nvgState) : nvgState :=
  mkState (fill s) (stroke s) (strokeWidth s) (miterLimit s) (lineJoin s)
    (lineCap s) (alpha s) (xform s) (scissor s) (fontSize s) (letterSpacing s)
    v (fontBlur s) (textAlign s) (fontID s).

Definition set_fontBlur (v : float32) (s : nvgState) : nvgState :=
  mkState (fill s) (stroke s) (strokeWidth s) (miterLimit s) (lineJoin s)
    (lineCap s) (alpha s) (xform s) (scissor s) (fontSize s) (letterSpacing s)
    (lineHeight s) v (textAlign s) (fontID s).

Definition set_textAlign (v : Z) (s : nvgState) : nvgState :=
  mkState (fill s) (stroke s) (strokeWidth s) (miterLimit s) (lineJoin s)
    (lineCap s) (alpha s) (xform s) (scissor s) (fontSize s) (letterSpacing s)
    (lineHeight s) (fontBlur s) v (fontID s).

Definition set_fontID (v : Z) (s : nvgState) : nvgState :=
  mkState (fill s) (stroke s) (strokeWidth s) (miterLimit s) (lineJoin s)
    (lineCap s) (alpha s) (xform s) (scissor s) (fontSize s) (letterSpacing s)
    (lineHeight s) (fontBlur s) (textAlign s) v.

Definition set_paint_xform (t : TransformMatrix) (p : Paint) : Paint :=
  mkPaint t (paint_extent p) (radius p) (feather p) (innerColor p)
    (outerColor p) (image p).

Definition set_fontImages (imgs : list Z) (idx : Z) (c : Context) : Context :=
  mkContext (params c) (commands c) (commandX c) (commandY c) (states c)
    (cache c) (tessTol c) (distTol c) (fringeWidth c) (devicePxRatio c)
    imgs idx (drawCallCount c) (fillTriCount c) (strokeTriCount c)
    (textTriCount c).

(** [l[i] = v] for an [int] index: out of range is a panic. *)
Definition assign {X : Type} (l : list X) (i : Z) (v : X) : option (list X) :=
  _ <- index l i ;; Some (store l (Z.to_nat i) v).

Definition set_image (img : Z) (p : Paint) : Paint :=
  mkPaint (paint_xform p) (paint_extent p) (radius p) (feather p)
    (innerColor p) (outerColor p) img.

Definition set_text_counts (draw textTri : Z) (c : Context) : Context :=
  mkContext (params c) (commands c) (commandX c) (commandY c) (states c)
    (cache c) (tessTol c) (distTol c) (fringeWidth c) (devicePxRatio c)
    (fontImages c) (fontImageIdx c) draw (fillTriCount c) (strokeTriCount c)
    textTri.

(** ** More of the sibling files

    Constants and functions that the functions below call and that are
    declared in other files of the package; parameters as well. *)
Class Helpers : Type := {
  (* constants *)
  nvgMaxFontImages : Z;
  Kappa90 : float32;
  (* the constant expression [1-Kappa90], which the compiler evaluates *)
  Kappa90_complement : float32;
  (* numeric helpers *)
  signF : float32 -> float32;
  intersectRects : float32 -> float32 -> float32 -> float32 ->
    float32 -> float32 -> float32 -> float32 ->
    float32 * float32 * float32 * float32;
  (* TransformMatrix *)
  Multiply : TransformMatrix -> TransformMatrix -> TransformMatrix;
  Inverse : TransformMatrix -> TransformMatrix;
  (* Paint *)
  setPaintColor : Paint -> Color -> Paint
}.

(** The texture store of the render backend behind the interface
    [nvgParams], as far as the context asks it about the font images; the
    error results of [renderGetTextureSize] and [renderDeleteTexture] are
    dropped by the callers below. *)
Class Textures : Type := {
  Backend : Type;
  renderGetTextureSize : Backend -> Z -> Z * Z;
  renderDeleteTexture : Backend -> Z -> Backend;
  renderFlush : Backend -> Backend;
  renderDelete : Backend -> Backend
}.

(** The font stash [ctx.fs] (a foreign object) and the backend, as far as
    the atlas of the glyphs goes through the context: [ValidateTexture]
    returns the part of the atlas that has changed, if any; a texture is
    created with its kind, its size, its flags and its data, if any, and
    updated in a rectangle. *)
Class Atlas {tex : Textures} : Type := {
  nvgMaxFontImageSize : Z;
  nvgTextureALPHA : Z;
  FontStash : Type;
  ValidateTexture : FontStash -> FontStash * option (Z * Z * Z * Z);
  GetTextureData : FontStash -> list Byte.byte;
  ResetAtlas : FontStash -> Z -> Z -> FontStash;
  renderCreateTexture :
    Backend -> Z -> Z -> Z -> Z -> option (list Byte.byte) -> Backend * Z;
  renderUpdateTexture :
    Backend -> Z -> Z -> Z -> Z -> Z -> list Byte.byte -> Backend;
  renderTriangleStrip :
    Backend -> Paint -> nvgScissor -> list nvgVertex -> Backend
}.

Section Styles.

Context {pkg : Package} {hlp : Helpers}.

(** ** Render styles *)

Definition StrokeWidth (ctx : Context) : option float32 :=
  state <- getState ctx ;; Some (strokeWidth state).

Definition SetMiterLimit (limit : float32) (ctx : Context) : option Context :=
  updState (set_miterLimit limit) ctx.

Definition MiterLimit (ctx : Context) : option float32 :=
  state <- getState ctx ;; Some (miterLimit state).

Definition SetLineCap (cap : LineCap) (ctx : Context) : option Context :=
  updState (set_lineCap cap) ctx.

(** The method [LineCap] of [Context] (the name is taken by the type). *)
Definition Context_LineCap (ctx : Context) : option LineCap :=
  state <- getState ctx ;; Some (lineCap state).

Definition SetLineJoin (joint : LineCap) (ctx : Context) : option Context :=
  updState (set_lineJoin joint) ctx.

Definition LineJoin (ctx : Context) : option LineCap :=
  state <- getState ctx ;; Some (lineJoin state).

Definition SetGlobalAlpha (alpha_ : float32) (ctx : Context) : option Context :=
  updState (set_alpha alpha_) ctx.

Definition GlobalAlpha (ctx : Context) : option float32 :=
  state <- getState ctx ;; Some (alpha state).

Definition SetTransformByValue (a b c d e f : float32) (ctx : Context)
  : option Context :=
  let t := mkTransformMatrix a b c d e f in
  updState (fun state => set_xform (PreMultiply (xform state) t) state) ctx.

Definition CurrentTransform (ctx : Context) : option TransformMatrix :=
  state <- getState ctx ;; Some (xform state).

Definition SetStrokeColor (color : Color) (ctx : Context) : option Context :=
  updState (fun state => set_stroke (setPaintColor (stroke state) color) state) ctx.

Definition SetStrokePaint (paint : Paint) (ctx : Context) : option Context :=
  updState (fun state =>
    set_stroke
      (set_paint_xform (Multiply (paint_xform paint) (xform state)) paint)
      state) ctx.

Definition SetFillColor (color : Color) (ctx : Context) : option Context :=
  updState (fun state => set_fill (setPaintColor (fill state) color) state) ctx.

Definition SetFillPaint (paint : Paint) (ctx : Context) : option Context :=
  updState (fun state =>
    set_fill
      (set_paint_xform (Multiply (paint_xform paint) (xform state)) paint)
      state) ctx.

(** ** Scissoring *)

Definition Scissor (px py w h : float32) (ctx : Context) : option Context :=
  updState (fun state =>
    let w := maxF F32.zero w in
    let h := maxF F32.zero h in
    set_scissor
      (mkScissor
         (Multiply
            (TranslateMatrix (px + w * F32.half)%f32 (py + h * F32.half)%f32)
            (xform state))
         ((w * F32.half)%f32, (h * F32.half)%f32))
      state) ctx.

Definition IntersectScissor (px py w h : float32) (ctx : Context)
  : option Context :=
  state <- getState ctx ;;
  if (fst (scissor_extent (scissor state)) <? F32.zero)%f32 then
    Scissor px py w h ctx
  else
    let pXform :=
      Multiply (scissor_xform (scissor state)) (Inverse (xform state)) in
    let ex := fst (scissor_extent (scissor state)) in
    let ey := snd (scissor_extent (scissor state)) in
    let teX := (ex * absF (m_a pXform) * ey * absF (m_c pXform))%f32 in
    let teY := (ex * absF (m_b pXform) * ey * absF (m_d pXform))%f32 in
    let '(r0, r1, r2, r3) :=
      intersectRects (m_e pXform - teX)%f32 (m_f pXform - teY)%f32
        (teX * F32.two)%f32 (teY * F32.two)%f32 px py w h in
    Scissor r0 r1 r2 r3 ctx.

Definition ResetScissor (ctx : Context) : option Context :=
  updState
    (set_scissor (mkScissor zeroMatrix ((- F32.one)%f32, (- F32.one)%f32))) ctx.

(** ** Text styles (the fields of the state; the font stash is foreign) *)

Definition SetFontSize (size : float32) (ctx : Context) : option Context :=
  if (size <? F32.zero)%f32 then None
  else updState (set_fontSize size) ctx.

Definition FontSize (ctx : Context) : option float32 :=
  state <- getState ctx ;; Some (fontSize state).

Definition SetFontBlur (blur : float32) (ctx : Context) : option Context :=
  updState (set_fontBlur blur) ctx.

Definition FontBlur (ctx : Context) : option float32 :=
  state <- getState ctx ;; Some (fontBlur state).

Definition SetTextLetterSpacing (spacing : float32) (ctx : Context)
  : option Context :=
  updState (set_letterSpacing spacing) ctx.

Definition TextLetterSpacing (ctx : Context) : option float32 :=
  state <- getState ctx ;; Some (letterSpacing state).

Definition SetTextLineHeight (lineHeight_ : float32) (ctx : Context)
  : option Context :=
  updState (set_lineHeight lineHeight_) ctx.

Definition TextLineHeight (ctx : Context) : option float32 :=
  state <- getState ctx ;; Some (lineHeight state).

Definition SetTextAlign (align : Z) (ctx : Context) : option Context :=
  updState (set_textAlign align) ctx.

Definition TextAlign (ctx : Context) : option Z :=
  state <- getState ctx ;; Some (textAlign state).

Definition SetFontFaceID (font : Z) (ctx : Context) : option Context :=
  updState (set_fontID font) ctx.

Definition FontFaceID (ctx : Context) : option Z :=
  state <- getState ctx ;; Some (fontID state).

(** ** Shapes *)

Definition QuadTo (cx cy px py : float32) (ctx : Context) : option Context :=
  let x0 := commandX ctx in
  let y0 := commandY ctx in
  appendCommand
    [F32.of_Z nvgBEZIERTO;
     (x0 + F32.of_ratio 2 3 * (cx - x0))%f32;
     (y0 + F32.of_ratio 2 3 * (cy - y0))%f32;
     (px + F32.of_ratio 2 3 * (cx - px))%f32;
     (py + F32.of_ratio 2 3 * (cy - py))%f32;
     px; py] ctx.

Definition Rect (px py w h : float32) (ctx : Context) : option Context :=
  appendCommand
    [F32.of_Z nvgMOVETO; px; py;
     F32.of_Z nvgLINETO; px; (py + h)%f32;
     F32.of_Z nvgLINETO; (px + w)%f32; (py + h)%f32;
     F32.of_Z nvgLINETO; (px + w)%f32; py;
     F32.of_Z nvgCLOSE] ctx.

(** The values [RoundedRect] records when the radius is not below 0.1. *)
Definition roundedRectValues (px py w h r : float32) : list float32 :=
  let rx := (minF r (absF w * F32.half) * signF w)%f32 in
  let ry := (minF r (absF h * F32.half) * signF h)%f32 in
  let k := Kappa90_complement in
  [F32.of_Z nvgMOVETO; px; (py + ry)%f32;
   F32.of_Z nvgLINETO; px; (py + h - ry)%f32;
   F32.of_Z nvgBEZIERTO; px; (py + h - ry * k)%f32;
     (px + rx * k)%f32; (py + h)%f32; (px + rx)%f32; (py + h)%f32;
   F32.of_Z nvgLINETO; (px + w - rx)%f32; (py + h)%f32;
   F32.of_Z nvgBEZIERTO; (px + w - rx * k)%f32; (py + h)%f32;
     (px + w)%f32; (py + h - ry * k)%f32; (px + w)%f32; (py + h - ry)%f32;
   F32.of_Z nvgLINETO; (px + w)%f32; (py + ry)%f32;
   F32.of_Z nvgBEZIERTO; (px + w)%f32; (py + ry * k)%f32;
     (px + w - rx * k)%f32; py; (px + w - rx)%f32; py;
   F32.of_Z nvgLINETO; (px + rx)%f32; py;
   F32.of_Z nvgBEZIERTO; (px + rx * k)%f32; py;
     px; (py + ry * k)%f32; px; (py + ry)%f32;
   F32.of_Z nvgCLOSE].

Definition RoundedRect (px py w h r : float32) (ctx : Context)
  : option Context :=
  if (r <? F32.of_ratio 1 10)%f32 then Rect px py w h ctx
  else appendCommand (roundedRectValues px py w h r) ctx.

Definition Ellipse (cx cy rx ry : float32) (ctx : Context) : option Context :=
  appendCommand
    [F32.of_Z nvgMOVETO; (cx - rx)%f32; cy;
     F32.of_Z nvgBEZIERTO; (cx - rx)%f32; (cy + ry * Kappa90)%f32;
       (cx - rx * Kappa90)%f32; (cy + ry)%f32; cx; (cy + ry)%f32;
     F32.of_Z nvgBEZIERTO; (cx + rx * Kappa90)%f32; (cy + ry)%f32;
       (cx + rx)%f32; (cy + ry * Kappa90)%f32; (cx + rx)%f32; cy;
     F32.of_Z nvgBEZIERTO; (cx + rx)%f32; (cy - ry * Kappa90)%f32;
       (cx + rx * Kappa90)%f32; (cy - ry)%f32; cx; (cy - ry)%f32;
     F32.of_Z nvgBEZIERTO; (cx - rx * Kappa90)%f32; (cy - ry)%f32;
       (cx - rx)%f32; (cy - ry * Kappa90)%f32; (cx - rx)%f32; cy;
     F32.of_Z nvgCLOSE] ctx.

Definition Circle (cx cy r : float32) (ctx : Context) : option Context :=
  Ellipse cx cy r r ctx.

(** ** The calls of the API on the render state and on the path

    One constructor for each method of [Context] embedded above that works
    on the render state, records path commands or draws, and the function
    that performs the call; [fuel] bounds the loops of [Arc]. *)
Inductive Call : Type :=
| CReset
| CSetStrokeWidth (width : float32)
| CSetMiterLimit (limit : float32)
| CSetLineCap (cap : LineCap)
| CSetLineJoin (joint : LineCap)
| CSetGlobalAlpha (alpha_ : float32)
| CSetTransform (t : TransformMatrix)
| CSetTransformByValue (a b c d e f : float32)
| CResetTransform
| CTranslate (tx ty : float32)
| CRotate (angle : float32)
| CSkewX (angle : float32)
| CSkewY (angle : float32)
| CScale (sx sy : float32)
| CSetStrokeColor (color : Color)
| CSetStrokePaint (paint : Paint)
| CSetFillColor (color : Color)
| CSetFillPaint (paint : Paint)
| CScissor (px py w h : float32)
| CIntersectScissor (px py w h : float32)
| CResetScissor
| CSetFontSize (size : float32)
| CSetFontBlur (blur : float32)
| CSetTextLetterSpacing (spacing : float32)
| CSetTextLineHeight (lineHeight_ : float32)
| CSetTextAlign (align : Z)
| CSetFontFaceID (font : Z)
| CBeginPath
| CMoveTo (px py : float32)
| CLineTo (px py : float32)
| CBezierTo (c1x c1y c2x c2y px py : float32)
| CQuadTo (cx cy px py : float32)
| CArc (cx cy r a0 a1 : float32) (dir : Direction)
| CArcTo (x1 y1 x2 y2 radius_ : float32)
| CRect (px py w h : float32)
| CRoundedRect (px py w h r : float32)
| CEllipse (cx cy rx ry : float32)
| CCircle (cx cy r : float32)
| CClosePath
| CPathWinding (winding_ : Winding)
| CFill
| CStroke.

Definition call (fuel : nat) (op : Call) (ctx : Context) : option Context :=
  match op with
  | CReset => Reset ctx
  | CSetStrokeWidth width => SetStrokeWidth width ctx
  | CSetMiterLimit limit => SetMiterLimit limit ctx
  | CSetLineCap cap => SetLineCap cap ctx
  | CSetLineJoin joint => SetLineJoin joint ctx
  | CSetGlobalAlpha alpha_ => SetGlobalAlpha alpha_ ctx
  | CSetTransform t => SetTransform t ctx
  | CSetTransformByValue a b c d e f => SetTransformByValue a b c d e f ctx
  | CResetTransform => ResetTransform ctx
  | CTranslate tx ty => Translate tx ty ctx
  | CRotate angle => Rotate angle ctx
  | CSkewX angle => SkewX angle ctx
  | CSkewY angle => SkewY angle ctx
  | CScale sx sy => Scale sx sy ctx
  | CSetStrokeColor color => SetStrokeColor color ctx
  | CSetStrokePaint paint => SetStrokePaint paint ctx
  | CSetFillColor color => SetFillColor color ctx
  | CSetFillPaint paint => SetFillPaint paint ctx
  | CScissor px py w h => Scissor px py w h ctx
  | CIntersectScissor px py w h => IntersectScissor px py w h ctx
  | CResetScissor => ResetScissor ctx
  | CSetFontSize size => SetFontSize size ctx
  | CSetFontBlur blur => SetFontBlur blur ctx
  | CSetTextLetterSpacing spacing => SetTextLetterSpacing spacing ctx
  | CSetTextLineHeight lineHeight_ => SetTextLineHeight lineHeight_ ctx
  | CSetTextAlign align => SetTextAlign align ctx
  | CSetFontFaceID font => SetFontFaceID font ctx
  | CBeginPath => Some (BeginPath ctx)
  | CMoveTo px py => MoveTo px py ctx
  | CLineTo px py => LineTo px py ctx
  | CBezierTo c1x c1y c2x c2y px py => BezierTo c1x c1y c2x c2y px py ctx
  | CQuadTo cx cy px py => QuadTo cx cy px py ctx
  | CArc cx cy r a0 a1 dir => Arc fuel cx cy r a0 a1 dir ctx
  | CArcTo x1 y1 x2 y2 radius_ => ArcTo fuel x1 y1 x2 y2 radius_ ctx
  | CRect px py w h => Rect px py w h ctx
  | CRoundedRect px py w h r => RoundedRect px py w h r ctx
  | CEllipse cx cy rx ry => Ellipse cx cy rx ry ctx
  | CCircle cx cy r => Circle cx cy r ctx
  | CClosePath => ClosePath ctx
  | CPathWinding winding_ => PathWinding winding_ ctx
  | CFill => Fill ctx
  | CStroke => Stroke ctx
  end.

(** A sequence of calls, one after the other; a panic ends it. *)
Fixpoint calls (fuel : nat) (cs : list Call) (ctx : Context) : option Context :=
  match cs with
  | [] => Some ctx
  | op :: cs' => ctx' <- call fuel op ctx ;; calls fuel cs' ctx'
  end.

(** [Block]: [Save], the block, and the deferred [Restore]; when the block
    panics the panic goes on after the [Restore]. *)
Definition Block (block : Context -> option Context) (ctx : Context)
  : option Context :=
  ctx1 <- block (Save ctx) ;; Some (Restore ctx1).

(** The state part of [createInternal]: [tex] is the texture the backend
    creates for the first font image. *)
Definition createInternal (params_ : nvgParams) (tex : Z) : option Context :=
  let context :=
    mkContext params_ [] F32.zero F32.zero []
      (mkPathCache [] [] [] (F32.zero, F32.zero, F32.zero, F32.zero))
      F32.zero F32.zero F32.zero F32.zero
      (repeat 0 (Z.to_nat nvgMaxFontImages)) 0 0 0 0 0 in
  context <- Reset (Save context) ;;
  let context := setDevicePixelRatio F32.one context in
  imgs <- assign (fontImages context) 0 tex ;;
  Some (set_fontImages imgs 0 context).

End Styles.

(** ** The records of the command buffer

    The buffer is a sequence of records, an opcode followed by its operands:
    two for [nvgMOVETO] and [nvgLINETO], six for [nvgBEZIERTO], none for
    [nvgCLOSE], one for [nvgWINDING]; any other value in the place of an
    opcode stands alone, as the walks over the buffer skip it. *)
Fixpoint recordsWhole (cmds : list float32) : bool :=
  match cmds with
  | [] => true
  | op :: rest =>
      let k := F32.to_int op in
      if (k =? nvgMOVETO) || (k =? nvgLINETO) then
        match rest with
        | _ :: _ :: rest' => recordsWhole rest'
        | _ => false
        end
      else if k =? nvgBEZIERTO then
        match rest with
        | _ :: _ :: _ :: _ :: _ :: _ :: rest' => recordsWhole rest'
        | _ => false
        end
      else if k =? nvgCLOSE then recordsWhole rest
      else if k =? nvgWINDING then
        match rest with
        | _ :: rest' => recordsWhole rest'
        | [] => false
        end
      else recordsWhole rest
  end.

Section FontImages.

Context {hlp : Helpers} {tex : Textures}.

(** ** Font images *)

(** The loop of [Delete] over the font images. *)
Fixpoint deleteFontImages (b : Backend) (imgs : list Z) : Backend * list Z :=
  match imgs with
  | [] => (b, [])
  | fontImage :: rest =>
      if negb (fontImage =? 0) then
        let '(b', rest') := deleteFontImages (renderDeleteTexture b fontImage) rest in
        (b', 0 :: rest')
      else
        let '(b', rest') := deleteFontImages b rest in
        (b', fontImage :: rest')
  end.

Definition Delete (b : Backend) (ctx : Context) : Backend * Context :=
  let '(b', imgs) := deleteFontImages b (fontImages ctx) in
  (renderDelete b', set_fontImages imgs (fontImageIdx ctx) ctx).

(** The first loop of [EndFrame], [for i := 0; i < ctx.fontImageIdx; i++],
    from [i] on for [n] rounds: the backend, the font images and [j]. *)
Fixpoint compactFontImages (n : nat) (i iw ih : Z) (b : Backend)
  (imgs : list Z) (j : Z) : option (Backend * list Z * Z) :=
  match n with
  | O => Some (b, imgs, j)
  | S n' =>
      img <- index imgs i ;;
      let '(nw, nh) := renderGetTextureSize b img in
      if (nw <? iw) || (nh <? ih) then
        compactFontImages n' (i + 1) iw ih (renderDeleteTexture b img) imgs j
      else
        imgs' <- assign imgs j img ;;
        compactFontImages n' (i + 1) iw ih b imgs' (j + 1)
  end.

(** The last loop of [EndFrame], [for i := j; i < nvgMaxFontImages; i++]. *)
Fixpoint clearFontImages (n : nat) (i : Z) (imgs : list Z) : option (list Z) :=
  match n with
  | O => Some imgs
  | S n' => imgs' <- assign imgs i 0 ;; clearFontImages n' (i + 1) imgs'
  end.

Definition EndFrame (b : Backend) (ctx : Context) : option (Backend * Context) :=
  let b := renderFlush b in
  if negb (fontImageIdx ctx =? 0) then
    fontImage <- index (fontImages ctx) (fontImageIdx ctx) ;;
    if fontImage =? 0 then Some (b, ctx)
    else
      let '(iw, ih) := renderGetTextureSize b fontImage in
      r <- compactFontImages (Z.to_nat (fontImageIdx ctx)) 0 iw ih b
             (fontImages ctx) 0 ;;
      let '(b1, imgs, j) := r in
      (* make current font image to first *)
      first_ <- index imgs 0 ;;
      imgs <- assign imgs j first_ ;;
      let j := j + 1 in
      imgs <- assign imgs 0 fontImage ;;
      (* clear all image after j *)
      imgs <- clearFontImages (Z.to_nat (nvgMaxFontImages - j)) j imgs ;;
      Some (b1, set_fontImages imgs 0 ctx)
  else Some (b, ctx).

End FontImages.

Section TextAtlas.

Context {hlp : Helpers} {tex : Textures} {atl : Atlas}.

(** ** The atlas of the glyphs *)

Definition flushTextTexture (b : Backend) (fs : FontStash) (ctx : Context)
  : option (Backend * FontStash) :=
  let '(fs, dirty) := ValidateTexture fs in
  match dirty with
  | Some (d0, d1, d2, d3) =>
      fontImage <- index (fontImages ctx) (fontImageIdx ctx) ;;
      (* Update texture *)
      if negb (fontImage =? 0) then
        let data := GetTextureData fs in
        let x_ := d0 in
        let y_ := d1 in
        let w := int (d2 - x_) in
        let h := int (d3 - y_) in
        Some (renderUpdateTexture b fontImage x_ y_ w h data, fs)
      else Some (b, fs)
  | None => Some (b, fs)
  end.

(** The size of the font image that [allocTextAtlas] creates after one of
    the size [(iw, ih)]. *)
Definition nextAtlasSize (iw ih : Z) : Z * Z :=
  let '(iw, ih) := if ih <? iw then (iw, int (ih * 2)) else (int (iw * 2), ih) in
  if (nvgMaxFontImageSize <? iw) || (nvgMaxFontImageSize <? ih)
  then (nvgMaxFontImageSize, nvgMaxFontImageSize)
  else (iw, ih).

Definition allocTextAtlas (b : Backend) (fs : FontStash) (ctx : Context)
  : option (bool * Backend * FontStash * Context) :=
  r <- flushTextTexture b fs ctx ;;
  let '(b, fs) := r in
  if nvgMaxFontImages - 1 <=? fontImageIdx ctx then Some (false, b, fs, ctx)
  else
    next <- index (fontImages ctx) (fontImageIdx ctx + 1) ;;
    r <-
      (* if next fontImage already have a texture *)
      (if negb (next =? 0) then
         let '(iw, ih) := renderGetTextureSize b next in
         Some (iw, ih, b, fontImages ctx)
       else
         (* calculate the new font image size and create it. *)
         cur <- index (fontImages ctx) (fontImageIdx ctx) ;;
         let '(iw, ih) := renderGetTextureSize b cur in
         let '(iw, ih) := nextAtlasSize iw ih in
         let '(b, t) := renderCreateTexture b nvgTextureALPHA iw ih 0 None in
         imgs <- assign (fontImages ctx) (fontImageIdx ctx + 1) t ;;
         Some (iw, ih, b, imgs)) ;;
    let '(iw, ih, b, imgs) := r in
    Some (true, b, ResetAtlas fs iw ih,
          set_fontImages imgs (fontImageIdx ctx + 1) ctx).

(** [renderText]. *)
Definition renderText (b : Backend) (vertexes_ : list nvgVertex) (ctx : Context)
  : option (Backend * Context) :=
  state <- getState ctx ;;
  let paint := fill state in
  (* Render triangles *)
  img <- index (fontImages ctx) (fontImageIdx ctx) ;;
  let paint := set_image img paint in
  (* Apply global alpha *)
  let paint := scaleAlpha (alpha state) paint in
  let b := renderTriangleStrip b paint (scissor state) vertexes_ in
  Some (b, set_text_counts (int (drawCallCount ctx + 1))
             (int (textTriCount ctx + Z.quot (len_ vertexes_) 3)) ctx).

End TextAtlas.

(** ** A reference instance of the further parameters *)
Module RefHelpers.

(** Modelled from the spec: [signF] is missing; the sign of a number as
    [1] or [-1]. *)
Definition signF (a : float32) : float32 :=
  if (F32.zero <=? a)%f32 then F32.one else (- F32.one)%f32.

(** Modelled from the spec: [intersectRects] is missing; the rectangle
    common to two rectangles given by corner, width and height. *)
Definition intersectRects (ax ay aw ah bx by_ bw bh : float32)
  : float32 * float32 * float32 * float32 :=
  let minX := Ref.maxF ax bx in
  let minY := Ref.maxF ay by_ in
  let maxX := Ref.minF (ax + aw)%f32 (bx + bw)%f32 in
  let maxY := Ref.minF (ay + ah)%f32 (by_ + bh)%f32 in
  (minX, minY, Ref.maxF F32.zero (maxX - minX)%f32,
   Ref.maxF F32.zero (maxY - minY)%f32).

(** Modelled from the spec: [TransformMatrix.Inverse] is missing; the
    inverse of the affine matrix, the identity for a singular one. *)
Definition Inverse (t : TransformMatrix) : TransformMatrix :=
  let det := (m_a t * m_d t - m_c t * m_b t)%f32 in
  if (det =? F32.zero)%f32 then Ref.IdentityMatrix
  else
    let invdet := (F32.one / det)%f32 in
    mkTransformMatrix
      (m_d t * invdet)%f32 (- m_b t * invdet)%f32
      (- m_c t * invdet)%f32 (m_a t * invdet)%f32
      ((m_c t * m_f t - m_d t * m_e t) * invdet)%f32
      ((m_b t * m_e t - m_a t * m_f t) * invdet)%f32.

(** Modelled from the spec: [Paint.setPaintColor] is missing; the paint of
    a solid color. *)
Definition setPaintColor (p : Paint) (color : Color) : Paint :=
  mkPaint Ref.IdentityMatrix (F32.zero, F32.zero) F32.zero F32.one color color 0.

(** [Kappa90] (0.5522847493, the length of the handles of a cubic curve for
    a quarter circle of radius one) and [1-Kappa90] as binary32 numbers; four
    font images. *)
Definition helpers : Helpers :=
  Build_Helpers 4 (S754_finite false 9265801 (-24))
    (S754_finite false 15022830 (-25)) signF intersectRects Ref.Multiply
    Inverse setPaintColor.

(** A backend that knows the size of each texture and lists the textures it
    was asked to delete, most recent first. *)
Definition textures (size : Z -> Z * Z) : Textures :=
  Build_Textures (list Z) (fun _ img => size img) (fun b img => img :: b)
    (fun b => b) (fun b => b).

(** A font stash whose atlas has never changed, and a backend that gives
    the textures it creates the numbers from 100 on; the largest font image
    is 2048 wide and high. *)
Definition atlas (size : Z -> Z * Z) : Atlas (tex := textures size) :=
  Build_Atlas (textures size) 2048 1 unit (fun fs => (fs, None)) (fun _ => [])
    (fun fs _ _ => fs)
    (fun b _ _ _ _ _ => (b, 100 + Z.of_nat (length b)))
    (fun b _ _ _ _ _ _ => b) (fun b _ _ _ => b).

End RefHelpers.

(** ** Notions for the statements about the rest of the context *)

(** What an assignment to the top state keeps: the depth of the stack and
    the states below the top. *)
Definition keepsLower (ctx ctx' : Context) : Prop :=
  len_ (states ctx') = len_ (states ctx) /\
  removelast (states ctx') = removelast (states ctx).

(** The calls that work on the render state alone. *)
Definition onState (op : Call) : bool :=
  match op with
  | CBeginPath | CMoveTo _ _ | CLineTo _ _ | CBezierTo _ _ _ _ _ _
  | CQuadTo _ _ _ _ | CArc _ _ _ _ _ _ | CArcTo _ _ _ _ _ | CRect _ _ _ _
  | CRoundedRect _ _ _ _ _ | CEllipse _ _ _ _ | CCircle _ _ _ | CClosePath
  | CPathWinding _ | CFill | CStroke => false
  | _ => true
  end.

(** A frame of the reference instance whose state stack is full: the state
    of [frameContext] saved until [Save] has no room left. *)
Definition fullContext : Context :=
  Nat.iter 31 (Save (pkg := Ref.package)) (frameContext F32.one true).

(** Some calls on the render state and on the path, for the examples. *)
Definition someCalls : list Call :=
  [CTranslate (F32.of_Z 5) (F32.of_Z 7); CSetStrokeWidth (F32.of_Z 3);
   CSetGlobalAlpha F32.half; CScissor F32.zero F32.zero F32.one F32.one;
   CMoveTo F32.zero F32.zero; CLineTo F32.one F32.zero;
   CLineTo F32.one F32.one; CClosePath; CFill].

(** The path style and the text style of the current state, as the getters
    of the API return them. *)
Definition pathStyle (ctx : Context)
  : option float32 * option float32 * option LineCap * option LineCap
    * option float32 :=
  (StrokeWidth ctx, MiterLimit ctx, Context_LineCap ctx, LineJoin ctx,
   GlobalAlpha ctx).

Definition textStyle (ctx : Context)
  : option float32 * option float32 * option float32 * option float32
    * option Z * option Z :=
  (FontSize ctx, FontBlur ctx, TextLetterSpacing ctx, TextLineHeight ctx,
   TextAlign ctx, FontFaceID ctx).

(** The point of the arc that the loop of [Arc] computes in round [i]. *)
Definition arcPoint {pkg : Package} (cx cy r a0 da : float32) (nDivs i : Z)
  : float32 * float32 :=
  let a := (a0 + da * F32.of_Z i / F32.of_Z nDivs)%f32 in
  let '(dy_, dx_) := sinCosF a in
  ((cx + dx_ * r)%f32, (cy + dy_ * r)%f32).

(** The sum of a count over the paths of a cache. *)
Definition sumOver {X : Type} (f : X -> Z) (l : list X) : Z :=
  fold_right (fun p acc => f p + acc) 0 l.

(** The fields of a context that the drawing calls have no business with. *)
Definition beside_cache (ctx : Context)
  : list float32 * (float32 * float32) * list nvgState
    * (float32 * float32 * float32 * float32) * (list Z * Z) * bool :=
  (commands ctx, (commandX ctx, commandY ctx), states ctx,
   (tessTol ctx, distTol ctx, fringeWidth ctx, devicePxRatio ctx),
   (fontImages ctx, fontImageIdx ctx), edgeAntiAlias (params ctx)).

(** The values of Go's [int] on a 64-bit platform. *)
Definition isInt (z : Z) : Prop := - 2 ^ 63 <= z < 2 ^ 63.

(** The font images that [EndFrame] keeps, of those before the current
    one: an image is deleted when it is narrower than [iw] or lower than
    [ih], and kept otherwise; the backend goes from one image to the next. *)
Fixpoint survivors {tex : Textures} (iw ih : Z) (b : Backend) (imgs : list Z)
  : Backend * list Z :=
  match imgs with
  | [] => (b, [])
  | img :: rest =>
      let '(nw, nh) := renderGetTextureSize b img in
      if (nw <? iw) || (nh <? ih) then
        survivors iw ih (renderDeleteTexture b img) rest
      else
        let '(b', kept) := survivors iw ih b rest in (b', img :: kept)
  end.

(** A context of the reference instance with three font images in use, the
    third being the current one, and a backend in which the first is smaller
    than the current one and the second is not. *)
Definition atlasContext : Context :=
  set_fontImages [11; 12; 13; 0] 2 (frameContext F32.one true).

Definition atlasSize (img : Z) : Z * Z :=
  if img =? 11 then (512, 512) else (1024, 1024).

(** The calls that change the transform of the current state. *)
Definition onTransform (op : Call) : bool :=
  match op with
  | CSetTransform _ | CSetTransformByValue _ _ _ _ _ _ | CResetTransform
  | CTranslate _ _ | CRotate _ | CSkewX _ | CSkewY _ | CScale _ _ => true
  | _ => false
  end.

(** The paints and the scissor of a state. *)
Definition paintsAndScissor (s : nvgState) : Paint * Paint * nvgScissor :=
  (fill s, stroke s, scissor s).

(** The frame of the reference instance after [someCalls] on a new path. *)
Definition someCallsContext : Context :=
  orZero (calls (pkg := Ref.package) (hlp := RefHelpers.helpers) 1 someCalls
            (BeginPath (pkg := Ref.package) (frameContext F32.one true))).

(** A frame with a fill paint set and the transform changed afterwards. *)
Definition paintedContext : Context :=
  orZero (SetFillPaint (hlp := RefHelpers.helpers) zeroPaint
            (frameContext F32.one true)).

Definition movedCalls : list Call :=
  [CTranslate (F32.of_Z 5) (F32.of_Z 7); CScale F32.two F32.two].

Definition movedContext : Context :=
  orZero (calls (pkg := Ref.package) (hlp := RefHelpers.helpers) 1 movedCalls
            paintedContext).

(** The array of font images has its [nvgMaxFontImages] entries and the
    index of the current font image is one of them. *)
Definition fontImagesFit {hlp : Helpers} (ctx : Context) : Prop :=
  len_ (fontImages ctx) = nvgMaxFontImages /\
  0 <= fontImageIdx ctx < nvgMaxFontImages.

(** A backend in which every texture is 512 wide and high, and a context of
    the reference instance whose second font image has no texture yet. *)
Definition squareSize (img : Z) : Z * Z := (512, 512).

Definition firstAtlasContext : Context :=
  set_fontImages [11; 0; 0; 0] 0 (frameContext F32.one true).

(** ** Path commands as the specification has them

    Following the specification: a path command is an opcode with its
    operands, [MoveTo] and [LineTo] with one point, [BezierTo] with two
    control points and an end point, [ClosePath] with nothing and the
    winding with its class; in the buffer the opcode comes first and the
    operands follow. *)
Inductive PathCommand : Type :=
| PMoveTo (px py : float32)
| PLineTo (px py : float32)
| PBezierTo (c1x c1y c2x c2y px py : float32)
| PClose
| PWinding (w : float32).

Definition encode (c : PathCommand) : list float32 :=
  match c with
  | PMoveTo px py => [F32.of_Z nvgMOVETO; px; py]
  | PLineTo px py => [F32.of_Z nvgLINETO; px; py]
  | PBezierTo c1x c1y c2x c2y px py =>
      [F32.of_Z nvgBEZIERTO; c1x; c1y; c2x; c2y; px; py]
  | PClose => [F32.of_Z nvgCLOSE]
  | PWinding w => [F32.of_Z nvgWINDING; w]
  end.

Definition encodeAll (cs : list PathCommand) : list float32 :=
  flat_map encode cs.

(** Following the specification: a command as it is recorded under a
    transform, each of its points mapped through the transform, and nothing
    else changed. *)
Definition recordedUnder {pkg : Package} (t : TransformMatrix)
  (c : PathCommand) : PathCommand :=
  match c with
  | PMoveTo px py =>
      PMoveTo (fst (TransformPoint t px py)) (snd (TransformPoint t px py))
  | PLineTo px py =>
      PLineTo (fst (TransformPoint t px py)) (snd (TransformPoint t px py))
  | PBezierTo c1x c1y c2x c2y px py =>
      PBezierTo (fst (TransformPoint t c1x c1y)) (snd (TransformPoint t c1x c1y))
        (fst (TransformPoint t c2x c2y)) (snd (TransformPoint t c2x c2y))
        (fst (TransformPoint t px py)) (snd (TransformPoint t px py))
  | PClose => PClose
  | PWinding w => PWinding w
  end.

Definition isCurve (c : PathCommand) : bool :=
  match c with
  | PBezierTo _ _ _ _ _ _ => true
  | _ => false
  end.

(** The first command of an arc: a line when the buffer holds commands, a
    move when it holds none. *)
Definition arcFirst (move : nvgCommands) (px py : float32) : PathCommand :=
  if move =? nvgLINETO then PLineTo px py else PMoveTo px py.

(** A frame of the reference instance in which the coordinate system is
    twice as large and moved by (10, 20). *)
Definition scaledContext : Context :=
  orZero
    (c <- Translate (pkg := Ref.package) (F32.of_Z 10) (F32.of_Z 20)
            (frameContext F32.one true) ;;
     Scale (pkg := Ref.package) F32.two F32.two c).




(** * Theorems *)

(** ** Lists and indices *)

Lemma len_app {X : Type} (l1 l2 : list X) : len_ (l1 ++ l2) = len_ l1 + len_ l2.
Proof. unfold len_. rewrite length_app. lia. Qed.

Lemma len_pos_cons {X : Type} (l : list X) : l <> [] -> 0 < len_ l.
Proof. destruct l; [congruence | unfold len_; cbn; lia]. Qed.

Lemma index_last {X : Type} (l : list X) (d : X) :
  l <> [] -> index l (len_ l - 1) = Some (last l d).
Proof.
  intros Hne. destruct (exists_last Hne) as [l' [a ->]].
  rewrite last_last. unfold index, len_. rewrite length_app. cbn [length].
  replace (Z.of_nat (length l' + 1) - 1) with (Z.of_nat (length l')) by lia.
  destruct (Z.ltb_spec (Z.of_nat (length l')) 0); [lia|].
  rewrite Nat2Z.id. rewrite nth_error_app2 by lia.
  now rewrite Nat.sub_diag.
Qed.

Lemma index_some_nonempty {X : Type} (l : list X) (i : Z) (v : X) :
  index l i = Some v -> l <> [].
Proof.
  unfold index. destruct (i <? 0); [discriminate|].
  destruct l; [now destruct (Z.to_nat i) | discriminate].
Qed.

Lemma firstn_pred_removelast {X : Type} (l : list X) :
  firstn (Z.to_nat (len_ l - 1)) l = removelast l.
Proof.
  rewrite removelast_firstn_len. f_equal. unfold len_. lia.
Qed.

(** ** The state stack *)

Lemma getState_nonempty (ctx : Context) :
  states ctx <> [] -> getState ctx = Some (last (states ctx) zeroState).
Proof. intros; unfold getState; now apply index_last. Qed.

Lemma getState_some_nonempty (ctx : Context) (st : nvgState) :
  getState ctx = Some st -> states ctx <> [].
Proof. unfold getState. apply index_some_nonempty. Qed.

Section StateStack.

Context {pkg : Package}.

(** C9.  [Save] leaves the context as it is when the stack has reached
    [nvgMaxStates]; below that depth it appends a copy of the top state to a
    non-empty stack, and the zero state [nvgState{}] to an empty one.  It
    never fails and touches no other field. *)
Theorem Save_pushes_copy_or_is_noop (ctx : Context) :
  (nvgMaxStates <= len_ (states ctx) -> Save ctx = ctx) /\
  (len_ (states ctx) < nvgMaxStates ->
     forall top, getState ctx = Some top ->
       Save ctx = set_states (states ctx ++ [top]) ctx) /\
  (len_ (states ctx) < nvgMaxStates -> states ctx = [] ->
     Save ctx = set_states [zeroState] ctx).
Proof.
  unfold Save. repeat split.
  - intros H. destruct (Z.leb_spec nvgMaxStates (len_ (states ctx))); [reflexivity | lia].
  - intros H top Htop.
    destruct (Z.leb_spec nvgMaxStates (len_ (states ctx))); [lia|].
    pose proof (len_pos_cons _ (getState_some_nonempty _ _ Htop)).
    destruct (Z.ltb_spec 0 (len_ (states ctx))); [|lia].
    now rewrite Htop.
  - intros H Hnil.
    destruct (Z.leb_spec nvgMaxStates (len_ (states ctx))); [lia|].
    rewrite Hnil. reflexivity.
Qed.

End StateStack.

(** [Save] at a concrete stack of one state, below the limit of the
    reference instance. *)
Lemma Save_pushes_copy_or_is_noop_witness :
  len_ (states (frameContext F32.one true)) < 32 /\
  Save (pkg := Ref.package) (frameContext F32.one true)
  = set_states [Ref.reset zeroState; Ref.reset zeroState] (frameContext F32.one true).
Proof.
  split; [vm_compute; reflexivity|].
  apply (proj1 (proj2 (Save_pushes_copy_or_is_noop (pkg := Ref.package)
                         (frameContext F32.one true)))).
  - vm_compute; reflexivity.
  - vm_compute; reflexivity.
Defined.

(** C8, as stated, at the empty stack of the zero [Context]: [Restore]
    leaves the stack empty, of depth 0 and not [max (0 - 1) 1 = 1]. *)
Lemma Restore_empty_stack_stays_empty :
  states (Restore zeroContext) = [] /\
  len_ (states (Restore zeroContext)) <> Z.max (len_ (states zeroContext) - 1) 1.
Proof. split; [reflexivity | vm_compute; discriminate]. Qed.

(** C8, amended.  On a non-empty stack [Restore] removes the top state when
    more than one state is present and changes nothing when exactly one is
    left; it never fails, the stack stays non-empty, and the depth becomes
    [max (depth - 1) 1]. *)
Theorem Restore_pops_unless_last (ctx : Context) :
  states ctx <> [] ->
  (1 < len_ (states ctx) -> Restore ctx = set_states (removelast (states ctx)) ctx) /\
  (len_ (states ctx) = 1 -> Restore ctx = ctx) /\
  states (Restore ctx) <> [] /\
  len_ (states (Restore ctx)) = Z.max (len_ (states ctx) - 1) 1.
Proof.
  intros Hne. pose proof (len_pos_cons _ Hne) as Hpos. unfold Restore.
  destruct (Z.ltb_spec 1 (len_ (states ctx))) as [Hgt | Hle].
  - rewrite firstn_pred_removelast.
    assert (Hlen : len_ (removelast (states ctx)) = len_ (states ctx) - 1).
    { destruct (exists_last Hne) as [l' [a E]]. rewrite E.
      rewrite removelast_last, len_app. unfold len_; cbn; lia. }
    split; [reflexivity|]. split; [intros; lia|]. cbn. split.
    + intros Hnil. rewrite Hnil in Hlen. unfold len_ in Hlen at 1.
      cbn in Hlen. lia.
    + rewrite Hlen. lia.
  - split; [intros; lia|]. split; [reflexivity|]. split; [assumption | lia].
Qed.

Lemma Restore_pops_unless_last_witness :
  states (Restore savedContext) = [Ref.reset zeroState] /\
  len_ (states (Restore savedContext)) = 1.
Proof.
  destruct (Restore_pops_unless_last savedContext) as [Hpop [_ [_ Hlen]]].
  - vm_compute; discriminate.
  - split.
    + rewrite Hpop by (vm_compute; reflexivity). vm_compute; reflexivity.
    + rewrite Hlen. vm_compute; reflexivity.
Defined.

(** ** Frame properties of the drawing calls *)

Lemma set_cache_same (ctx : Context) : set_cache (cache ctx) ctx = ctx.
Proof. now destruct ctx. Qed.

Lemma countFill_frame (ctx : Context) :
  cache (countFill ctx) = cache ctx /\ states (countFill ctx) = states ctx /\
  params (countFill ctx) = params ctx /\ commands (countFill ctx) = commands ctx.
Proof.
  unfold countFill. generalize (paths (cache ctx)) as l.
  intros l. revert ctx.
  induction l as [|p l IH]; intros ctx; cbn [fold_left]; [repeat split|].
  destruct (IH (set_counts (int (drawCallCount ctx + 2))
                  (int (fillTriCount ctx + (len_ (fills p) - 2)))
                  (int (strokeTriCount ctx + (len_ (strokes p) - 2))) ctx))
    as (H1 & H2 & H3 & H4).
  rewrite H1, H2, H3, H4. repeat split.
Qed.

Lemma countStroke_frame (ctx : Context) :
  cache (countStroke ctx) = cache ctx /\ states (countStroke ctx) = states ctx /\
  params (countStroke ctx) = params ctx /\ commands (countStroke ctx) = commands ctx.
Proof.
  unfold countStroke. generalize (paths (cache ctx)) as l.
  intros l. revert ctx.
  induction l as [|p l IH]; intros ctx; cbn [fold_left]; [repeat split|].
  destruct (IH (set_counts (int (drawCallCount ctx + 2)) (fillTriCount ctx)
                  (int (strokeTriCount ctx + (len_ (strokes p) - 2))) ctx))
    as (H1 & H2 & H3 & H4).
  rewrite H1, H2, H3, H4. repeat split.
Qed.

Section Flattening.

Context {pkg : Package}.

Lemma flattenPaths_cached (ctx : Context) :
  paths (cache ctx) <> [] -> flattenPaths ctx = Some ctx.
Proof.
  intros Hne. unfold flattenPaths.
  pose proof (len_pos_cons _ Hne).
  destruct (Z.ltb_spec 0 (len_ (paths (cache ctx)))); [reflexivity | lia].
Qed.

Lemma flattenPaths_inv (ctx ctx1 : Context) :
  flattenPaths ctx = Some ctx1 -> exists c, ctx1 = set_cache c ctx.
Proof.
  unfold flattenPaths.
  destruct (0 <? len_ (paths (cache ctx))).
  - intros [= <-]. exists (cache ctx). symmetry. apply set_cache_same.
  - destruct (flattenCommands _ _ _ _) as [c1|]; cbn [bind]; [|discriminate].
    destruct (flattenEach _ _ _) as [c3|]; cbn [bind]; [|discriminate].
    intros [= <-]. now exists c3.
Qed.

Lemma Fill_states (ctx ctx' : Context) :
  Fill ctx = Some ctx' -> states ctx' = states ctx.
Proof.
  unfold Fill. destruct (getState ctx) as [state|]; cbn [bind]; [|discriminate].
  destruct (flattenPaths ctx) as [ctx1|] eqn:E; cbn [bind]; [|discriminate].
  intros [= <-]. destruct (flattenPaths_inv _ _ E) as [c ->].
  match goal with |- states (countFill ?c) = _ =>
    destruct (countFill_frame c) as (_ & H & _) end.
  rewrite H. reflexivity.
Qed.

End Flattening.

(** ** Recording *)

Lemma opcode_MOVETO : F32.to_int (F32.of_Z nvgMOVETO) = nvgMOVETO.
Proof. reflexivity. Qed.
Lemma opcode_LINETO : F32.to_int (F32.of_Z nvgLINETO) = nvgLINETO.
Proof. reflexivity. Qed.
Lemma opcode_BEZIERTO : F32.to_int (F32.of_Z nvgBEZIERTO) = nvgBEZIERTO.
Proof. reflexivity. Qed.
Lemma opcode_WINDING : F32.to_int (F32.of_Z nvgWINDING) = nvgWINDING.
Proof. reflexivity. Qed.

Section Recording.

Context {pkg : Package}.

Lemma updState_commands (f : nvgState -> nvgState) (ctx ctx' : Context) :
  updState f ctx = Some ctx' -> commands ctx' = commands ctx.
Proof.
  unfold updState. destruct (getState ctx); cbn [bind]; [|discriminate].
  now intros [= <-].
Qed.

Lemma appendCommand_commands (vals : list float32) (ctx ctx' : Context)
  (state : nvgState) :
  getState ctx = Some state ->
  appendCommand vals ctx = Some ctx' ->
  exists vals', transformCommands (xform state) vals = Some vals' /\
                commands ctx' = commands ctx ++ vals'.
Proof.
  intros Hst. unfold appendCommand. rewrite Hst. cbn [bind].
  destruct (index vals 0) as [v0|]; cbn [bind]; [|discriminate].
  destruct (transformCommands (xform state) vals) as [vals'|] eqn:Ev.
  - destruct (negb (F32.to_int v0 =? nvgCLOSE) && negb (F32.to_int v0 =? nvgWINDING)).
    + destruct (index vals (len_ vals - 2)); cbn [bind]; [|discriminate].
      destruct (index vals (len_ vals - 1)); cbn [bind]; [|discriminate].
      intros [= <-]. now exists vals'.
    + cbn [bind]. intros [= <-]. now exists vals'.
  - destruct (negb (F32.to_int v0 =? nvgCLOSE) && negb (F32.to_int v0 =? nvgWINDING)).
    + destruct (index vals (len_ vals - 2)); cbn [bind]; [|discriminate].
      destruct (index vals (len_ vals - 1)); cbn [bind]; discriminate.
    + cbn [bind]. discriminate.
Qed.

Lemma MoveTo_records (ctx : Context) (state : nvgState) (px py : float32) :
  getState ctx = Some state ->
  MoveTo px py ctx
  = Some (set_commands
            (commands ctx ++
               [F32.of_Z nvgMOVETO; fst (TransformPoint (xform state) px py);
                snd (TransformPoint (xform state) px py)])
            (set_commandXY px py ctx)).
Proof.
  intros Hst. unfold MoveTo, appendCommand. rewrite Hst. cbn [bind].
  change (index [F32.of_Z nvgMOVETO; px; py] 0) with (Some (F32.of_Z nvgMOVETO)).
  cbn [bind]. rewrite opcode_MOVETO.
  change (index [F32.of_Z nvgMOVETO; px; py] (len_ [F32.of_Z nvgMOVETO; px; py] - 2))
    with (Some px).
  change (index [F32.of_Z nvgMOVETO; px; py] (len_ [F32.of_Z nvgMOVETO; px; py] - 1))
    with (Some py).
  cbn [transformCommands]. rewrite opcode_MOVETO.
  destruct (TransformPoint (xform state) px py) as [tx ty]. reflexivity.
Qed.

Lemma LineTo_records (ctx : Context) (state : nvgState) (px py : float32) :
  getState ctx = Some state ->
  LineTo px py ctx
  = Some (set_commands
            (commands ctx ++
               [F32.of_Z nvgLINETO; fst (TransformPoint (xform state) px py);
                snd (TransformPoint (xform state) px py)])
            (set_commandXY px py ctx)).
Proof.
  intros Hst. unfold LineTo, appendCommand. rewrite Hst. cbn [bind].
  change (index [F32.of_Z nvgLINETO; px; py] 0) with (Some (F32.of_Z nvgLINETO)).
  cbn [bind]. rewrite opcode_LINETO.
  change (index [F32.of_Z nvgLINETO; px; py] (len_ [F32.of_Z nvgLINETO; px; py] - 2))
    with (Some px).
  change (index [F32.of_Z nvgLINETO; px; py] (len_ [F32.of_Z nvgLINETO; px; py] - 1))
    with (Some py).
  cbn [transformCommands]. rewrite opcode_LINETO.
  destruct (TransformPoint (xform state) px py) as [tx ty]. reflexivity.
Qed.

Lemma BezierTo_records (ctx : Context) (state : nvgState)
  (c1x c1y c2x c2y px py : float32) :
  getState ctx = Some state ->
  BezierTo c1x c1y c2x c2y px py ctx
  = Some (set_commands
            (commands ctx ++
               [F32.of_Z nvgBEZIERTO;
                fst (TransformPoint (xform state) c1x c1y);
                snd (TransformPoint (xform state) c1x c1y);
                fst (TransformPoint (xform state) c2x c2y);
                snd (TransformPoint (xform state) c2x c2y);
                fst (TransformPoint (xform state) px py);
                snd (TransformPoint (xform state) px py)])
            (set_commandXY px py ctx)).
Proof.
  intros Hst. unfold BezierTo, appendCommand. rewrite Hst. cbn [bind].
  change (index [F32.of_Z nvgBEZIERTO; c1x; c1y; c2x; c2y; px; py] 0)
    with (Some (F32.of_Z nvgBEZIERTO)).
  cbn [bind]. rewrite opcode_BEZIERTO.
  change (index [F32.of_Z nvgBEZIERTO; c1x; c1y; c2x; c2y; px; py]
            (len_ [F32.of_Z nvgBEZIERTO; c1x; c1y; c2x; c2y; px; py] - 2))
    with (Some px).
  change (index [F32.of_Z nvgBEZIERTO; c1x; c1y; c2x; c2y; px; py]
            (len_ [F32.of_Z nvgBEZIERTO; c1x; c1y; c2x; c2y; px; py] - 1))
    with (Some py).
  cbn [transformCommands]. rewrite opcode_BEZIERTO.
  destruct (TransformPoint (xform state) c1x c1y) as [t1x t1y].
  destruct (TransformPoint (xform state) c2x c2y) as [t2x t2y].
  destruct (TransformPoint (xform state) px py) as [tx ty]. reflexivity.
Qed.

Lemma ClosePath_records (ctx : Context) (state : nvgState) :
  getState ctx = Some state ->
  ClosePath ctx = Some (set_commands (commands ctx ++ [F32.of_Z nvgCLOSE]) ctx).
Proof.
  intros Hst. unfold ClosePath, appendCommand. rewrite Hst. reflexivity.
Qed.

Lemma PathWinding_records (ctx : Context) (state : nvgState) (w : Winding) :
  getState ctx = Some state ->
  PathWinding w ctx
  = Some (set_commands (commands ctx ++ [F32.of_Z nvgWINDING; F32.of_Z w]) ctx).
Proof.
  intros Hst. unfold PathWinding, appendCommand. rewrite Hst. cbn [bind].
  change (index [F32.of_Z nvgWINDING; F32.of_Z w] 0)
    with (Some (F32.of_Z nvgWINDING)).
  cbn [bind]. rewrite opcode_WINDING. reflexivity.
Qed.

End Recording.

(** ** Degenerate corners of [ArcTo] *)

Section ArcToDegenerate.

Context {pkg : Package}.

(** C6.  On a non-empty command buffer, when the current point coincides
    with [(x1, y1)], or [(x1, y1)] with [(x2, y2)], or [(x1, y1)] lies within
    the distance tolerance of the segment between the other two points, or
    the radius is below the distance tolerance, or the tangent distance
    exceeds 10000, [ArcTo] is [LineTo x1 y1]: it appends one [nvgLINETO] with
    the transformed point and nothing else, and does not panic. *)
Theorem ArcTo_degenerate_is_LineTo (fuel : nat) (ctx : Context)
  (state : nvgState) (x1 y1 x2 y2 radius_ : float32) :
  commands ctx <> [] ->
  getState ctx = Some state ->
  ptEquals (commandX ctx) (commandY ctx) x1 y1 (distTol ctx) = true \/
  ptEquals x1 y1 x2 y2 (distTol ctx) = true \/
  (distPtSeg x1 y1 (commandX ctx) (commandY ctx) x2 y2
     <? distTol ctx * distTol ctx)%f32 = true \/
  (radius_ <? distTol ctx)%f32 = true \/
  (F32.of_Z 10000 <? arcToTangentDistance ctx x1 y1 x2 y2 radius_)%f32 = true ->
  ArcTo fuel x1 y1 x2 y2 radius_ ctx = LineTo x1 y1 ctx /\
  LineTo x1 y1 ctx
  = Some (set_commands
            (commands ctx ++
               [F32.of_Z nvgLINETO;
                fst (TransformPoint (xform state) x1 y1);
                snd (TransformPoint (xform state) x1 y1)])
            (set_commandXY x1 y1 ctx)).
Proof.
  intros Hne Hst Hdeg. split; [|now apply LineTo_records].
  unfold ArcTo. pose proof (len_pos_cons _ Hne) as Hpos.
  destruct (Z.eqb_spec (len_ (commands ctx)) 0) as [E | _]; [lia|].
  destruct (arcToDegenerate ctx x1 y1 x2 y2 radius_) eqn:Ed; [reflexivity|].
  unfold arcToDegenerate in Ed.
  repeat (apply orb_false_iff in Ed; destruct Ed as [Ed ?]).
  destruct Hdeg as [G1 | [G2 | [G3 | [G4 | G5]]]]; try congruence.
  destruct (arcToLegs ctx x1 y1 x2 y2) as [[[dx0 dy0] dx1] dy1].
  now rewrite G5.
Qed.

End ArcToDegenerate.

(** ** Strokes of a single point *)

Lemma store_length {X : Type} (l : list X) (i : nat) (v : X) :
  length (store l i v) = length l.
Proof.
  revert i; induction l as [|h t IH]; intros [|i]; cbn; auto.
Qed.

Lemma store_same {X : Type} (l : list X) (i : nat) (v w : X) :
  nth_error l i = Some w -> nth_error (store l i v) i = Some v.
Proof.
  revert i; induction l as [|h t IH]; intros [|i]; cbn; try discriminate; auto.
Qed.

Lemma store_other {X : Type} (l : list X) (i k : nat) (v : X) :
  k <> i -> nth_error (store l i v) k = nth_error l k.
Proof.
  revert i k; induction l as [|h t IH]; intros [|i] [|k] Hk; cbn; auto.
  congruence.
Qed.

Lemma index_nonneg {X : Type} (l : list X) (i : Z) (v : X) :
  index l i = Some v -> 0 <= i < len_ l.
Proof.
  unfold index, len_. destruct (Z.ltb_spec i 0); [discriminate|].
  intros Hn. assert (Hlt : (Z.to_nat i < length l)%nat).
  { apply nth_error_Some. congruence. }
  lia.
Qed.

Section SinglePoint.

Context {pkg : Package}.

Lemma flattenPath_paths (d : float32) (c c' : nvgPathCache) (j : nat) :
  flattenPath d c j = Some c' ->
  length (paths c') = length (paths c) /\
  (exists p, nth_error (paths c') j = Some p /\ 1 <= count p) /\
  (forall k, k <> j -> nth_error (paths c') k = nth_error (paths c) k).
Proof.
  unfold flattenPath.
  destruct (nth_error (paths c) j) as [path|] eqn:Ej; cbn [bind]; [|discriminate].
  destruct ((first path <? 0) || (len_ (points c) <? first path)); [discriminate|].
  destruct (index _ (count path - 1)) as [p0|] eqn:E0; cbn [bind]; [|discriminate].
  destruct (index _ 0) as [p1|]; cbn [bind]; [|discriminate].
  destruct (dirSteps _ _) as [st|]; cbn [bind]; [|discriminate].
  intros [= <-]. cbn [paths]. apply index_nonneg in E0.
  split; [apply store_length|]. split.
  - eexists. split; [eapply store_same; exact Ej|].
    destruct (ptEquals _ _ _ _ _ && (2 <? count path)) eqn:Ec.
    + apply andb_true_iff in Ec. destruct Ec as [_ Ec].
      apply Z.ltb_lt in Ec. cbn. lia.
    + lia.
  - intros k Hk. now apply store_other.
Qed.

Lemma flattenEach_paths (d : float32) (js : list nat) :
  forall c c', flattenEach d js c = Some c' ->
  length (paths c') = length (paths c) /\
  (forall j, In j js -> exists p, nth_error (paths c') j = Some p /\ 1 <= count p) /\
  (forall k, ~ In k js -> nth_error (paths c') k = nth_error (paths c) k).
Proof.
  induction js as [|j js IH]; intros c c'; cbn [flattenEach].
  - intros [= <-]. split; [reflexivity|]. split; [intros j []|reflexivity].
  - destruct (flattenPath d c j) as [c1|] eqn:E1; cbn [bind]; [|discriminate].
    intros E. destruct (IH _ _ E) as (Hl & Hin & Hout).
    destruct (flattenPath_paths _ _ _ _ E1) as (Hl1 & Hj & Hk).
    split; [congruence|]. split.
    + intros i Hi. destruct (in_dec Nat.eq_dec i js) as [Hjs | Hjs].
      * now apply Hin.
      * destruct Hi as [<- | Hi]; [|contradiction].
        rewrite (Hout _ Hjs). exact Hj.
    + intros k Hk'. rewrite (Hout k) by (intros Hc; apply Hk'; now right).
      apply Hk. intros ->. apply Hk'. now left.
Qed.

Lemma flattenPaths_fresh_counts (ctx ctx1 : Context) :
  paths (cache ctx) = [] ->
  flattenPaths ctx = Some ctx1 ->
  forall p, In p (paths (cache ctx1)) -> 1 <= count p.
Proof.
  intros Hnil. unfold flattenPaths. rewrite Hnil. cbn [len_ length Z.of_nat Z.ltb Z.compare].
  destruct (flattenCommands _ _ _ _) as [c1|]; cbn [bind]; [|discriminate].
  destruct (flattenEach _ _ _) as [c3|] eqn:E3; cbn [bind]; [|discriminate].
  intros [= <-] p Hp. cbn [cache set_cache] in Hp.
  destruct (flattenEach_paths _ _ _ _ E3) as (Hl & Hin & _).
  destruct (In_nth_error _ _ Hp) as [k Hk].
  assert (Hlt : (k < length (paths c3))%nat) by (apply nth_error_Some; congruence).
  destruct (Hin k) as (p' & Hp' & Hc).
  { apply in_seq. lia. }
  rewrite Hk in Hp'. now injection Hp' as <-.
Qed.

(** C7.  When, after flattening, some path of the cache has exactly one
    point, [Stroke] panics: nothing is expanded and nothing reaches the
    renderer.  After a flattening that started from an empty cache every path
    has at least one point, so there a path with fewer than two points makes
    [Stroke] panic. *)
Theorem Stroke_rejects_single_point_path (ctx ctx1 : Context) :
  flattenPaths ctx = Some ctx1 ->
  ((exists p, In p (paths (cache ctx1)) /\ count p = 1) -> Stroke ctx = None) /\
  (paths (cache ctx) = [] ->
   (exists p, In p (paths (cache ctx1)) /\ count p < 2) -> Stroke ctx = None).
Proof.
  intros Hflat.
  assert (H1 : (exists p, In p (paths (cache ctx1)) /\ count p = 1) ->
               Stroke ctx = None).
  { intros (p & Hin & Hc). unfold Stroke.
    destruct (getState ctx) as [state|]; cbn [bind]; [|reflexivity].
    destruct (strokeCoverage (fringeWidth ctx) state) as [paint w].
    rewrite Hflat. cbn [bind].
    assert (He : existsb (fun path => count path =? 1) (paths (cache ctx1)) = true).
    { apply existsb_exists. exists p. split; [exact Hin | now apply Z.eqb_eq]. }
    now rewrite He. }
  split; [exact H1|].
  intros Hnil (p & Hin & Hc). apply H1. exists p. split; [exact Hin|].
  pose proof (flattenPaths_fresh_counts _ _ Hnil Hflat p Hin). lia.
Qed.

End SinglePoint.

(** ** binary32 quotients of a smaller by a larger number *)

Lemma digits2_pos_bounds (m : positive) :
  2 ^ (Zpos (digits2_pos m) - 1) <= Zpos m < 2 ^ Zpos (digits2_pos m).
Proof.
  induction m as [m IH | m IH |]; cbn [digits2_pos].
  - rewrite Pos2Z.inj_succ.
    replace (Z.succ (Zpos (digits2_pos m)) - 1) with (Zpos (digits2_pos m) - 1 + 1) by lia.
    rewrite Z.pow_succ_r by lia. rewrite Z.pow_add_r by lia.
    change (2 ^ 1) with 2. lia.
  - rewrite Pos2Z.inj_succ.
    replace (Z.succ (Zpos (digits2_pos m)) - 1) with (Zpos (digits2_pos m) - 1 + 1) by lia.
    rewrite Z.pow_succ_r by lia. rewrite Z.pow_add_r by lia.
    change (2 ^ 1) with 2. lia.
  - cbn. lia.
Qed.

Lemma Zdigits2_le (z k : Z) : 0 <= k -> 0 <= z < 2 ^ k -> Zdigits2 z <= k.
Proof.
  intros Hk [Hz Hlt]. destruct z as [|m|m]; cbn [Zdigits2]; [lia| |lia].
  pose proof (digits2_pos_bounds m) as [Hlo _].
  destruct (Z_le_gt_dec (Zpos (digits2_pos m)) k) as [|Hgt]; [assumption|].
  assert (2 ^ k <= 2 ^ (Zpos (digits2_pos m) - 1)) by (apply Z.pow_le_mono_r; lia).
  lia.
Qed.

Lemma Zdigits2_pow2 (n : Z) : 0 <= n -> Zdigits2 (2 ^ n) = n + 1.
Proof.
  intros Hn. assert (Hpos : 0 < 2 ^ n) by (apply Z.pow_pos_nonneg; lia).
  destruct (2 ^ n) as [|m|m] eqn:E; try lia. cbn [Zdigits2].
  pose proof (digits2_pos_bounds m) as [Hlo Hhi]. rewrite <- E in Hlo, Hhi.
  apply Z.pow_le_mono_r_iff in Hlo; [|lia|lia].
  apply Z.pow_lt_mono_r_iff in Hhi; [|lia|lia]. lia.
Qed.

Lemma shr_1_m (mrs : shr_record) :
  0 <= shr_m mrs -> shr_m (shr_1 mrs) = shr_m mrs / 2.
Proof.
  destruct mrs as [m r s]. cbn [shr_m]. intros Hm. unfold shr_1.
  destruct m as [|[p|p|]|p]; cbn [shr_m]; try lia.
  - reflexivity.
  - rewrite Pos2Z.inj_xI. apply Z.div_unique with (r := 1); lia.
  - rewrite Pos2Z.inj_xO. apply Z.div_unique with (r := 0); lia.
  - reflexivity.
Qed.

Lemma iter_shr_1_m (p : positive) :
  forall mrs, 0 <= shr_m mrs ->
    shr_m (iter_pos shr_1 p mrs) = shr_m mrs / 2 ^ Zpos p.
Proof.
  assert (Hnn : forall mrs, 0 <= shr_m mrs -> 0 <= shr_m (shr_1 mrs)).
  { intros mrs H. rewrite shr_1_m by exact H. apply Z.div_pos; lia. }
  induction p as [p IH | p IH |]; intros mrs Hm; cbn [iter_pos].
  - assert (Hp : 0 < 2 ^ Zpos p) by (apply Z.pow_pos_nonneg; lia).
    assert (H1 : 0 <= shr_m (shr_1 mrs)) by now apply Hnn.
    assert (H2 : 0 <= shr_m (iter_pos shr_1 p (shr_1 mrs))).
    { rewrite IH by exact H1. apply Z.div_pos; [exact H1 | exact Hp]. }
    rewrite IH by exact H2. rewrite IH by exact H1. rewrite shr_1_m by exact Hm.
    rewrite !Z.div_div by lia.
    f_equal.
    replace (Zpos p~1) with (1 + Zpos p + Zpos p) by lia.
    rewrite !Z.pow_add_r by lia. change (2 ^ 1) with 2. lia.
  - assert (Hp : 0 < 2 ^ Zpos p) by (apply Z.pow_pos_nonneg; lia).
    assert (H2 : 0 <= shr_m (iter_pos shr_1 p mrs)).
    { rewrite IH by exact Hm. apply Z.div_pos; [exact Hm | exact Hp]. }
    rewrite IH by exact H2. rewrite IH by exact Hm.
    rewrite Z.div_div by lia.
    f_equal.
    replace (Zpos p~0) with (Zpos p + Zpos p) by lia.
    rewrite Z.pow_add_r by lia. reflexivity.
  - rewrite shr_1_m by exact Hm. reflexivity.
Qed.

Lemma fexp32_eq (e : Z) : fexp F32.prec F32.emax e = F32.fexp e.
Proof. reflexivity. Qed.

Lemma shr_record_of_loc_m (m : Z) (l : location) :
  shr_m (shr_record_of_loc m l) = m.
Proof. destruct l as [|[| |]]; reflexivity. Qed.

(** Shifting a mantissa whose value is below 1 to its exponent: the value
    stays below 1 and the exponent at most -24. *)
Lemma shr_fexp_below_one (m e : Z) (l : location) :
  0 <= m < 2 ^ (- e) -> e <= -24 ->
  exists mrs e',
    shr_fexp F32.prec F32.emax m e l = (mrs, e') /\
    0 <= shr_m mrs < 2 ^ (- e') /\ e' <= -24.
Proof.
  intros Hm He. unfold shr_fexp. rewrite fexp32_eq.
  assert (Hd : Zdigits2 m <= - e) by (apply Zdigits2_le; lia).
  unfold shr.
  destruct (F32.fexp (Zdigits2 m + e) - e) as [|p|p] eqn:Ek.
  - do 2 eexists. split; [reflexivity|]. rewrite shr_record_of_loc_m. lia.
  - do 2 eexists. split; [reflexivity|].
    rewrite iter_shr_1_m by (rewrite shr_record_of_loc_m; lia).
    rewrite shr_record_of_loc_m.
    assert (Hp : 0 < 2 ^ Zpos p) by (apply Z.pow_pos_nonneg; lia).
    assert (He' : e + Zpos p <= -24) by (unfold F32.fexp in Ek; lia).
    split; [|exact He']. split; [apply Z.div_pos; lia|].
    apply Z.div_lt_upper_bound; [exact Hp|].
    rewrite <- Z.pow_add_r by lia.
    now replace (Zpos p + - (e + Zpos p)) with (- e) by lia.
  - do 2 eexists. split; [reflexivity|]. rewrite shr_record_of_loc_m. lia.
Qed.

(** Shifting the mantissa of the value 1 gives the mantissa [2^23] at the
    exponent -23. *)
Lemma shr_fexp_one (e : Z) :
  e <= -24 ->
  exists mrs,
    shr_fexp F32.prec F32.emax (2 ^ (- e)) e loc_Exact = (mrs, -23) /\
    shr_m mrs = 2 ^ 23.
Proof.
  intros He. unfold shr_fexp. rewrite fexp32_eq.
  rewrite Zdigits2_pow2 by lia.
  replace (- e + 1 + e) with 1 by lia. change (F32.fexp 1) with (-23).
  unfold shr. destruct (-23 - e) as [|p|p] eqn:Ek; try lia.
  eexists. split; [f_equal; lia|].
  rewrite iter_shr_1_m by (cbn [shr_record_of_loc shr_m]; apply Z.pow_nonneg; lia).
  cbn [shr_record_of_loc shr_m].
  replace (- e) with (23 + Zpos p) by lia.
  rewrite Z.pow_add_r by lia. apply Z.div_mul.
  apply Z.pow_nonzero; lia.
Qed.

Lemma round_nearest_even_cases (m : Z) (l : location) :
  round_nearest_even m l = m \/ round_nearest_even m l = m + 1.
Proof.
  destruct l as [|[| |]]; cbn [round_nearest_even]; auto.
  destruct (Z.even m); auto.
Qed.

(** Rounding a non-negative value below 1 gives a binary32 that is neither
    below 0 nor above 1. *)
Lemma binary_round_below_one (q ez : Z) (l : location) :
  0 <= q < 2 ^ (- ez) -> ez <= -24 ->
  (binary_round_aux F32.prec F32.emax false q ez l <? F32.zero)%f32 = false /\
  (F32.one <? binary_round_aux F32.prec F32.emax false q ez l)%f32 = false.
Proof.
  intros Hq Hez. unfold binary_round_aux.
  destruct (shr_fexp_below_one q ez l Hq Hez) as (mrs & e' & -> & Hm & He').
  set (m1 := round_nearest_even (shr_m mrs) (loc_of_shr_record mrs)).
  assert (Hm1 : 0 <= m1 < 2 ^ (- e') \/ m1 = 2 ^ (- e')).
  { unfold m1. destruct (round_nearest_even_cases (shr_m mrs) (loc_of_shr_record mrs))
      as [-> | ->]; lia. }
  destruct Hm1 as [Hm1 | Hm1].
  - destruct (shr_fexp_below_one m1 e' loc_Exact Hm1 He') as (mrs2 & e2 & -> & Hm2 & He2).
    destruct (shr_m mrs2) as [|m|m] eqn:Em.
    + split; reflexivity.
    + destruct (Z.leb_spec e2 (F32.emax - F32.prec)) as [_|Hgt].
      * split; [reflexivity|].
        unfold F32.ltb, SFltb, F32.one. cbn [F32.of_Z binary_normalize].
        change (binary_round F32.prec F32.emax false 1 0)
          with (S754_finite false 8388608 (-23)).
        cbn [SFcompare]. destruct (Z.compare_spec (-23) e2) as [H|H|H];
          [lia | lia | reflexivity].
      * unfold F32.emax, F32.prec in Hgt. lia.
    + lia.
  - rewrite Hm1. destruct (shr_fexp_one e' He') as (mrs2 & -> & Hm2).
    rewrite Hm2. change (2 ^ 23) with 8388608. split; reflexivity.
Qed.

Lemma bounded_facts (m : positive) (e : Z) :
  bounded F32.prec F32.emax m e = true ->
  -149 <= e /\ Zpos (digits2_pos m) <= 24 /\
  (-149 < e -> Zpos (digits2_pos m) = 24).
Proof.
  unfold bounded, canonical_mantissa. rewrite fexp32_eq. unfold F32.fexp.
  intros H. apply andb_true_iff in H. destruct H as [H _].
  apply Z.eqb_eq in H. lia.
Qed.

(** The order of two positive binary32 numbers, on integers. *)
Lemma ltb_finite_values (mw mf : positive) (ew ef : Z) :
  bounded F32.prec F32.emax mw ew = true ->
  bounded F32.prec F32.emax mf ef = true ->
  (S754_finite false mw ew <? S754_finite false mf ef)%f32 = true ->
  Zpos mw * 2 ^ (ew + 149) < Zpos mf * 2 ^ (ef + 149) /\
  Zpos (digits2_pos mw) + ew <= Zpos (digits2_pos mf) + ef.
Proof.
  intros Hw Hf Hlt.
  destruct (bounded_facts _ _ Hw) as (Hew & Hdw & _).
  destruct (bounded_facts _ _ Hf) as (Hef & Hdf & Hdf24).
  pose proof (digits2_pos_bounds mw) as [Hwlo Hwhi].
  pose proof (digits2_pos_bounds mf) as [Hflo Hfhi].
  unfold F32.ltb, SFltb in Hlt. cbn [SFcompare] in Hlt.
  destruct (Z.compare_spec ew ef) as [Heq | Hlt' | Hgt]; [| |discriminate].
  - subst ef.
    assert (Hm : (mw < mf)%positive).
    { destruct (Pos.compare_cont Eq mw mf) eqn:Ec; try discriminate Hlt.
      apply Pos.compare_lt_iff. exact Ec. }
    assert (Hp : 0 < 2 ^ (ew + 149)) by (apply Z.pow_pos_nonneg; lia).
    split; [apply Z.mul_lt_mono_pos_r; [exact Hp | lia]|].
    assert (Hd : 2 ^ (Zpos (digits2_pos mw) - 1) < 2 ^ Zpos (digits2_pos mf)) by lia.
    apply Z.pow_lt_mono_r_iff in Hd; lia.
  - specialize (Hdf24 ltac:(lia)). rewrite Hdf24 in Hflo.
    change (2 ^ (24 - 1)) with 8388608 in Hflo.
    assert (Hw24 : Zpos mw < 16777216).
    { assert (2 ^ Zpos (digits2_pos mw) <= 2 ^ 24) by (apply Z.pow_le_mono_r; lia).
      change (2 ^ 24) with 16777216 in *. lia. }
    split; [|lia].
    assert (Hp : 0 < 2 ^ (ew + 149)) by (apply Z.pow_pos_nonneg; lia).
    assert (Hpe : 2 * 2 ^ (ew + 149) <= 2 ^ (ef + 149)).
    { rewrite <- Z.pow_succ_r by lia. apply Z.pow_le_mono_r; lia. }
    nia.
Qed.

(** The integer quotient [SFdiv] starts from, for a smaller number divided
    by a larger one: its value is below 1. *)
Lemma SFdiv_core_below_one (mw mf : positive) (ew ef : Z) :
  bounded F32.prec F32.emax mw ew = true ->
  bounded F32.prec F32.emax mf ef = true ->
  (S754_finite false mw ew <? S754_finite false mf ef)%f32 = true ->
  exists q ez l,
    SFdiv_core_binary F32.prec F32.emax (Zpos mw) ew (Zpos mf) ef = (q, ez, l) /\
    0 <= q < 2 ^ (- ez) /\ ez <= -24.
Proof.
  intros Hw Hf Hlt.
  destruct (ltb_finite_values _ _ _ _ Hw Hf Hlt) as [Hval Hdig].
  destruct (bounded_facts _ _ Hw) as (Hew & _ & _).
  destruct (bounded_facts _ _ Hf) as (Hef & _ & _).
  unfold SFdiv_core_binary. rewrite fexp32_eq. cbn [Zdigits2].
  set (ez := Z.min (F32.fexp (Zpos (digits2_pos mw) + ew - (Zpos (digits2_pos mf) + ef)))
               (ew - ef)).
  assert (Hez : ez <= -24) by (unfold ez, F32.fexp; lia).
  assert (Hs : 0 <= ew - ef - ez) by (unfold ez; lia).
  set (m' := match ew - ef - ez with
             | 0 => Zpos mw
             | Zpos _ => Z.shiftl (Zpos mw) (ew - ef - ez)
             | Zneg _ => 0
             end).
  assert (Hm' : m' = Zpos mw * 2 ^ (ew - ef - ez)).
  { unfold m'. destruct (ew - ef - ez) as [|p|p] eqn:Es; [cbn; lia | | lia].
    apply Z.shiftl_mul_pow2. lia. }
  destruct (Z.div_eucl m' (Zpos mf)) as [q r] eqn:Ediv.
  assert (Hq : q = m' / Zpos mf) by (unfold Z.div; now rewrite Ediv).
  do 3 eexists. split; [reflexivity|]. split; [|exact Hez].
  rewrite Hq. split.
  - apply Z.div_pos; [|lia]. rewrite Hm'.
    apply Z.mul_nonneg_nonneg; [lia|]. apply Z.pow_nonneg; lia.
  - apply Z.div_lt_upper_bound; [lia|]. rewrite Hm'.
    assert (Hpf : 0 < 2 ^ (ef + 149)) by (apply Z.pow_pos_nonneg; lia).
    apply (Z.mul_lt_mono_pos_r (2 ^ (ef + 149))); [exact Hpf|].
    rewrite <- Z.mul_assoc, <- Z.pow_add_r by lia.
    replace (ew - ef - ez + (ef + 149)) with (ew + 149 + - ez) by lia.
    rewrite Z.pow_add_r by lia.
    assert (Hpz : 0 < 2 ^ (- ez)) by (apply Z.pow_pos_nonneg; lia).
    nia.
Qed.

(** The binary32 quotient of a non-negative number by a larger one is
    neither below 0 nor above 1. *)
Theorem div_of_smaller_in_unit (w f : float32) :
  valid_binary F32.prec F32.emax w = true ->
  valid_binary F32.prec F32.emax f = true ->
  (w <? F32.zero)%f32 = false ->
  (w <? f)%f32 = true ->
  (w / f <? F32.zero)%f32 = false /\ (F32.one <? w / f)%f32 = false.
Proof.
  intros Hw Hf Hw0 Hlt.
  destruct w as [[|] | [|] | | [|] mw ew]; try discriminate Hw0;
    try discriminate Hlt;
    destruct f as [[|] | [|] | | [|] mf ef]; try discriminate Hlt;
    try (split; reflexivity).
  cbn [valid_binary] in Hw, Hf.
  destruct (SFdiv_core_below_one _ _ _ _ Hw Hf Hlt) as (q & ez & l & Hcore & Hq & Hez).
  unfold F32.div, SFdiv. rewrite Hcore. cbn [xorb].
  now apply binary_round_below_one.
Qed.

(** ** The loops of [Arc] *)

Lemma binary_round_aux_sign (s : bool) (m e : Z) (l : location) :
  forall r, r = binary_round_aux F32.prec F32.emax s m e l ->
  r = S754_nan \/ r = S754_zero s \/ r = S754_infinity s \/
  exists m' e', r = S754_finite s m' e'.
Proof.
  intros r ->. unfold binary_round_aux.
  destruct (shr_fexp _ _ m e l) as [mrs' e'].
  destruct (shr_fexp _ _ _ e' loc_Exact) as [mrs'' e''].
  destruct (shr_m mrs'') as [|p|p]; auto.
  destruct (e'' <=? F32.emax - F32.prec); eauto 6.
Qed.

Lemma binary_normalize_pos (z e : Z) :
  0 <= z -> (binary_normalize F32.prec F32.emax z e false <? F32.zero)%f32 = false.
Proof.
  intros Hz. destruct z as [|p|p]; [reflexivity | | lia].
  cbn [binary_normalize]. unfold binary_round.
  destruct (shl_align _ _ _) as [mz ez].
  destruct (binary_round_aux_sign false (Zpos mz) ez loc_Exact _ eq_refl)
    as [-> | [-> | [-> | (m' & e' & ->)]]]; reflexivity.
Qed.

Lemma binary_normalize_neg (z e : Z) :
  z <= 0 -> (F32.zero <? binary_normalize F32.prec F32.emax z e false)%f32 = false.
Proof.
  intros Hz. destruct z as [|p|p]; [reflexivity | lia |].
  cbn [binary_normalize]. unfold binary_round.
  destruct (shl_align _ _ _) as [mz ez].
  destruct (binary_round_aux_sign true (Zpos mz) ez loc_Exact _ eq_refl)
    as [-> | [-> | [-> | (m' & e' & ->)]]]; reflexivity.
Qed.

Lemma shl_align_value (m : positive) (e e' : Z) :
  e' <= e -> Zpos (fst (shl_align m e e')) = Zpos m * 2 ^ (e - e').
Proof.
  intros H. unfold shl_align.
  destruct (e' - e) as [|p|p] eqn:E; try lia.
  - replace (e - e') with 0 by lia. cbn [fst]. lia.
  - cbn [fst]. replace (e - e') with (Zpos p) by lia.
    rewrite Pos.iter_swap_gen with (f := Zpos) (h := Z.mul 2) by reflexivity.
    rewrite <- Z.pow_pos_fold. unfold Z.pow_pos.
    clear. revert m. induction p using Pos.peano_ind; intros m.
    + cbn. lia.
    + rewrite !Pos.iter_succ. rewrite IHp. lia.
Qed.

Lemma below_turn_cases (m : positive) (e : Z) :
  bounded F32.prec F32.emax m e = true ->
  (PI_2 <=? S754_finite false m e)%f32 = false ->
  Zpos m < 16777216 /\ (e < -21 \/ e = -21 /\ Zpos m < 13176795).
Proof.
  intros Hb Hle.
  destruct (bounded_facts _ _ Hb) as (_ & Hd & _).
  pose proof (digits2_pos_bounds m) as [_ Hhi].
  assert (H24 : 2 ^ Zpos (digits2_pos m) <= 2 ^ 24) by (apply Z.pow_le_mono_r; lia).
  change (2 ^ 24) with 16777216 in H24. split; [lia|].
  unfold F32.leb, SFleb, PI_2 in Hle. cbn [SFcompare] in Hle.
  destruct (Z.compare_spec (-21) e) as [He | He | He]; [| discriminate | left; lia].
  right. split; [lia|].
  destruct (Pos.compare_cont Eq 13176795 m) eqn:Ec; try discriminate Hle.
  apply Pos.compare_gt_iff in Ec. lia.
Qed.

(** Below one turn, one pass through either loop is enough. *)
Lemma add_turn_nonneg (da : float32) :
  valid_binary F32.prec F32.emax da = true ->
  (PI_2 <=? absF da)%f32 = false -> (da <? F32.zero)%f32 = true ->
  (da + PI_2 <? F32.zero)%f32 = false.
Proof.
  intros Hv Hle Hneg.
  destruct da as [[|] | [|] | | [|] m e]; try discriminate Hneg; try discriminate Hle.
  cbn [valid_binary] in Hv. cbn [absF SFabs] in Hle.
  destruct (below_turn_cases m e Hv Hle) as [H24 He].
  unfold F32.add, SFadd, PI_2. apply binary_normalize_pos.
  rewrite !shl_align_value by lia. cbn [cond_Zopp].
  destruct He as [He | [-> Hm]].
  - replace (Z.min e (-21)) with e by lia. rewrite Z.sub_diag. change (2 ^ 0) with 1.
    assert (2 ^ 1 <= 2 ^ (-21 - e)) by (apply Z.pow_le_mono_r; lia).
    change (2 ^ 1) with 2 in *.
    generalize dependent (2 ^ (-21 - e)). intros X HX. lia.
  - change (Z.min (-21) (-21)) with (-21). change (-21 - -21) with 0.
    change (2 ^ 0) with 1. lia.
Qed.

Lemma sub_turn_nonpos (da : float32) :
  valid_binary F32.prec F32.emax da = true ->
  (PI_2 <=? absF da)%f32 = false -> (F32.zero <? da)%f32 = true ->
  (F32.zero <? da - PI_2)%f32 = false.
Proof.
  intros Hv Hle Hpos.
  destruct da as [[|] | [|] | | [|] m e]; try discriminate Hpos; try discriminate Hle.
  cbn [valid_binary] in Hv. cbn [absF SFabs] in Hle.
  destruct (below_turn_cases m e Hv Hle) as [H24 He].
  unfold F32.sub, SFsub, PI_2. apply binary_normalize_neg.
  rewrite !shl_align_value by lia. cbn [cond_Zopp].
  destruct He as [He | [-> Hm]].
  - replace (Z.min e (-21)) with e by lia. rewrite Z.sub_diag. change (2 ^ 0) with 1.
    assert (2 ^ 1 <= 2 ^ (-21 - e)) by (apply Z.pow_le_mono_r; lia).
    change (2 ^ 1) with 2 in *.
    generalize dependent (2 ^ (-21 - e)). intros X HX. lia.
  - change (Z.min (-21) (-21)) with (-21). change (-21 - -21) with 0.
    change (2 ^ 0) with 1. lia.
Qed.

(** [arcSweep] returns: whatever the angles, their difference being a
    binary32 number, one unit of fuel is enough. *)
Lemma arcSweep_returns (fuel : nat) (a0 a1 : float32) (dir : Direction) :
  valid_binary F32.prec F32.emax (a1 - a0)%f32 = true ->
  exists da, arcSweep (S fuel) a0 a1 dir = Some da.
Proof.
  intros Hv. unfold arcSweep. destruct (dir =? Clockwise).
  - destruct (PI_2 <=? absF (a1 - a0))%f32 eqn:Hle; [eauto|].
    cbn [addTurns]. destruct (a1 - a0 <? F32.zero)%f32 eqn:Hneg; [|eauto].
    pose proof (add_turn_nonneg _ Hv Hle Hneg) as H.
    destruct fuel; cbn [addTurns]; rewrite H; eauto.
  - destruct (PI_2 <=? absF (a1 - a0))%f32 eqn:Hle; [eauto|].
    cbn [subTurns]. destruct (F32.zero <? a1 - a0)%f32 eqn:Hpos; [|eauto].
    pose proof (sub_turn_nonpos _ Hv Hle Hpos) as H.
    destruct fuel; cbn [subTurns]; rewrite H; eauto.
Qed.

(** ** The stroke width and the coverage of thin strokes *)

Lemma clampF_not_above (a lo hi : float32) :
  (hi <? lo)%f32 = false -> (hi <? hi)%f32 = false ->
  (hi <? clampF a lo hi)%f32 = false.
Proof.
  intros Hlo Hhi. unfold clampF.
  destruct (a <? lo)%f32; [exact Hlo|].
  destruct (hi <? a)%f32 eqn:E; [exact Hhi | exact E].
Qed.

Lemma clampF_inside (a lo hi : float32) :
  (a <? lo)%f32 = false -> (hi <? a)%f32 = false -> clampF a lo hi = a.
Proof. intros H1 H2. unfold clampF. now rewrite H1, H2. Qed.

Lemma clampF_not_below (a lo hi : float32) :
  (lo <? lo)%f32 = false -> (hi <? lo)%f32 = false ->
  (clampF a lo hi <? lo)%f32 = false.
Proof.
  intros Hlo Hhi. unfold clampF.
  destruct (a <? lo)%f32 eqn:E; [exact Hlo|].
  destruct (hi <? a)%f32; [exact Hhi | exact E].
Qed.

Section StrokeWidth.

Context {pkg : Package}.

Lemma scaledStrokeWidth_le_200 (state : nvgState) :
  (F32.of_Z 200 <? scaledStrokeWidth state)%f32 = false.
Proof. unfold scaledStrokeWidth. now apply clampF_not_above. Qed.

(** The shape of a successful [Stroke]. *)
Lemma Stroke_inv (ctx ctx' : Context) :
  Stroke ctx = Some ctx' ->
  exists state ctx1,
    getState ctx = Some state /\ flattenPaths ctx = Some ctx1 /\
    fringeWidth ctx1 = fringeWidth ctx /\
    cache ctx' = strokeCache (snd (strokeCoverage (fringeWidth ctx) state)) state ctx1 /\
    rendered (params ctx')
    = RenderStroke
        (scaleAlpha (alpha state) (fst (strokeCoverage (fringeWidth ctx) state)))
        (scissor state) (fringeWidth ctx)
        (snd (strokeCoverage (fringeWidth ctx) state)) (paths (cache ctx'))
      :: rendered (params ctx).
Proof.
  unfold Stroke.
  destruct (getState ctx) as [state|]; cbn [bind]; [|discriminate].
  destruct (strokeCoverage (fringeWidth ctx) state) as [paint w] eqn:Ecov.
  destruct (flattenPaths ctx) as [ctx1|] eqn:Ef; cbn [bind]; [|discriminate].
  destruct (existsb _ _); [discriminate|].
  intros [= <-]. exists state, ctx1. rewrite Ecov. cbn [fst snd].
  destruct (flattenPaths_inv _ _ Ef) as [c ->].
  match goal with |- context [countStroke ?c] =>
    destruct (countStroke_frame c) as (H1 & _ & H3 & _) end.
  rewrite H1, H3. repeat split.
Qed.

(** C10, amended.  The stroke width of [Stroke] before the test against the
    fringe width is [clampF(state.strokeWidth*scale, 0, 200)], which is never
    above 200.  The width handed to the renderer, and halved (plus half a
    fringe width under antialiasing) to [expandStroke], is the fringe width
    when that value is below the fringe width and that value otherwise; it is
    not above 200 when the fringe width is not. *)
Theorem Stroke_width_clamped (ctx ctx' : Context) :
  Stroke ctx = Some ctx' ->
  exists state ctx1 paint,
    getState ctx = Some state /\ flattenPaths ctx = Some ctx1 /\
    let scaled :=
      clampF (strokeWidth state * getAverageScale (xform state))%f32
        F32.zero (F32.of_Z 200) in
    let width :=
      if (scaled <? fringeWidth ctx)%f32 then fringeWidth ctx else scaled in
    (F32.of_Z 200 <? scaled)%f32 = false /\
    cache ctx'
    = expandStroke (cache ctx1)
        (if edgeAntiAlias (params ctx)
         then (width * F32.half + fringeWidth ctx * F32.half)%f32
         else (width * F32.half)%f32)
        (lineCap state) (lineJoin state) (miterLimit state)
        (fringeWidth ctx) (tessTol ctx) /\
    rendered (params ctx')
    = RenderStroke paint (scissor state) (fringeWidth ctx) width
        (paths (cache ctx')) :: rendered (params ctx) /\
    ((F32.of_Z 200 <? fringeWidth ctx)%f32 = false ->
     (F32.of_Z 200 <? width)%f32 = false).
Proof.
  intros H. destruct (Stroke_inv _ _ H) as (state & ctx1 & Hst & Hf & Hfw & Hc & Hr).
  exists state, ctx1,
    (scaleAlpha (alpha state) (fst (strokeCoverage (fringeWidth ctx) state))).
  split; [exact Hst|]. split; [exact Hf|].
  pose proof (scaledStrokeWidth_le_200 state) as Hle.
  unfold strokeCoverage in *. unfold scaledStrokeWidth in *.
  cbv zeta.
  destruct (flattenPaths_inv _ _ Hf) as [c ->].
  destruct (clampF (strokeWidth state * getAverageScale (xform state))%f32
              F32.zero (F32.of_Z 200) <? fringeWidth ctx)%f32 eqn:E;
    cbn [fst snd] in *.
  - split; [exact Hle|]. split.
    + rewrite Hc. unfold strokeCache. cbn. now destruct (edgeAntiAlias (params ctx)).
    + split; [exact Hr | auto].
  - split; [exact Hle|]. split.
    + rewrite Hc. unfold strokeCache. cbn. now destruct (edgeAntiAlias (params ctx)).
    + split; [exact Hr | auto].
Qed.

Lemma scaledStrokeWidth_not_negative (state : nvgState) :
  (scaledStrokeWidth state <? F32.zero)%f32 = false.
Proof. unfold scaledStrokeWidth. now apply clampF_not_below. Qed.

(** C5, amended.  Let [w] be the stroke width after scaling and clamping,
    [clampF(state.strokeWidth*scale, 0, 200)], and [f] the fringe width.
    When [w < f], [Stroke] multiplies the alpha of the inner and of the outer
    color by [a * a] for [a = clampF(w/f, 0, 1)] and hands on the width [f];
    [a] is the quotient [w/f] itself, [w] and [f] being binary32 numbers.
    Otherwise the alphas get no such factor and the width handed on is [w].
    In both cases the alphas are then multiplied by the global alpha. *)
Theorem Stroke_thin_coverage (ctx ctx' : Context) :
  Stroke ctx = Some ctx' ->
  exists state paint width,
    getState ctx = Some state /\
    rendered (params ctx')
    = RenderStroke paint (scissor state) (fringeWidth ctx) width
        (paths (cache ctx')) :: rendered (params ctx) /\
    let w := scaledStrokeWidth state in
    let f := fringeWidth ctx in
    let a := clampF (w / f)%f32 F32.zero F32.one in
    ((w <? f)%f32 = true ->
       A (innerColor paint)
       = (A (innerColor (stroke state)) * (a * a) * alpha state)%f32 /\
       A (outerColor paint)
       = (A (outerColor (stroke state)) * (a * a) * alpha state)%f32 /\
       width = f /\
       (valid_binary F32.prec F32.emax w = true ->
        valid_binary F32.prec F32.emax f = true -> a = (w / f)%f32)) /\
    ((w <? f)%f32 = false ->
       A (innerColor paint) = (A (innerColor (stroke state)) * alpha state)%f32 /\
       A (outerColor paint) = (A (outerColor (stroke state)) * alpha state)%f32 /\
       width = w).
Proof.
  intros H. destruct (Stroke_inv _ _ H) as (state & ctx1 & Hst & Hf & Hfw & Hc & Hr).
  exists state,
    (scaleAlpha (alpha state) (fst (strokeCoverage (fringeWidth ctx) state))),
    (snd (strokeCoverage (fringeWidth ctx) state)).
  split; [exact Hst|]. split; [exact Hr|].
  cbv zeta. unfold strokeCoverage.
  destruct (scaledStrokeWidth state <? fringeWidth ctx)%f32 eqn:Elt; cbn [fst snd].
  - split; [|discriminate]. intros _. repeat split.
    intros Hvw Hvf.
    destruct (div_of_smaller_in_unit _ _ Hvw Hvf
                (scaledStrokeWidth_not_negative state) Elt) as [H0 H1].
    now apply clampF_inside.
  - split; [discriminate|]. intros _. repeat split.
Qed.

End StrokeWidth.

(** ** Winding *)

Lemma store_map_same {X Y : Type} (f : X -> Y) (l : list X) (i : nat) (v w : X) :
  nth_error l i = Some w -> f v = f w -> map f (store l i v) = map f l.
Proof.
  revert i; induction l as [|h t IH]; intros [|i]; cbn; try discriminate.
  - intros [= ->] ->. reflexivity.
  - intros H E. f_equal. now apply IH.
Qed.

Lemma index_nth_error {X : Type} (l : list X) (i : Z) (v : X) :
  index l i = Some v -> nth_error l (Z.to_nat i) = Some v.
Proof. unfold index. now destruct (i <? 0). Qed.

Lemma index_of_nat {X : Type} (l : list X) (i : Z) :
  0 <= i -> index l i = nth_error l (Z.to_nat i).
Proof. intros H. unfold index. destruct (Z.ltb_spec i 0); [lia | reflexivity]. Qed.

Lemma xy_eq (p q : nvgPoint) : xy p = xy q -> x p = x q /\ y p = y q.
Proof. unfold xy. intros [= Hx Hy]. now split. Qed.

Lemma map_xy_cons (b1 b2 : nvgPoint) (t1 t2 : list nvgPoint) :
  map xy (b1 :: t1) = map xy (b2 :: t2) ->
  x b1 = x b2 /\ y b1 = y b2 /\ map xy t1 = map xy t2.
Proof.
  cbn [map]. intros H.
  assert (H1 : xy b1 = xy b2) by congruence.
  assert (H2 : map xy t1 = map xy t2) by congruence.
  apply xy_eq in H1. tauto.
Qed.

Lemma polyFan_step (a b c : nvgPoint) (t : list nvgPoint) (area : float32) :
  polyFan a (b :: c :: t) area
  = polyFan a (c :: t) (area + triArea2 (x a) (y a) (x b) (y b) (x c) (y c))%f32.
Proof. reflexivity. Qed.

Lemma polyFan_coords (a1 a2 : nvgPoint) (t1 t2 : list nvgPoint) :
  xy a1 = xy a2 -> map xy t1 = map xy t2 ->
  forall area, polyFan a1 t1 area = polyFan a2 t2 area.
Proof.
  intros Ha. apply xy_eq in Ha. destruct Ha as [Hax Hay]. revert t2.
  induction t1 as [|b1 t1 IH]; intros [|b2 t2] Ht area; try discriminate; [reflexivity|].
  destruct (map_xy_cons _ _ _ _ Ht) as (Hbx & Hby & Ht1).
  destruct t1 as [|c1 t1], t2 as [|c2 t2]; try discriminate; [reflexivity|].
  destruct (map_xy_cons _ _ _ _ Ht1) as (Hcx & Hcy & _).
  rewrite !polyFan_step, Hax, Hay, Hbx, Hby, Hcx, Hcy. apply IH. exact Ht1.
Qed.

Lemma polyArea_coords (l1 l2 : list nvgPoint) (n : Z) :
  map xy (firstn (Z.to_nat n) l1) = map xy (firstn (Z.to_nat n) l2) ->
  polyArea l1 n = polyArea l2 n.
Proof.
  unfold polyArea.
  destruct (firstn (Z.to_nat n) l1) as [|a1 t1], (firstn (Z.to_nat n) l2) as [|a2 t2];
    try discriminate; [reflexivity|].
  intros H. assert (Ha : xy a1 = xy a2) by (cbn [map] in H; congruence).
  assert (Ht : map xy t1 = map xy t2) by (cbn [map] in H; congruence).
  f_equal. now apply polyFan_coords.
Qed.

Lemma polyArea_firstn (l : list nvgPoint) (n k : Z) :
  n <= k -> polyArea (firstn (Z.to_nat k) l) n = polyArea l n.
Proof.
  intros H. apply polyArea_coords. rewrite firstn_firstn.
  now replace (Nat.min (Z.to_nat n) (Z.to_nat k)) with (Z.to_nat n) by lia.
Qed.

Lemma polyArea_small (l : list nvgPoint) (n : Z) (w : Winding) :
  n <= 2 -> windingAgrees w (polyArea l n) = true.
Proof.
  intros H. unfold polyArea.
  assert (Hlen : (length (firstn (Z.to_nat n) l) <= 2)%nat).
  { rewrite length_firstn. lia. }
  destruct (firstn (Z.to_nat n) l) as [|a [|b [|c t]]]; cbn [length] in Hlen;
    try lia; cbn [polyFan]; unfold windingAgrees;
    change (F32.zero * F32.half <? F32.zero)%f32 with false;
    change (F32.zero <? F32.zero * F32.half)%f32 with false;
    now rewrite !andb_false_r.
Qed.

Lemma polyReverse_length (l : list nvgPoint) (n : Z) :
  length (polyReverse l n) = length l.
Proof.
  unfold polyReverse. rewrite length_app, length_rev, length_firstn, length_skipn. lia.
Qed.

Lemma polyReverse_firstn (l : list nvgPoint) (n : Z) :
  (Z.to_nat n <= length l)%nat ->
  firstn (Z.to_nat n) (polyReverse l n) = rev (firstn (Z.to_nat n) l).
Proof.
  intros H. unfold polyReverse. rewrite firstn_app.
  rewrite length_rev, length_firstn.
  replace (Z.to_nat n - Nat.min (Z.to_nat n) (length l))%nat with 0%nat by lia.
  cbn [firstn]. rewrite app_nil_r. apply firstn_all2.
  rewrite length_rev, length_firstn. lia.
Qed.

Lemma polyReverse_beyond (l : list nvgPoint) (n : Z) (k : nat) :
  (Z.to_nat n <= length l)%nat -> (Z.to_nat n <= k)%nat ->
  nth_error (polyReverse l n) k = nth_error l k.
Proof.
  intros H Hk. unfold polyReverse. rewrite nth_error_app2.
  - rewrite length_rev, length_firstn, nth_error_skipn. f_equal. lia.
  - rewrite length_rev, length_firstn. lia.
Qed.

Lemma enforceWinding_cases (l : list nvgPoint) (n : Z) (w : Winding) :
  enforceWinding l n w = l \/ enforceWinding l n w = polyReverse l n.
Proof.
  unfold enforceWinding. destruct (2 <? n); [|now left].
  destruct ((w =? Solid) && _); [now right|].
  destruct ((w =? Hole) && _); [now right | now left].
Qed.

Lemma enforceWinding_length (l : list nvgPoint) (n : Z) (w : Winding) :
  length (enforceWinding l n w) = length l.
Proof.
  destruct (enforceWinding_cases l n w) as [-> | ->];
    [reflexivity | apply polyReverse_length].
Qed.

Lemma enforceWinding_beyond (l : list nvgPoint) (n : Z) (w : Winding) (k : nat) :
  (Z.to_nat n <= length l)%nat -> (Z.to_nat n <= k)%nat ->
  nth_error (enforceWinding l n w) k = nth_error l k.
Proof.
  intros H Hk. destruct (enforceWinding_cases l n w) as [-> | ->];
    [reflexivity | now apply polyReverse_beyond].
Qed.

(** [enforceWinding] looks at the first [n] points only. *)
Lemma enforceWinding_firstn (l : list nvgPoint) (n k : Z) (w : Winding) :
  n <= k -> (Z.to_nat k <= length l)%nat ->
  firstn (Z.to_nat n) (enforceWinding l n w)
  = firstn (Z.to_nat n) (enforceWinding (firstn (Z.to_nat k) l) n w).
Proof.
  intros Hnk Hk. unfold enforceWinding.
  rewrite (polyArea_firstn l n k Hnk).
  assert (Hf : firstn (Z.to_nat n) (firstn (Z.to_nat k) l) = firstn (Z.to_nat n) l).
  { rewrite firstn_firstn. f_equal. lia. }
  assert (Hr : firstn (Z.to_nat n) (polyReverse l n)
               = firstn (Z.to_nat n) (polyReverse (firstn (Z.to_nat k) l) n)).
  { rewrite !polyReverse_firstn; [now rewrite Hf | rewrite length_firstn; lia | lia]. }
  destruct (2 <? n); [|now rewrite Hf].
  destruct ((w =? Solid) && _); [exact Hr|].
  destruct ((w =? Hole) && _); [exact Hr | now rewrite Hf].
Qed.

(** After [enforceWinding] the area does not disagree with the winding
    class, provided reversing mends a disagreement. *)
Lemma enforceWinding_agrees (l : list nvgPoint) (n : Z) (w : Winding) :
  windingAgrees w (polyArea l n) || windingAgrees w (polyArea (polyReverse l n) n)
  = true ->
  windingAgrees w (polyArea (enforceWinding l n w) n) = true.
Proof.
  intros H. unfold enforceWinding.
  destruct (Z.ltb_spec 2 n) as [Hn | Hn]; [|now apply polyArea_small].
  unfold windingAgrees in *.
  destruct ((w =? Solid) && (polyArea l n <? F32.zero)%f32) eqn:E1.
  - cbn [negb andb orb] in H. exact H.
  - destruct ((w =? Hole) && (F32.zero <? polyArea l n)%f32) eqn:E2.
    + cbn [negb andb orb] in H. exact H.
    + rewrite E1, E2. reflexivity.
Qed.

Section Winding.

Context {pkg : Package}.

(** One step of the loop over the points of a path writes the segment
    fields of the point under [p0] and nothing else. *)
Lemma dirStep_frame (st st' : dirLoop) :
  dirStep st = Some st' ->
  length (dl_points st') = length (dl_points st) /\
  map xy (dl_points st') = map xy (dl_points st) /\
  (forall k, k <> Z.to_nat (dl_p0 st) ->
     nth_error (dl_points st') k = nth_error (dl_points st) k) /\
  0 <= dl_p0 st /\
  dl_p0 st' = dl_p1 st /\
  dl_p1Index st' = dl_p1Index st + 1 /\
  (dl_p1 st' = dl_p1 st \/ dl_p1 st' = dl_p1Index st + 1).
Proof.
  unfold dirStep.
  destruct (index (dl_points st) (dl_p0 st)) as [p0|] eqn:E0; cbn [bind]; [|discriminate].
  destruct (index (dl_points st) (dl_p1 st)) as [p1|] eqn:E1; cbn [bind]; [|discriminate].
  destruct (normalize _ _) as [[l ddx] ddy].
  destruct (dl_bounds st) as [[[b0 b1] b2] b3].
  intros [= <-]. cbn [dl_points dl_p0 dl_p1 dl_p1Index].
  pose proof (index_nonneg _ _ _ E0) as Hr.
  apply index_nth_error in E0.
  split; [apply store_length|].
  split; [now apply store_map_same with (w := p0)|].
  split; [intros k Hk; now apply store_other|].
  split; [lia|]. split; [reflexivity|]. split; [reflexivity|].
  destruct (_ =? _); [now left | now right].
Qed.

Lemma dirSteps_frame (n : nat) (m : nat) :
  forall (st st' : dirLoop) (i : Z),
    dirSteps m st = Some st' ->
    dl_p1Index st = i -> 0 <= i -> dl_p1 st <= i ->
    dl_p0 st < Z.of_nat n -> i + Z.of_nat m <= Z.of_nat n ->
    length (dl_points st') = length (dl_points st) /\
    map xy (dl_points st') = map xy (dl_points st) /\
    (forall k, (n <= k)%nat ->
       nth_error (dl_points st') k = nth_error (dl_points st) k).
Proof.
  induction m as [|m IH]; intros st st' i; cbn [dirSteps].
  - intros [= <-]. repeat split.
  - destruct (dirStep st) as [st1|] eqn:E1; cbn [bind]; [|discriminate].
    intros Hm Hi Hi0 Hp1 Hp0 Hn.
    destruct (dirStep_frame _ _ E1) as (Hl & Hxy & Hk & H0 & Hp0' & Hidx & Hp1').
    destruct (IH st1 st' (i + 1) Hm) as (Hl' & Hxy' & Hk'); try lia.
    split; [congruence|]. split; [congruence|].
    intros k Hkn. rewrite Hk' by exact Hkn. apply Hk. lia.
Qed.

End Winding.

Lemma index_firstn {X : Type} (l : list X) (k i : Z) :
  0 <= i < k -> index (firstn (Z.to_nat k) l) i = index l i.
Proof.
  intros H. rewrite !index_of_nat by lia. rewrite nth_error_firstn.
  destruct (Nat.ltb_spec (Z.to_nat i) (Z.to_nat k)); [reflexivity | lia].
Qed.

Lemma skipn_firstn_app {X : Type} (l r : list X) (f : nat) :
  (f <= length l)%nat -> skipn f (firstn f l ++ r) = r.
Proof.
  intros H. rewrite skipn_app, length_firstn.
  replace (f - Nat.min f (length l))%nat with 0%nat by lia.
  rewrite skipn_firstn_comm, Nat.sub_diag. reflexivity.
Qed.

Section WindingStep.

Context {pkg : Package}.

Lemma closedCount_bounds (d : float32) (pts : list nvgPoint) (cnt : Z) :
  1 <= cnt -> 1 <= closedCount d pts cnt <= cnt.
Proof.
  intros H. unfold closedCount.
  destruct (index pts (cnt - 1)); [|lia]. destruct (index pts 0); [|lia].
  destruct (ptEquals _ _ _ _ _); cbn [andb]; [|lia].
  destruct (Z.ltb_spec 2 cnt); lia.
Qed.

(** What one turn of the loop over the paths does to the cache. *)
Lemma flattenPath_step (d : float32) (c c' : nvgPathCache) (j : nat) (p : nvgPath) :
  flattenPath d c j = Some c' ->
  nth_error (paths c) j = Some p ->
  let n := closedCount d (pathPoints c p) (count p) in
  0 <= first p /\ 1 <= count p /\ first p + count p <= len_ (points c) /\
  exists p',
    paths c' = store (paths c) j p' /\
    first p' = first p /\ count p' = n /\ winding p' = winding p /\
    length (points c') = length (points c) /\
    (forall k : nat, Z.of_nat k < first p \/ first p + n <= Z.of_nat k ->
       nth_error (points c') k = nth_error (points c) k) /\
    map xy (pathPoints c' p')
    = map xy (firstn (Z.to_nat n) (enforceWinding (pathPoints c p) n (winding p))).
Proof.
  intros Hstep Hj n. unfold flattenPath in Hstep. rewrite Hj in Hstep.
  cbn [bind] in Hstep.
  destruct (Z.ltb_spec (first p) 0) as [|Hf0]; [discriminate|].
  destruct (Z.ltb_spec (len_ (points c)) (first p)) as [|Hfl]; [discriminate|].
  cbn [orb] in Hstep.
  set (f := Z.to_nat (first p)) in *.
  set (pts := skipn f (points c)) in *.
  assert (Hlenpts : len_ pts = len_ (points c) - first p).
  { unfold pts, len_. rewrite length_skipn. unfold len_ in Hfl. lia. }
  destruct (index pts (count p - 1)) as [p0|] eqn:E0; cbn [bind] in Hstep; [|discriminate].
  destruct (index pts 0) as [p1|] eqn:E1; cbn [bind] in Hstep; [|discriminate].
  pose proof (index_nonneg _ _ _ E0) as Hcnt.
  assert (Hn : n = if ptEquals (x p0) (y p0) (x p1) (y p1) d && (2 <? count p)
                   then count p - 1 else count p).
  { unfold n, closedCount, pathPoints. fold f. fold pts.
    rewrite !index_firstn by lia. now rewrite E0, E1. }
  assert (Hnb : 1 <= n <= count p).
  { unfold n. apply closedCount_bounds. lia. }
  clearbody n.
  set (closing := ptEquals (x p0) (y p0) (x p1) (y p1) d && (2 <? count p)) in *.
  set (p' := if closing then set_count_closed (if closing then count p - 1 else count p) true p else p) in *.
  assert (Hp' : first p' = first p /\ count p' = n /\ winding p' = winding p).
  { unfold p'. rewrite Hn. destruct closing; repeat split. }
  destruct Hp' as (Hp'f & Hp'c & Hp'w).
  rewrite <- Hn in Hstep. rewrite Hp'w in Hstep.
  destruct (dirSteps (Z.to_nat n) _) as [st|] eqn:Est; cbn [bind] in Hstep; [|discriminate].
  injection Hstep as <-. cbn [paths points].
  assert (Hnlen : (Z.to_nat n <= length pts)%nat) by (unfold len_ in Hcnt; lia).
  destruct (dirSteps_frame (Z.to_nat n) (Z.to_nat n) _ _ 0 Est) as (Hl & Hxy & Hk);
    cbn [dl_p1Index dl_p1 dl_p0]; try lia.
  cbn [dl_points] in Hl, Hxy, Hk.
  rewrite enforceWinding_length in Hl.
  assert (Hflen : length (firstn f (points c)) = f).
  { rewrite length_firstn. unfold len_ in Hfl. lia. }
  split; [lia|]. split; [lia|]. split; [lia|].
  exists p'. split; [reflexivity|]. split; [exact Hp'f|]. split; [exact Hp'c|].
  split; [exact Hp'w|]. split.
  { rewrite length_app, Hflen, Hl. unfold pts. rewrite length_skipn.
    unfold len_ in Hfl. lia. }
  split.
  - intros k [Hk1 | Hk2].
    + rewrite nth_error_app1 by lia. rewrite nth_error_firstn.
      destruct (Nat.ltb_spec k f); [reflexivity | lia].
    + rewrite nth_error_app2 by lia. rewrite Hflen.
      rewrite Hk by lia. rewrite enforceWinding_beyond by lia.
      unfold pts. rewrite nth_error_skipn. f_equal. lia.
  - unfold pathPoints. cbn [points]. rewrite Hp'f, Hp'c. fold f.
    rewrite skipn_firstn_app by (unfold len_ in Hfl; lia).
    rewrite <- !firstn_map. rewrite Hxy. rewrite !firstn_map.
    f_equal. fold pts. apply enforceWinding_firstn; [lia|].
    unfold len_ in Hcnt. lia.
Qed.

End WindingStep.



Section WindingAll.

Context {pkg : Package}.




End WindingAll.

(** ** The number of segments of an arc *)

Section ArcSegments.

Context {pkg : Package}.

Lemma arcDivs_range (da : float32) : 1 <= arcDivs da <= 5.
Proof.
  unfold arcDivs, clampI.
  destruct (Z.ltb_spec (F32.to_int (absF da / PI_half + F32.half)%f32) 1); [lia|].
  destruct (Z.ltb_spec 5 (F32.to_int (absF da / PI_half + F32.half)%f32)); lia.
Qed.

(** C4, at the sweep from 0 to 2 radians, clockwise.  The sweep is 2
    radians, more than [PI*0.5]; the number of segments is
    [int(2/(PI*0.5) + 0.5) = 1]; and [Arc] records one move and one
    [nvgBEZIERTO]: a single segment of about 114.6 degrees.  (For every
    sweep the number of segments is between 1 and 5, and for the full turn
    from 0 to [PI*2] it is 4.) *)
Theorem Arc_two_radians_is_one_segment (fuel : nat) (cx cy r : float32) :
  (PI_half <? absF (F32.of_Z 2))%f32 = true /\
  arcDivs (F32.of_Z 2) = 1 /\
  (forall ctx,
     let move := if 0 <? len_ (commands ctx) then nvgLINETO else nvgMOVETO in
     exists px py c1x c1y c2x c2y qx qy,
       Arc fuel cx cy r F32.zero (F32.of_Z 2) Clockwise ctx
       = appendCommand
           [F32.of_Z move; px; py;
            F32.of_Z nvgBEZIERTO; c1x; c1y; c2x; c2y; qx; qy] ctx) /\
  (forall da, 1 <= arcDivs da <= 5) /\
  arcSweep fuel F32.zero PI_2 Clockwise = Some PI_2 /\
  arcDivs PI_2 = 4.
Proof.
  split; [reflexivity|]. split; [reflexivity|].
  split; [|split; [exact arcDivs_range | split; reflexivity]].
  intros ctx move. unfold Arc. fold move.
  assert (Hsweep : arcSweep fuel F32.zero (F32.of_Z 2) Clockwise = Some (F32.of_Z 2)).
  { unfold arcSweep. change (F32.of_Z 2 - F32.zero)%f32 with (F32.of_Z 2).
    change (Clockwise =? Clockwise) with true.
    change (PI_2 <=? absF (F32.of_Z 2))%f32 with false.
    cbv iota. destruct fuel; reflexivity. }
  rewrite Hsweep. cbn [bind].
  unfold arcValues. change (arcDivs (F32.of_Z 2)) with 1.
  destruct (sinCosF _) as [sn cs].
  change (upto 1) with [0; 1]. cbn [fold_left]. unfold arcStep.
  destruct (sinCosF _) as [dy0 dx0]. destruct (sinCosF _) as [dy1 dx1].
  cbn [values Z.eqb app]. do 8 eexists. reflexivity.
Qed.

End ArcSegments.

(** ** The theorems at concrete inputs *)



Lemma ArcTo_degenerate_is_LineTo_witness :
  ArcTo (pkg := Ref.package) 1 (F32.of_Z 20) F32.zero (F32.of_Z 30) F32.zero
    (F32.of_Z 5) (segmentContext F32.one F32.one F32.one)
  = LineTo (pkg := Ref.package) (F32.of_Z 20) F32.zero
      (segmentContext F32.one F32.one F32.one).
Proof.
  refine (proj1 (ArcTo_degenerate_is_LineTo (pkg := Ref.package) 1
                   (segmentContext F32.one F32.one F32.one)
                   (set_strokeWidth F32.one
                      (set_xform (Ref.PreMultiply Ref.IdentityMatrix
                                    (Ref.ScaleMatrix F32.one F32.one))
                         (Ref.reset zeroState)))
                   (F32.of_Z 20) F32.zero (F32.of_Z 30) F32.zero (F32.of_Z 5)
                   _ _ _)).
  - vm_compute; discriminate.
  - vm_compute; reflexivity.
  - right; right; left. vm_compute; reflexivity.
Defined.

Lemma Stroke_rejects_single_point_path_witness :
  paths (cache pointContext) = [] /\
  flattenPaths (pkg := Ref.package) pointContext = Some pointFlat /\
  Stroke (pkg := Ref.package) pointContext = None.
Proof.
  assert (H : flattenPaths (pkg := Ref.package) pointContext = Some pointFlat)
    by (vm_compute; reflexivity).
  assert (H0 : paths (cache pointContext) = []) by (vm_compute; reflexivity).
  split; [exact H0|]. split; [exact H|].
  apply (proj2 (Stroke_rejects_single_point_path (pkg := Ref.package)
                  pointContext pointFlat H) H0).
  exists (mkPath 0 1 false 0 [] [] Solid false).
  split; [vm_compute; left; reflexivity | reflexivity].
Defined.



(** C10, as stated, at a device pixel ratio of 1/256: the fringe width is
    256, a stroke of width 1 under the identity transform is raised to it,
    and the renderer is handed a width of 256, above 200. *)
Lemma Stroke_width_above_200_at_wide_fringe :
  fringeWidth (segmentContext (F32.of_ratio 1 256) F32.one F32.one) = F32.of_Z 256 /\
  option_map (fun c => option_map snd (lastStroke c))
    (Stroke (pkg := Ref.package)
       (segmentContext (F32.of_ratio 1 256) F32.one F32.one))
  = Some (Some (F32.of_Z 256)) /\
  (F32.of_Z 200 <? F32.of_Z 256)%f32 = true.
Proof. repeat split; vm_compute; reflexivity. Qed.

(** C5, as stated, under a scaled coordinate system and a fringe width of 1.
    A requested width of 3 is not below the fringe width: under the scale 1/4
    the alphas are all the same multiplied by [(3/4)^2 = 9/16] and the width
    handed on is 1.  A requested width of 1/2 is below the fringe width:
    under the scale 4 the alphas stay 1, not [(1/2)^2], and the width handed
    on is 2. *)
Lemma Stroke_coverage_follows_scaled_width :
  fringeWidth (segmentContext F32.one (F32.of_ratio 1 4) (F32.of_Z 3)) = F32.one /\
  (F32.of_Z 3 <? F32.one)%f32 = false /\
  option_map lastStroke
    (Stroke (pkg := Ref.package)
       (segmentContext F32.one (F32.of_ratio 1 4) (F32.of_Z 3)))
  = Some (Some (F32.of_ratio 9 16, F32.of_ratio 9 16, F32.one)) /\
  fringeWidth (segmentContext F32.one (F32.of_Z 4) F32.half) = F32.one /\
  (F32.half <? F32.one)%f32 = true /\
  option_map lastStroke
    (Stroke (pkg := Ref.package) (segmentContext F32.one (F32.of_Z 4) F32.half))
  = Some (Some (F32.one, F32.one, F32.of_Z 2)).
Proof. repeat split; vm_compute; reflexivity. Qed.

(** A requested width of 300 under the identity transform: the renderer is
    handed 200. *)
Lemma Stroke_width_clamped_witness :
  Stroke (pkg := Ref.package) (segmentContext F32.one F32.one (F32.of_Z 300))
  = Some (orZero (Stroke (pkg := Ref.package)
                    (segmentContext F32.one F32.one (F32.of_Z 300)))) /\
  option_map snd
    (lastStroke (orZero (Stroke (pkg := Ref.package)
                           (segmentContext F32.one F32.one (F32.of_Z 300)))))
  = Some (F32.of_Z 200) /\
  (F32.of_Z 200 <? F32.of_Z 200)%f32 = false.
Proof.
  assert (H : Stroke (pkg := Ref.package)
                (segmentContext F32.one F32.one (F32.of_Z 300))
              = Some (orZero (Stroke (pkg := Ref.package)
                                (segmentContext F32.one F32.one (F32.of_Z 300)))))
    by (vm_compute; reflexivity).
  split; [exact H|].
  destruct (Stroke_width_clamped (pkg := Ref.package) _ _ H)
    as (state & ctx1 & paint & Hst & _ & _ & _ & Hr & Hle).
  unfold lastStroke. rewrite Hr. cbn [option_map snd].
  vm_compute in Hst. injection Hst as <-.
  specialize (Hle ltac:(vm_compute; reflexivity)).
  split; [vm_compute; reflexivity | exact Hle].
Defined.

(** A requested width of 1/2 under the identity transform and a fringe width
    of 1: the alphas are multiplied by 1/4 and the width handed on is 1. *)
Lemma Stroke_thin_coverage_witness :
  Stroke (pkg := Ref.package) (segmentContext F32.one F32.one F32.half)
  = Some (orZero (Stroke (pkg := Ref.package)
                    (segmentContext F32.one F32.one F32.half))) /\
  lastStroke (orZero (Stroke (pkg := Ref.package)
                        (segmentContext F32.one F32.one F32.half)))
  = Some (F32.of_ratio 1 4, F32.of_ratio 1 4, F32.one) /\
  clampF (F32.half / F32.one)%f32 F32.zero F32.one = (F32.half / F32.one)%f32.
Proof.
  assert (H : Stroke (pkg := Ref.package)
                (segmentContext F32.one F32.one F32.half)
              = Some (orZero (Stroke (pkg := Ref.package)
                                (segmentContext F32.one F32.one F32.half))))
    by (vm_compute; reflexivity).
  split; [exact H|].
  destruct (Stroke_thin_coverage (pkg := Ref.package) _ _ H)
    as (state & paint & width & Hst & Hr & Hthin & _).
  unfold lastStroke. rewrite Hr.
  vm_compute in Hst. injection Hst as <-.
  destruct (Hthin ltac:(vm_compute; reflexivity)) as (Hi & Ho & Hw & Ha).
  rewrite Hi, Ho, Hw. split; [vm_compute; reflexivity|].
  exact (Ha ltac:(vm_compute; reflexivity) ltac:(vm_compute; reflexivity)).
Defined.

(** * The render state *)

(** ** Assignments to the top state *)

Lemma getState_set_states_last (ctx : Context) (l : list nvgState) (s : nvgState) :
  getState (set_states (l ++ [s]) ctx) = Some s.
Proof.
  rewrite getState_nonempty by (cbn; now destruct l).
  cbn [states set_states]. now rewrite last_last.
Qed.

Lemma updState_inv (f : nvgState -> nvgState) (ctx ctx' : Context) :
  updState f ctx = Some ctx' ->
  exists st, getState ctx = Some st /\
    ctx' = set_states (removelast (states ctx) ++ [f st]) ctx.
Proof.
  unfold updState. destruct (getState ctx) as [st|]; cbn [bind]; [|discriminate].
  intros [= <-]. now exists st.
Qed.

Lemma updState_some (f : nvgState -> nvgState) (ctx : Context) (st : nvgState) :
  getState ctx = Some st ->
  updState f ctx = Some (set_states (removelast (states ctx) ++ [f st]) ctx).
Proof. intros H. unfold updState. now rewrite H. Qed.

Lemma updState_getState (f : nvgState -> nvgState) (ctx ctx' : Context)
  (st : nvgState) :
  getState ctx = Some st -> updState f ctx = Some ctx' ->
  getState ctx' = Some (f st).
Proof.
  intros Hst H. rewrite (updState_some f _ _ Hst) in H. injection H as <-.
  apply getState_set_states_last.
Qed.

Lemma len_removelast_app {X : Type} (l : list X) (v : X) :
  l <> [] -> len_ (removelast l ++ [v]) = len_ l.
Proof.
  intros Hne. destruct (exists_last Hne) as [l' [a ->]].
  rewrite removelast_last, !len_app. reflexivity.
Qed.

Lemma keepsLower_refl (ctx : Context) : keepsLower ctx ctx.
Proof. split; reflexivity. Qed.

Lemma keepsLower_trans (a b c : Context) :
  keepsLower a b -> keepsLower b c -> keepsLower a c.
Proof. intros [H1 H2] [H3 H4]. split; congruence. Qed.

Lemma keepsLower_states (ctx ctx' : Context) :
  states ctx' = states ctx -> keepsLower ctx ctx'.
Proof. intros H. unfold keepsLower. now rewrite H. Qed.

Lemma updState_keepsLower (f : nvgState -> nvgState) (ctx ctx' : Context) :
  updState f ctx = Some ctx' -> keepsLower ctx ctx'.
Proof.
  intros H. destruct (updState_inv _ _ _ H) as (st & Hst & ->).
  pose proof (getState_some_nonempty _ _ Hst) as Hne.
  split; cbn [states set_states].
  - now apply len_removelast_app.
  - now rewrite removelast_last.
Qed.

Section StateCalls.

Context {pkg : Package} {hlp : Helpers}.

Lemma appendCommand_states (vals : list float32) (ctx ctx' : Context) :
  appendCommand vals ctx = Some ctx' -> states ctx' = states ctx.
Proof.
  unfold appendCommand.
  destruct (getState ctx) as [state|]; cbn [bind]; [|discriminate].
  destruct (index vals 0) as [v0|]; cbn [bind]; [|discriminate].
  destruct (negb (F32.to_int v0 =? nvgCLOSE) && negb (F32.to_int v0 =? nvgWINDING)).
  - destruct (index vals (len_ vals - 2)); cbn [bind]; [|discriminate].
    destruct (index vals (len_ vals - 1)); cbn [bind]; [|discriminate].
    destruct (transformCommands _ _); cbn [bind]; [|discriminate].
    now intros [= <-].
  - cbn [bind]. destruct (transformCommands _ _); cbn [bind]; [|discriminate].
    now intros [= <-].
Qed.

Lemma Arc_states (fuel : nat) (cx cy r a0 a1 : float32) (dir : Direction)
  (ctx ctx' : Context) :
  Arc fuel cx cy r a0 a1 dir ctx = Some ctx' -> states ctx' = states ctx.
Proof.
  unfold Arc. destruct (arcSweep fuel a0 a1 dir); cbn [bind]; [|discriminate].
  apply appendCommand_states.
Qed.

Lemma ArcTo_states (fuel : nat) (x1 y1 x2 y2 radius_ : float32)
  (ctx ctx' : Context) :
  ArcTo fuel x1 y1 x2 y2 radius_ ctx = Some ctx' -> states ctx' = states ctx.
Proof.
  unfold ArcTo. destruct (len_ (commands ctx) =? 0); [now intros [= <-]|].
  destruct (arcToDegenerate _ _ _ _ _ _); [apply appendCommand_states|].
  destruct (arcToLegs ctx x1 y1 x2 y2) as [[[dx0 dy0] dx1] dy1].
  destruct (_ <? _)%f32; [apply appendCommand_states|].
  destruct (_ <? _)%f32; apply Arc_states.
Qed.

Lemma Stroke_states (ctx ctx' : Context) :
  Stroke ctx = Some ctx' -> states ctx' = states ctx.
Proof.
  unfold Stroke. destruct (getState ctx) as [state|]; cbn [bind]; [|discriminate].
  destruct (strokeCoverage (fringeWidth ctx) state) as [paint w].
  destruct (flattenPaths ctx) as [ctx1|] eqn:E; cbn [bind]; [|discriminate].
  destruct (existsb _ _); [discriminate|].
  intros [= <-]. destruct (flattenPaths_inv _ _ E) as [c ->].
  match goal with |- states (countStroke ?c) = _ =>
    destruct (countStroke_frame c) as (_ & H & _) end.
  rewrite H. reflexivity.
Qed.

Lemma call_keepsLower (fuel : nat) (op : Call) (ctx ctx' : Context) :
  call fuel op ctx = Some ctx' -> keepsLower ctx ctx'.
Proof.
  destruct op; cbn [call];
    try (now apply updState_keepsLower);
    try (intros H; apply keepsLower_states;
         first [ now apply appendCommand_states in H
               | now apply Arc_states in H
               | now apply ArcTo_states in H
               | now apply Fill_states in H
               | now apply Stroke_states in H ]).
  - (* IntersectScissor *)
    unfold IntersectScissor.
    destruct (getState ctx) as [state|]; cbn [bind]; [|discriminate].
    destruct (_ <? _)%f32; [now apply updState_keepsLower|].
    destruct (intersectRects _ _ _ _ _ _ _ _) as [[[r0 r1] r2] r3].
    now apply updState_keepsLower.
  - (* SetFontSize *)
    unfold SetFontSize. destruct (_ <? _)%f32; [discriminate|].
    now apply updState_keepsLower.
  - (* BeginPath *)
    intros [= <-]. now apply keepsLower_states.
  - (* RoundedRect *)
    unfold RoundedRect. destruct (_ <? _)%f32; intros H;
      apply keepsLower_states; now apply appendCommand_states in H.
Qed.

Lemma calls_keepsLower (fuel : nat) (cs : list Call) :
  forall ctx ctx', calls fuel cs ctx = Some ctx' -> keepsLower ctx ctx'.
Proof.
  induction cs as [|op cs IH]; intros ctx ctx'; cbn [calls].
  - intros [= <-]. apply keepsLower_refl.
  - destruct (call fuel op ctx) as [c1|] eqn:E; cbn [bind]; [|discriminate].
    intros H. eapply keepsLower_trans; [eapply call_keepsLower; exact E|].
    now apply IH.
Qed.

End StateCalls.

Lemma set_states_states (ctx : Context) : set_states (states ctx) ctx = ctx.
Proof. now destruct ctx. Qed.

Lemma set_states_twice (l l' : list nvgState) (ctx : Context) :
  set_states l (set_states l' ctx) = set_states l ctx.
Proof. reflexivity. Qed.

Section SaveRestore.

Context {pkg : Package} {hlp : Helpers}.

Lemma updState_only_states (f : nvgState -> nvgState) (ctx ctx' : Context) :
  updState f ctx = Some ctx' -> ctx' = set_states (states ctx') ctx.
Proof.
  intros H. destruct (updState_inv _ _ _ H) as (st & _ & ->). reflexivity.
Qed.

Lemma call_onState (fuel : nat) (op : Call) (ctx ctx' : Context) :
  onState op = true -> call fuel op ctx = Some ctx' ->
  ctx' = set_states (states ctx') ctx.
Proof.
  destruct op; cbn [onState call]; try discriminate; intros _;
    try (now apply updState_only_states).
  - unfold IntersectScissor.
    destruct (getState ctx) as [state|]; cbn [bind]; [|discriminate].
    destruct (_ <? _)%f32; [now apply updState_only_states|].
    destruct (intersectRects _ _ _ _ _ _ _ _) as [[[r0 r1] r2] r3].
    now apply updState_only_states.
  - unfold SetFontSize. destruct (_ <? _)%f32; [discriminate|].
    now apply updState_only_states.
Qed.

Lemma calls_onState (fuel : nat) (cs : list Call) :
  forall ctx ctx', forallb onState cs = true ->
    calls fuel cs ctx = Some ctx' -> ctx' = set_states (states ctx') ctx.
Proof.
  induction cs as [|op cs IH]; intros ctx ctx'; cbn [calls forallb].
  - intros _ [= <-]. symmetry. apply set_states_states.
  - intros Hall. apply andb_true_iff in Hall. destruct Hall as [Hop Hcs].
    destruct (call fuel op ctx) as [c1|] eqn:E; cbn [bind]; [|discriminate].
    intros H. rewrite (IH _ _ Hcs H).
    rewrite (call_onState _ _ _ _ Hop E). reflexivity.
Qed.

Lemma Save_below_limit (ctx : Context) (top : nvgState) :
  len_ (states ctx) < nvgMaxStates -> getState ctx = Some top ->
  Save ctx = set_states (states ctx ++ [top]) ctx.
Proof.
  intros Hlt Htop. unfold Save.
  destruct (Z.leb_spec nvgMaxStates (len_ (states ctx))); [lia|].
  pose proof (len_pos_cons _ (getState_some_nonempty _ _ Htop)).
  destruct (Z.ltb_spec 0 (len_ (states ctx))); [|lia].
  now rewrite Htop.
Qed.

Lemma Save_at_limit (ctx : Context) :
  nvgMaxStates <= len_ (states ctx) -> Save ctx = ctx.
Proof.
  intros H. unfold Save.
  destruct (Z.leb_spec nvgMaxStates (len_ (states ctx))); [reflexivity | lia].
Qed.

Lemma Restore_above_one (ctx : Context) :
  1 < len_ (states ctx) ->
  Restore ctx = set_states (removelast (states ctx)) ctx.
Proof.
  intros H. unfold Restore.
  destruct (Z.ltb_spec 1 (len_ (states ctx))); [|lia].
  now rewrite firstn_pred_removelast.
Qed.

Lemma nonempty_of_len {X : Type} (l : list X) : 1 <= len_ l -> l <> [].
Proof. intros H ->. unfold len_ in H. cbn in H. lia. Qed.

(** The stack after [Save], whatever was done by a block that keeps the
    depth and the lower states, and [Restore]. *)
Lemma Save_block_Restore (ctx c1 : Context) :
  1 <= len_ (states ctx) < nvgMaxStates ->
  keepsLower (Save ctx) c1 ->
  Restore c1 = set_states (states ctx) c1.
Proof.
  intros [Hlo Hhi] [Hlen Hlower].
  pose proof (nonempty_of_len _ Hlo) as Hne.
  rewrite (Save_below_limit ctx _ Hhi (getState_nonempty _ Hne)) in Hlen, Hlower.
  cbn [states set_states] in Hlen, Hlower.
  rewrite len_app in Hlen. rewrite removelast_last in Hlower.
  rewrite Restore_above_one by (unfold len_ in *; cbn in *; lia).
  now rewrite Hlower.
Qed.

(** X1.  Below the limit of the stack, [Restore] undoes what the calls since
    the matching [Save] did to the render state: whatever sequence of style,
    transform, scissor, path and drawing calls ran in between, the state
    stack is again the one [Save] found; when all of them are calls on the
    render state, the whole context is. *)
Theorem Restore_undoes_calls_since_Save (fuel : nat) (cs : list Call)
  (ctx ctx' : Context) :
  1 <= len_ (states ctx) < nvgMaxStates ->
  calls fuel cs (Save ctx) = Some ctx' ->
  states (Restore ctx') = states ctx /\
  (forallb onState cs = true -> Restore ctx' = ctx).
Proof.
  intros Hd H. pose proof (calls_keepsLower _ _ _ _ H) as Hk.
  pose proof (Save_block_Restore _ _ Hd Hk) as HR. split.
  - rewrite HR. reflexivity.
  - intros Hall. rewrite HR. rewrite (calls_onState _ _ _ _ Hall H).
    rewrite set_states_twice.
    destruct Hd as [Hlo Hhi]. pose proof (nonempty_of_len _ Hlo) as Hne.
    rewrite (Save_below_limit ctx _ Hhi (getState_nonempty _ Hne)).
    rewrite set_states_twice. apply set_states_states.
Qed.

(** X2.  On a full stack [Save] saves nothing, so the [Restore] that was to
    match it removes a state that was there before: after [Save], any calls
    and [Restore], the stack is one state shorter than [Save] found it, and
    the state the calls worked on is gone. *)
Theorem Save_on_full_stack_is_not_matched (fuel : nat) (cs : list Call)
  (ctx ctx' : Context) :
  nvgMaxStates <= len_ (states ctx) -> 1 < len_ (states ctx) ->
  calls fuel cs (Save ctx) = Some ctx' ->
  Save ctx = ctx /\
  states (Restore ctx') = removelast (states ctx) /\
  len_ (states (Restore ctx')) = len_ (states ctx) - 1.
Proof.
  intros Hfull Hgt H. pose proof (Save_at_limit _ Hfull) as HS.
  rewrite HS in H. destruct (calls_keepsLower _ _ _ _ H) as [Hlen Hlower].
  split; [exact HS|].
  rewrite Restore_above_one by lia. cbn [states set_states].
  rewrite Hlower. split; [reflexivity|].
  assert (Hne : states ctx <> []) by (apply nonempty_of_len; lia).
  destruct (exists_last Hne) as [l' [a E]]. rewrite E.
  rewrite removelast_last, len_app. unfold len_; cbn; lia.
Qed.

(** X3.  [Block] runs its block between a [Save] and a [Restore]: a panic of
    the block is a panic of [Block]; below the limit of the stack, when the
    block leaves the depth of the stack and the states below the top as they
    were (as a sequence of calls does), [Block] returns with the state stack
    it was called with and with whatever else the block did. *)
Theorem Block_keeps_the_state_stack (block : Context -> option Context)
  (ctx : Context) :
  (block (Save ctx) = None -> Block block ctx = None) /\
  (forall c1, block (Save ctx) = Some c1 ->
     1 <= len_ (states ctx) < nvgMaxStates -> keepsLower (Save ctx) c1 ->
     Block block ctx = Some (set_states (states ctx) c1)) /\
  (forall fuel cs c1, block = calls fuel cs -> block (Save ctx) = Some c1 ->
     1 <= len_ (states ctx) < nvgMaxStates ->
     Block block ctx = Some (set_states (states ctx) c1)).
Proof.
  assert (Hgen : forall c1, block (Save ctx) = Some c1 ->
     1 <= len_ (states ctx) < nvgMaxStates -> keepsLower (Save ctx) c1 ->
     Block block ctx = Some (set_states (states ctx) c1)).
  { intros c1 H Hd Hk. unfold Block. rewrite H. cbn [bind].
    now rewrite (Save_block_Restore _ _ Hd Hk). }
  split; [intros H; unfold Block; now rewrite H|].
  split; [exact Hgen|].
  intros fuel cs c1 -> H Hd. apply Hgen; [exact H | exact Hd|].
  now apply calls_keepsLower in H.
Qed.

End SaveRestore.

(** Ranges and comparisons of concrete integers. *)
Ltac by_computation :=
  repeat match goal with
  | |- _ /\ _ => split
  end;
  first [ vm_compute; reflexivity
        | vm_compute; discriminate
        | vm_compute; intros ?; discriminate ].

Lemma Restore_undoes_calls_since_Save_witness :
  1 <= len_ (states (frameContext F32.one true)) < 32 /\
  states (Restore (orZero (calls (pkg := Ref.package) (hlp := RefHelpers.helpers)
                             1 someCalls
                             (Save (pkg := Ref.package) (frameContext F32.one true)))))
  = states (frameContext F32.one true).
Proof.
  split; [by_computation|].
  apply (Restore_undoes_calls_since_Save (pkg := Ref.package)
           (hlp := RefHelpers.helpers) 1 someCalls (frameContext F32.one true)).
  - by_computation.
  - vm_compute; reflexivity.
Defined.

Lemma Save_on_full_stack_is_not_matched_witness :
  len_ (states fullContext) = 32 /\
  len_ (states (Restore (orZero (calls (pkg := Ref.package)
                                   (hlp := RefHelpers.helpers) 1 someCalls
                                   (Save (pkg := Ref.package) fullContext)))))
  = 31.
Proof.
  split; [vm_compute; reflexivity|].
  destruct (Save_on_full_stack_is_not_matched (pkg := Ref.package)
              (hlp := RefHelpers.helpers) 1 someCalls fullContext
              (orZero (calls (pkg := Ref.package) (hlp := RefHelpers.helpers)
                         1 someCalls (Save (pkg := Ref.package) fullContext))))
    as (_ & _ & H).
  - vm_compute; discriminate.
  - vm_compute; reflexivity.
  - vm_compute; reflexivity.
  - rewrite H. vm_compute; reflexivity.
Defined.

Lemma Block_keeps_the_state_stack_witness :
  Block (pkg := Ref.package)
    (calls (pkg := Ref.package) (hlp := RefHelpers.helpers) 1 someCalls)
    (frameContext F32.one true)
  = Some (set_states (states (frameContext F32.one true))
            (orZero (calls (pkg := Ref.package) (hlp := RefHelpers.helpers)
                       1 someCalls
                       (Save (pkg := Ref.package) (frameContext F32.one true))))).
Proof.
  apply (proj2 (proj2 (Block_keeps_the_state_stack (pkg := Ref.package)
                         (hlp := RefHelpers.helpers)
                         (calls (pkg := Ref.package) (hlp := RefHelpers.helpers)
                            1 someCalls)
                         (frameContext F32.one true)))
           1%nat someCalls).
  - reflexivity.
  - vm_compute; reflexivity.
  - by_computation.
Defined.

(** ** Styles *)

Section StyleAccessors.

(** A setter that assigns to the top state: it returns, the new top state is
    the old one with the assignment made, and the lower states are kept. *)
Lemma setter_top (f : nvgState -> nvgState) (ctx : Context) (state : nvgState) :
  getState ctx = Some state ->
  exists c, updState f ctx = Some c /\ getState c = Some (f state) /\
            keepsLower ctx c /\ c = set_states (states c) ctx.
Proof.
  intros Hst. exists (set_states (removelast (states ctx) ++ [f state]) ctx).
  pose proof (updState_some f _ _ Hst) as H.
  split; [exact H|]. split; [apply getState_set_states_last|].
  split; [now apply updState_keepsLower in H | reflexivity].
Qed.

(** X4.  On a context with a state, each setter of the path style returns,
    its getter then returns the value set, the other four getters return
    what they returned before, and the transform, the states below the top
    and everything outside of the state stack are as they were. *)
Theorem path_style_set_then_get (ctx : Context) (state : nvgState) :
  getState ctx = Some state ->
  let kept c :=
    CurrentTransform c = CurrentTransform ctx /\ keepsLower ctx c /\
    c = set_states (states c) ctx in
  (forall v, exists c, SetStrokeWidth v ctx = Some c /\ kept c /\
     pathStyle c = (Some v, MiterLimit ctx, Context_LineCap ctx, LineJoin ctx,
                    GlobalAlpha ctx)) /\
  (forall v, exists c, SetMiterLimit v ctx = Some c /\ kept c /\
     pathStyle c = (StrokeWidth ctx, Some v, Context_LineCap ctx, LineJoin ctx,
                    GlobalAlpha ctx)) /\
  (forall v, exists c, SetLineCap v ctx = Some c /\ kept c /\
     pathStyle c = (StrokeWidth ctx, MiterLimit ctx, Some v, LineJoin ctx,
                    GlobalAlpha ctx)) /\
  (forall v, exists c, SetLineJoin v ctx = Some c /\ kept c /\
     pathStyle c = (StrokeWidth ctx, MiterLimit ctx, Context_LineCap ctx, Some v,
                    GlobalAlpha ctx)) /\
  (forall v, exists c, SetGlobalAlpha v ctx = Some c /\ kept c /\
     pathStyle c = (StrokeWidth ctx, MiterLimit ctx, Context_LineCap ctx,
                    LineJoin ctx, Some v)).
Proof.
  intros Hst kept. subst kept.
  unfold pathStyle, StrokeWidth, MiterLimit, Context_LineCap, LineJoin,
    GlobalAlpha, CurrentTransform.
  rewrite Hst. cbn [bind].
  repeat split; intros v;
    match goal with
    | |- exists c, ?set v ctx = Some c /\ _ =>
        unfold set;
        match goal with
        | |- exists c, updState ?f ctx = Some c /\ _ =>
            destruct (setter_top f ctx state Hst) as (c & Hc & Hg & Hk & Ho)
        end
    end;
    exists c; (split; [exact Hc|]); rewrite Hg; cbn [bind];
    repeat split; try exact Ho; try apply Hk.
Qed.

(** X5.  [SetFontSize] panics on a size below zero and on nothing else a
    size can be (a NaN and a negative zero are not below zero); the setters
    of the text style that return are followed by getters that return the
    value set, while the other getters of the text style return what they
    returned before. *)
Theorem text_style_set_then_get (ctx : Context) (state : nvgState) :
  getState ctx = Some state ->
  (forall v, (v <? F32.zero)%f32 = true -> SetFontSize v ctx = None) /\
  (forall v, (v <? F32.zero)%f32 = false ->
     exists c, SetFontSize v ctx = Some c /\ keepsLower ctx c /\
       textStyle c = (Some v, FontBlur ctx, TextLetterSpacing ctx,
                      TextLineHeight ctx, TextAlign ctx, FontFaceID ctx)) /\
  (exists c, SetFontSize S754_nan ctx = Some c /\ FontSize c = Some S754_nan) /\
  (forall v, exists c, SetFontBlur v ctx = Some c /\ keepsLower ctx c /\
     textStyle c = (FontSize ctx, Some v, TextLetterSpacing ctx,
                    TextLineHeight ctx, TextAlign ctx, FontFaceID ctx)) /\
  (forall v, exists c, SetTextLetterSpacing v ctx = Some c /\ keepsLower ctx c /\
     textStyle c = (FontSize ctx, FontBlur ctx, Some v,
                    TextLineHeight ctx, TextAlign ctx, FontFaceID ctx)) /\
  (forall v, exists c, SetTextLineHeight v ctx = Some c /\ keepsLower ctx c /\
     textStyle c = (FontSize ctx, FontBlur ctx, TextLetterSpacing ctx,
                    Some v, TextAlign ctx, FontFaceID ctx)) /\
  (forall v, exists c, SetTextAlign v ctx = Some c /\ keepsLower ctx c /\
     textStyle c = (FontSize ctx, FontBlur ctx, TextLetterSpacing ctx,
                    TextLineHeight ctx, Some v, FontFaceID ctx)) /\
  (forall v, exists c, SetFontFaceID v ctx = Some c /\ keepsLower ctx c /\
     textStyle c = (FontSize ctx, FontBlur ctx, TextLetterSpacing ctx,
                    TextLineHeight ctx, TextAlign ctx, Some v)).
Proof.
  intros Hst.
  unfold textStyle, FontSize, FontBlur, TextLetterSpacing, TextLineHeight,
    TextAlign, FontFaceID.
  rewrite Hst. cbn [bind].
  split; [intros v Hv; unfold SetFontSize; now rewrite Hv|].
  split.
  { intros v Hv. unfold SetFontSize. rewrite Hv.
    destruct (setter_top (set_fontSize v) ctx state Hst) as (c & Hc & Hg & Hk & _).
    exists c. split; [exact Hc|]. split; [exact Hk|]. now rewrite Hg. }
  split.
  { unfold SetFontSize. cbn [F32.ltb SFltb SFcompare].
    destruct (setter_top (set_fontSize S754_nan) ctx state Hst)
      as (c & Hc & Hg & _).
    exists c. split; [exact Hc|]. now rewrite Hg. }
  repeat split; intros v;
    match goal with
    | |- exists c, ?set v ctx = Some c /\ _ =>
        unfold set;
        match goal with
        | |- exists c, updState ?f ctx = Some c /\ _ =>
            destruct (setter_top f ctx state Hst) as (c & Hc & Hg & Hk & _)
        end
    end;
    exists c; (split; [exact Hc|]); (split; [exact Hk|]); now rewrite Hg.
Qed.

End StyleAccessors.

Lemma path_style_set_then_get_witness :
  exists c,
    SetStrokeWidth (F32.of_Z 3) (frameContext F32.one true)
    = Some c /\
    pathStyle c
    = (Some (F32.of_Z 3), Some (F32.of_Z 10), Some Butt, Some Miter, Some F32.one).
Proof.
  destruct (proj1 (path_style_set_then_get
                     (frameContext F32.one true) (Ref.reset zeroState)
                     ltac:(vm_compute; reflexivity))
              (F32.of_Z 3)) as (c & Hc & _ & Hs).
  exists c. split; [exact Hc|]. rewrite Hs. vm_compute. reflexivity.
Defined.

Lemma text_style_set_then_get_witness :
  SetFontSize (- F32.one)%f32 (frameContext F32.one true)
  = None /\
  exists c,
    SetFontSize (F32.of_Z 12) (frameContext F32.one true)
    = Some c /\
    FontSize c = Some (F32.of_Z 12).
Proof.
  destruct (text_style_set_then_get
              (frameContext F32.one true) (Ref.reset zeroState)
              ltac:(vm_compute; reflexivity)) as (Hneg & Hpos & _).
  split; [apply Hneg; vm_compute; reflexivity|].
  destruct (Hpos (F32.of_Z 12) ltac:(vm_compute; reflexivity)) as (c & Hc & _ & Hs).
  exists c. split; [exact Hc|].
  unfold textStyle in Hs. now injection Hs.
Defined.

(** ** Contexts without a state, and how a context gets its first *)

Lemma getState_empty (ctx : Context) : states ctx = [] -> getState ctx = None.
Proof. intros H. unfold getState. now rewrite H. Qed.

Section EmptyStack.

Context {pkg : Package} {hlp : Helpers}.

Lemma updState_empty (f : nvgState -> nvgState) (ctx : Context) :
  states ctx = [] -> updState f ctx = None.
Proof. intros H. unfold updState. now rewrite (getState_empty _ H). Qed.

Lemma appendCommand_empty (vals : list float32) (ctx : Context) :
  states ctx = [] -> appendCommand vals ctx = None.
Proof. intros H. unfold appendCommand. now rewrite (getState_empty _ H). Qed.

(** X6.  A context whose state stack is empty (the zero [Context], before
    the first [BeginFrame]) serves no call on the render state, on the path
    or to draw: each of them panics, whatever its arguments, but for
    [BeginPath], and for [ArcTo] while the command buffer is empty, which
    returns at once.  The getters panic as well; [Save] and [Restore] do
    not. *)
Theorem calls_without_a_state_panic (fuel : nat) (ctx : Context) :
  states ctx = [] ->
  (forall op ctx', call fuel op ctx = Some ctx' ->
     op = CBeginPath \/
     (exists x1 y1 x2 y2 radius_, op = CArcTo x1 y1 x2 y2 radius_) /\
     commands ctx = [] /\ ctx' = ctx) /\
  pathStyle ctx = (None, None, None, None, None) /\
  textStyle ctx = (None, None, None, None, None, None) /\
  CurrentTransform ctx = None /\
  Restore ctx = ctx /\
  (0 < nvgMaxStates -> Save ctx = set_states [zeroState] ctx).
Proof.
  intros Hnil. pose proof (getState_empty _ Hnil) as Hst.
  split.
  { intros op ctx'.
    destruct op; cbn [call];
      cbv beta delta [Reset SetStrokeWidth SetMiterLimit SetLineCap SetLineJoin
        SetGlobalAlpha SetTransform SetTransformByValue ResetTransform
        Translate Rotate SkewX SkewY Scale SetStrokeColor SetStrokePaint
        SetFillColor SetFillPaint Scissor ResetScissor SetFontBlur
        SetTextLetterSpacing SetTextLineHeight SetTextAlign SetFontFaceID
        MoveTo LineTo BezierTo QuadTo Rect Ellipse Circle ClosePath
        PathWinding];
      try (rewrite (updState_empty _ _ Hnil); discriminate);
      try (rewrite (appendCommand_empty _ _ Hnil); discriminate).
    - unfold IntersectScissor. rewrite Hst. discriminate.
    - unfold SetFontSize. destruct (_ <? _)%f32; [discriminate|].
      rewrite (updState_empty _ _ Hnil). discriminate.
    - intros _. now left.
    - unfold Arc. destruct (arcSweep _ _ _ _); cbn [bind]; [|discriminate].
      rewrite (appendCommand_empty _ _ Hnil). discriminate.
    - unfold ArcTo. destruct (Z.eqb_spec (len_ (commands ctx)) 0) as [E | E].
      + intros [= <-]. right. split; [eauto 6|]. split; [|reflexivity].
        destruct (commands ctx); [reflexivity | unfold len_ in E; cbn in E; lia].
      + destruct (arcToDegenerate _ _ _ _ _ _).
        { unfold LineTo. rewrite (appendCommand_empty _ _ Hnil). discriminate. }
        destruct (arcToLegs ctx x1 y1 x2 y2) as [[[dx0 dy0] dx1] dy1].
        destruct (_ <? _)%f32.
        { unfold LineTo. rewrite (appendCommand_empty _ _ Hnil). discriminate. }
        destruct (_ <? _)%f32; unfold Arc;
          (destruct (arcSweep _ _ _ _); cbn [bind]; [|discriminate]);
          rewrite (appendCommand_empty _ _ Hnil); discriminate.
    - unfold RoundedRect, Rect. destruct (_ <? _)%f32;
        rewrite (appendCommand_empty _ _ Hnil); discriminate.
    - unfold Fill. rewrite Hst. discriminate.
    - unfold Stroke. rewrite Hst. discriminate. }
  unfold pathStyle, textStyle, StrokeWidth, MiterLimit, Context_LineCap,
    LineJoin, GlobalAlpha, FontSize, FontBlur, TextLetterSpacing,
    TextLineHeight, TextAlign, FontFaceID, CurrentTransform.
  rewrite Hst. cbn [bind].
  repeat split.
  - unfold Restore. now rewrite Hnil.
  - intros Hmax. unfold Save. rewrite Hnil. cbn [len_ length Z.of_nat].
    destruct (Z.leb_spec nvgMaxStates 0); [lia | reflexivity].
Qed.

(** X7.  Whatever the context ([nvgMaxStates] being positive), [BeginFrame]
    returns: the state stack then holds one state, the zero state after
    [reset]; the tolerances are those of the device pixel ratio and the
    counters are zero.  The command buffer, the pen, the path cache and the
    font images are not touched: a path recorded before is still there. *)
Theorem BeginFrame_leaves_one_default_state (ratio : float32) (ctx : Context) :
  0 < nvgMaxStates ->
  exists ctx', BeginFrame ratio ctx = Some ctx' /\
    states ctx' = [reset zeroState] /\
    tessTol ctx' = (F32.of_ratio 25 100 / ratio)%f32 /\
    distTol ctx' = (F32.of_ratio 1 100 / ratio)%f32 /\
    fringeWidth ctx' = (F32.one / ratio)%f32 /\
    devicePxRatio ctx' = ratio /\
    (drawCallCount ctx', fillTriCount ctx', strokeTriCount ctx', textTriCount ctx')
    = (0, 0, 0, 0) /\
    commands ctx' = commands ctx /\
    (commandX ctx', commandY ctx') = (commandX ctx, commandY ctx) /\
    cache ctx' = cache ctx /\ params ctx' = params ctx /\
    (fontImages ctx', fontImageIdx ctx') = (fontImages ctx, fontImageIdx ctx).
Proof.
  intros Hmax. unfold BeginFrame, Reset.
  assert (HS : Save (set_states [] ctx) = set_states [zeroState] ctx).
  { unfold Save. cbn [states set_states len_ length Z.of_nat].
    destruct (Z.leb_spec nvgMaxStates 0); [lia | reflexivity]. }
  rewrite HS. unfold updState, getState. cbn. eexists. split; [reflexivity|].
  cbn. repeat split.
Qed.

(** X8.  [createInternal] returns a context (the two limits being
    positive): one state, the zero state after [reset]; no command, no path;
    the tolerances of the device pixel ratio one; [nvgMaxFontImages] font
    images, the first the texture of the backend and the others none. *)
Theorem createInternal_context (params_ : nvgParams) (tex_ : Z) :
  0 < nvgMaxStates -> 0 < nvgMaxFontImages ->
  exists ctx, createInternal params_ tex_ = Some ctx /\
    states ctx = [reset zeroState] /\
    commands ctx = [] /\ paths (cache ctx) = [] /\ points (cache ctx) = [] /\
    devicePxRatio ctx = F32.one /\
    fringeWidth ctx = (F32.one / F32.one)%f32 /\
    fontImages ctx = tex_ :: repeat 0 (Z.to_nat nvgMaxFontImages - 1) /\
    len_ (fontImages ctx) = nvgMaxFontImages /\
    fontImageIdx ctx = 0 /\ params ctx = params_.
Proof.
  intros Hmax Himg. unfold createInternal, Reset.
  match goal with |- context [Save ?c] =>
    assert (HS : Save c = set_states [zeroState] c)
  end.
  { unfold Save. cbn [states set_states len_ length Z.of_nat].
    destruct (Z.leb_spec nvgMaxStates 0); [lia | reflexivity]. }
  rewrite HS. unfold updState, getState. cbn [states set_states len_ length
    Z.of_nat Z.sub Z.pos_sub Z.opp index Z.ltb Z.compare Z.to_nat nth_error bind
    removelast app].
  destruct (Z.to_nat nvgMaxFontImages) as [|n] eqn:En; [lia|].
  cbn. eexists. split; [reflexivity|]. cbn.
  rewrite Nat.sub_0_r. repeat split.
  unfold len_. cbn [length]. rewrite repeat_length. lia.
Qed.

End EmptyStack.

Lemma calls_without_a_state_panic_witness :
  call (pkg := Ref.package) (hlp := RefHelpers.helpers) 1
    (CMoveTo F32.one F32.one) zeroContext = None /\
  Restore zeroContext = zeroContext.
Proof.
  destruct (calls_without_a_state_panic (pkg := Ref.package)
              (hlp := RefHelpers.helpers) 1 zeroContext eq_refl)
    as (Hcall & _ & _ & _ & HR & _).
  split; [|exact HR].
  destruct (call 1 (CMoveTo F32.one F32.one) zeroContext) as [c|] eqn:E;
    [|reflexivity].
  destruct (Hcall _ _ E) as [H | ((x1 & y1 & x2 & y2 & r & H) & _)];
    discriminate H.
Defined.

Lemma BeginFrame_leaves_one_default_state_witness :
  exists ctx', BeginFrame (pkg := Ref.package) F32.two triangleFilled = Some ctx' /\
    states ctx' = [Ref.reset zeroState] /\
    commands ctx' = commands triangleFilled /\
    fringeWidth ctx' = F32.half.
Proof.
  destruct (BeginFrame_leaves_one_default_state (pkg := Ref.package) F32.two
              triangleFilled ltac:(reflexivity))
    as (c & Hc & Hs & _ & _ & Hf & _ & _ & Hcmd & _).
  exists c. split; [exact Hc|]. split; [exact Hs|]. split; [exact Hcmd|].
  rewrite Hf. vm_compute. reflexivity.
Defined.

Lemma createInternal_context_witness :
  exists ctx,
    createInternal (pkg := Ref.package) (hlp := RefHelpers.helpers)
      (mkParams true []) 7 = Some ctx /\
    fontImages ctx = [7; 0; 0; 0] /\ states ctx = [Ref.reset zeroState].
Proof.
  destruct (createInternal_context (pkg := Ref.package)
              (hlp := RefHelpers.helpers) (mkParams true []) 7
              ltac:(reflexivity) ltac:(reflexivity))
    as (c & Hc & Hs & _ & _ & _ & _ & _ & Hf & _).
  exists c. split; [exact Hc|]. split; [exact Hf | exact Hs].
Defined.

(** * The command buffer *)

(** ** Whole records *)

Lemma recordsWhole_app_n (n : nat) :
  forall a b, (length a <= n)%nat -> recordsWhole a = true ->
    recordsWhole (a ++ b) = recordsWhole b.
Proof.
  induction n as [|n IH]; intros a b Hn Ha.
  - destruct a; [reflexivity | cbn in Hn; lia].
  - destruct a as [|op rest]; [reflexivity|].
    cbn [length] in Hn. cbn [app]. cbn [recordsWhole] in Ha |- *.
    destruct ((F32.to_int op =? nvgMOVETO) || (F32.to_int op =? nvgLINETO)).
    { destruct rest as [|v1 [|v2 rest']]; try discriminate Ha.
      cbn [app]. apply IH; [cbn [length] in Hn; lia | exact Ha]. }
    destruct (F32.to_int op =? nvgBEZIERTO).
    { destruct rest as [|v1 [|v2 [|v3 [|v4 [|v5 [|v6 rest']]]]]];
        try discriminate Ha.
      cbn [app]. apply IH; [cbn [length] in Hn; lia | exact Ha]. }
    destruct (F32.to_int op =? nvgCLOSE).
    { apply IH; [lia | exact Ha]. }
    destruct (F32.to_int op =? nvgWINDING).
    { destruct rest as [|v1 rest']; try discriminate Ha.
      cbn [app]. apply IH; [cbn [length] in Hn; lia | exact Ha]. }
    apply IH; [lia | exact Ha].
Qed.

Lemma recordsWhole_app (a b : list float32) :
  recordsWhole a = true -> recordsWhole (a ++ b) = recordsWhole b.
Proof. apply (recordsWhole_app_n (length a)). lia. Qed.

Section Records.

Context {pkg : Package} {hlp : Helpers}.

Lemma transformCommands_whole_n (t : TransformMatrix) (n : nat) :
  forall vals, (length vals <= n)%nat -> recordsWhole vals = true ->
    exists vals', transformCommands t vals = Some vals' /\
      recordsWhole vals' = true /\ length vals' = length vals.
Proof.
  induction n as [|n IH]; intros vals Hn Hw.
  - destruct vals; [now exists [] | cbn in Hn; lia].
  - destruct vals as [|op rest]; [now exists []|].
    cbn [length] in Hn. cbn [recordsWhole] in Hw. cbn [transformCommands].
    destruct ((F32.to_int op =? nvgMOVETO) || (F32.to_int op =? nvgLINETO)) eqn:E1.
    { destruct rest as [|v1 [|v2 rest']]; try discriminate Hw.
      destruct (TransformPoint t v1 v2) as [tx ty].
      destruct (IH rest') as (r & Hr & Hrw & Hrl); [cbn [length] in Hn; lia | exact Hw|].
      rewrite Hr. cbn [bind]. eexists. split; [reflexivity|].
      cbn [recordsWhole]. rewrite E1. split; [exact Hrw | cbn [length]; lia]. }
    destruct (F32.to_int op =? nvgBEZIERTO) eqn:E2.
    { destruct rest as [|v1 [|v2 [|v3 [|v4 [|v5 [|v6 rest']]]]]];
        try discriminate Hw.
      destruct (TransformPoint t v1 v2) as [t1x t1y].
      destruct (TransformPoint t v3 v4) as [t2x t2y].
      destruct (TransformPoint t v5 v6) as [tx ty].
      destruct (IH rest') as (r & Hr & Hrw & Hrl); [cbn [length] in Hn; lia | exact Hw|].
      rewrite Hr. cbn [bind]. eexists. split; [reflexivity|].
      cbn [recordsWhole]. rewrite E1, E2. split; [exact Hrw | cbn [length]; lia]. }
    destruct (F32.to_int op =? nvgCLOSE) eqn:E3.
    { destruct (IH rest) as (r & Hr & Hrw & Hrl); [lia | exact Hw|].
      rewrite Hr. cbn [bind]. eexists. split; [reflexivity|].
      cbn [recordsWhole]. rewrite E1, E2, E3. split; [exact Hrw | cbn [length]; lia]. }
    destruct (F32.to_int op =? nvgWINDING) eqn:E4.
    { destruct rest as [|v1 rest']; try discriminate Hw.
      destruct (IH rest') as (r & Hr & Hrw & Hrl); [cbn [length] in Hn; lia | exact Hw|].
      rewrite Hr. cbn [bind]. eexists. split; [reflexivity|].
      cbn [recordsWhole]. rewrite E1, E2, E3, E4.
      split; [exact Hrw | cbn [length]; lia]. }
    destruct (IH rest) as (r & Hr & Hrw & Hrl); [lia | exact Hw|].
    rewrite Hr. cbn [bind]. eexists. split; [reflexivity|].
    cbn [recordsWhole]. rewrite E1, E2, E3, E4. split; [exact Hrw | cbn [length]; lia].
Qed.

Lemma transformCommands_whole (t : TransformMatrix) (vals : list float32) :
  recordsWhole vals = true ->
  exists vals', transformCommands t vals = Some vals' /\
    recordsWhole vals' = true /\ length vals' = length vals.
Proof. apply (transformCommands_whole_n t (length vals)). lia. Qed.

(** [appendCommand] on whole records that start with a move, a line or a
    curve (or with any record, when there are two values at least). *)
Lemma appendCommand_whole (vals : list float32) (ctx : Context) (state : nvgState) :
  getState ctx = Some state -> recordsWhole vals = true ->
  (2 <= length vals)%nat ->
  exists ctx' vals',
    appendCommand vals ctx = Some ctx' /\
    transformCommands (xform state) vals = Some vals' /\
    recordsWhole vals' = true /\ length vals' = length vals /\
    commands ctx' = commands ctx ++ vals' /\
    states ctx' = states ctx /\ cache ctx' = cache ctx.
Proof.
  intros Hst Hw Hlen.
  destruct (transformCommands_whole (xform state) vals Hw) as (vals' & Ht & Hw' & Hl').
  unfold appendCommand. rewrite Hst. cbn [bind]. rewrite Ht.
  destruct vals as [|v0 rest]; [cbn in Hlen; lia|].
  change (index (v0 :: rest) 0) with (Some v0). cbn [bind].
  assert (H2 : exists cX, index (v0 :: rest) (len_ (v0 :: rest) - 2) = Some cX).
  { unfold index, len_.
    destruct (Z.ltb_spec (Z.of_nat (length (v0 :: rest)) - 2) 0); [lia|].
    destruct (nth_error (v0 :: rest) (Z.to_nat (Z.of_nat (length (v0 :: rest)) - 2)))
      eqn:E; [eauto|].
    apply nth_error_None in E. lia. }
  assert (H1 : exists cY, index (v0 :: rest) (len_ (v0 :: rest) - 1) = Some cY).
  { unfold index, len_.
    destruct (Z.ltb_spec (Z.of_nat (length (v0 :: rest)) - 1) 0); [lia|].
    destruct (nth_error (v0 :: rest) (Z.to_nat (Z.of_nat (length (v0 :: rest)) - 1)))
      eqn:E; [eauto|].
    apply nth_error_None in E. lia. }
  destruct H2 as [cX H2]. destruct H1 as [cY H1]. rewrite H2, H1.
  destruct (negb (F32.to_int v0 =? nvgCLOSE) && negb (F32.to_int v0 =? nvgWINDING));
    cbn [bind]; eexists; exists vals'; repeat split; auto.
Qed.

End Records.

(** ** The records of an arc *)

Lemma index_app_last2 {X : Type} (l : list X) (a b : X) :
  index (l ++ [a; b]) (len_ (l ++ [a; b]) - 2) = Some a /\
  index (l ++ [a; b]) (len_ (l ++ [a; b]) - 1) = Some b.
Proof.
  unfold index, len_. rewrite length_app. cbn [length].
  destruct (Z.ltb_spec (Z.of_nat (length l + 2) - 2) 0); [lia|].
  destruct (Z.ltb_spec (Z.of_nat (length l + 2) - 1) 0); [lia|].
  replace (Z.to_nat (Z.of_nat (length l + 2) - 2)) with (length l + 0)%nat by lia.
  replace (Z.to_nat (Z.of_nat (length l + 2) - 1)) with (length l + 1)%nat by lia.
  rewrite !nth_error_app2 by lia.
  replace (length l + 0 - length l)%nat with 0%nat by lia.
  replace (length l + 1 - length l)%nat with 1%nat by lia.
  split; reflexivity.
Qed.

Section ArcRecords.

Context {pkg : Package}.

Lemma arcStep_later (move : nvgCommands) (cx cy r a0 da kappa : float32)
  (nDivs : Z) (st : arcLoop) (i : Z) :
  i <> 0 ->
  exists c1x c1y c2x c2y,
    values (arcStep move cx cy r a0 da kappa nDivs st i)
    = values st ++ [F32.of_Z nvgBEZIERTO; c1x; c1y; c2x; c2y;
                    fst (arcPoint cx cy r a0 da nDivs i);
                    snd (arcPoint cx cy r a0 da nDivs i)].
Proof.
  intros Hi. unfold arcStep, arcPoint.
  destruct (sinCosF _) as [dy_ dx_].
  destruct (Z.eqb_spec i 0) as [E | _]; [contradiction|].
  cbn [values fst snd]. eauto.
Qed.

Lemma arcStep_first (move : nvgCommands) (cx cy r a0 da kappa : float32)
  (nDivs : Z) (st : arcLoop) :
  values (arcStep move cx cy r a0 da kappa nDivs st 0)
  = values st ++ [F32.of_Z move;
                  fst (arcPoint cx cy r a0 da nDivs 0);
                  snd (arcPoint cx cy r a0 da nDivs 0)].
Proof.
  unfold arcStep, arcPoint. destruct (sinCosF _) as [dy_ dx_]. reflexivity.
Qed.

(** The rounds after the first: each appends one record of a curve, and the
    last two values are the point of the last round. *)
Lemma arc_rounds (move : nvgCommands) (cx cy r a0 da kappa : float32) (nDivs : Z) :
  forall (ks : list Z) (st : arcLoop) (d : Z),
    (forall i, In i ks -> i <> 0) -> ks <> [] ->
    exists body,
      values (fold_left (arcStep move cx cy r a0 da kappa nDivs) ks st)
      = values st ++ body ++
          [fst (arcPoint cx cy r a0 da nDivs (last ks d));
           snd (arcPoint cx cy r a0 da nDivs (last ks d))] /\
      (forall rest, recordsWhole ((body ++
          [fst (arcPoint cx cy r a0 da nDivs (last ks d));
           snd (arcPoint cx cy r a0 da nDivs (last ks d))]) ++ rest)
        = recordsWhole rest) /\
      (length body + 2 = 7 * length ks)%nat.
Proof.
  induction ks as [|i ks IH]; intros st d Hnz Hne; [contradiction|].
  cbn [fold_left].
  destruct (arcStep_later move cx cy r a0 da kappa nDivs st i)
    as (c1x & c1y & c2x & c2y & Hstep); [apply Hnz; now left|].
  destruct ks as [|i' ks'].
  - cbn [fold_left last]. rewrite Hstep.
    exists [F32.of_Z nvgBEZIERTO; c1x; c1y; c2x; c2y].
    split; [reflexivity|]. split; [intros rest; reflexivity | reflexivity].
  - destruct (IH (arcStep move cx cy r a0 da kappa nDivs st i) d)
      as (body & Hv & Hw & Hl).
    { intros k Hk. apply Hnz. now right. }
    { discriminate. }
    rewrite Hv, Hstep.
    change (last (i :: i' :: ks') d) with (last (i' :: ks') d).
    exists ([F32.of_Z nvgBEZIERTO; c1x; c1y; c2x; c2y;
             fst (arcPoint cx cy r a0 da nDivs i);
             snd (arcPoint cx cy r a0 da nDivs i)] ++ body).
    split; [now rewrite <- !app_assoc|]. split.
    + intros rest. rewrite <- !app_assoc.
      change (recordsWhole
                (body ++ [fst (arcPoint cx cy r a0 da nDivs (last (i' :: ks') d));
                          snd (arcPoint cx cy r a0 da nDivs (last (i' :: ks') d))]
                      ++ rest) = recordsWhole rest).
      rewrite app_assoc. apply Hw.
    + rewrite length_app. cbn [length] in *. unfold float32 in *. lia.
Qed.

Lemma upto_split (n : Z) :
  1 <= n ->
  upto n = 0 :: map Z.of_nat (seq 1 (Z.to_nat n)) /\
  (forall i, In i (map Z.of_nat (seq 1 (Z.to_nat n))) -> i <> 0) /\
  map Z.of_nat (seq 1 (Z.to_nat n)) <> [] /\
  last (map Z.of_nat (seq 1 (Z.to_nat n))) 0 = n /\
  length (map Z.of_nat (seq 1 (Z.to_nat n))) = Z.to_nat n.
Proof.
  intros Hn. unfold upto.
  replace (Z.to_nat (n + 1)) with (S (Z.to_nat n)) by lia.
  cbn [seq map Z.of_nat]. split; [reflexivity|]. split.
  { intros i Hi. apply in_map_iff in Hi. destruct Hi as (k & <- & Hk).
    apply in_seq in Hk. lia. }
  split.
  { destruct (Z.to_nat n) eqn:E; [lia | discriminate]. }
  split.
  { destruct (Z.to_nat n) as [|m] eqn:E; [lia|].
    rewrite seq_S, map_app. cbn [map]. rewrite last_last. lia. }
  now rewrite length_map, length_seq.
Qed.

(** The values of an arc: the record of the move to its first point, then
    one record of a curve for each of its [arcDivs] parts, the last two
    values being its last point. *)
Lemma arcValues_shape (move : nvgCommands) (cx cy r a0 da : float32)
  (dir : Direction) :
  exists body,
    arcValues move cx cy r a0 da dir
    = [F32.of_Z move;
       fst (arcPoint cx cy r a0 da (arcDivs da) 0);
       snd (arcPoint cx cy r a0 da (arcDivs da) 0)] ++ body ++
      [fst (arcPoint cx cy r a0 da (arcDivs da) (arcDivs da));
       snd (arcPoint cx cy r a0 da (arcDivs da) (arcDivs da))] /\
    (forall rest, recordsWhole ((body ++
       [fst (arcPoint cx cy r a0 da (arcDivs da) (arcDivs da));
        snd (arcPoint cx cy r a0 da (arcDivs da) (arcDivs da))]) ++ rest)
      = recordsWhole rest) /\
    Z.of_nat (length body) + 2 = 7 * arcDivs da.
Proof.
  pose proof (arcDivs_range da) as Hr.
  destruct (upto_split (arcDivs da) ltac:(lia)) as (Hu & Hnz & Hne & Hlast & Hlen).
  unfold arcValues. destruct (sinCosF _) as [sin_ cos_].
  rewrite Hu. cbn [fold_left].
  match goal with |- context [fold_left (arcStep ?m ?a ?b ?c ?d ?e ?k ?n) _ ?st] =>
    destruct (arc_rounds m a b c d e k n _ st 0 Hnz Hne) as (body & Hv & Hw & Hl);
    rewrite Hv
  end.
  rewrite Hlast in Hw |- *. rewrite arcStep_first. cbn [values app].
  exists body. split; [reflexivity|]. split; [exact Hw|].
  rewrite Hlen in Hl. lia.
Qed.

End ArcRecords.

(** ** What the calls do to the command buffer *)

Section Appending.

Context {pkg : Package} {hlp : Helpers}.

Lemma appendCommand_appends (vals : list float32) (ctx ctx' : Context) :
  recordsWhole vals = true -> appendCommand vals ctx = Some ctx' ->
  exists more, commands ctx' = commands ctx ++ more /\
    recordsWhole more = true /\ length more = length vals.
Proof.
  intros Hw H.
  destruct (getState ctx) as [state|] eqn:Hst;
    [|unfold appendCommand in H; rewrite Hst in H; discriminate].
  destruct (appendCommand_commands _ _ _ _ Hst H) as (vals' & Ht & Hc).
  destruct (transformCommands_whole (xform state) vals Hw) as (v & Hv & Hvw & Hvl).
  rewrite Hv in Ht. injection Ht as <-. now exists v.
Qed.

Lemma arcValues_whole (move : nvgCommands) (cx cy r a0 da : float32)
  (dir : Direction) :
  move = nvgMOVETO \/ move = nvgLINETO ->
  recordsWhole (arcValues move cx cy r a0 da dir) = true /\
  Z.of_nat (length (arcValues move cx cy r a0 da dir)) = 3 + 7 * arcDivs da.
Proof.
  intros Hm. destruct (arcValues_shape move cx cy r a0 da dir) as (body & -> & Hw & Hl).
  split.
  - specialize (Hw []). rewrite app_nil_r in Hw.
    destruct Hm as [-> | ->]; cbn [app recordsWhole]; exact Hw.
  - rewrite !length_app. cbn [length]. lia.
Qed.

Lemma Arc_appends (fuel : nat) (cx cy r a0 a1 : float32) (dir : Direction)
  (ctx ctx' : Context) :
  Arc fuel cx cy r a0 a1 dir ctx = Some ctx' ->
  exists more, commands ctx' = commands ctx ++ more /\ recordsWhole more = true.
Proof.
  unfold Arc. destruct (arcSweep fuel a0 a1 dir) as [da|]; cbn [bind]; [|discriminate].
  intros H.
  destruct (arcValues_whole (if 0 <? len_ (commands ctx) then nvgLINETO else nvgMOVETO)
              cx cy r a0 da dir) as [Hw _].
  { destruct (0 <? len_ (commands ctx)); auto. }
  destruct (appendCommand_appends _ _ _ Hw H) as (more & Hc & Hm & _).
  now exists more.
Qed.

Lemma Fill_commands (ctx ctx' : Context) :
  Fill ctx = Some ctx' -> commands ctx' = commands ctx.
Proof.
  unfold Fill. destruct (getState ctx) as [state|]; cbn [bind]; [|discriminate].
  destruct (flattenPaths ctx) as [ctx1|] eqn:E; cbn [bind]; [|discriminate].
  intros [= <-]. destruct (flattenPaths_inv _ _ E) as [c ->].
  match goal with |- commands (countFill ?c) = _ =>
    destruct (countFill_frame c) as (_ & _ & _ & H) end.
  rewrite H. reflexivity.
Qed.

Lemma Stroke_commands (ctx ctx' : Context) :
  Stroke ctx = Some ctx' -> commands ctx' = commands ctx.
Proof.
  unfold Stroke. destruct (getState ctx) as [state|]; cbn [bind]; [|discriminate].
  destruct (strokeCoverage (fringeWidth ctx) state) as [paint w].
  destruct (flattenPaths ctx) as [ctx1|] eqn:E; cbn [bind]; [|discriminate].
  destruct (existsb _ _); [discriminate|].
  intros [= <-]. destruct (flattenPaths_inv _ _ E) as [c ->].
  match goal with |- commands (countStroke ?c) = _ =>
    destruct (countStroke_frame c) as (_ & _ & _ & H) end.
  rewrite H. reflexivity.
Qed.

Lemma call_appends (fuel : nat) (op : Call) (ctx ctx' : Context) :
  call fuel op ctx = Some ctx' ->
  op = CBeginPath /\ commands ctx' = [] \/
  exists more, commands ctx' = commands ctx ++ more /\ recordsWhole more = true.
Proof.
  assert (Hsame : commands ctx' = commands ctx ->
            exists more, commands ctx' = commands ctx ++ more /\
                         recordsWhole more = true).
  { intros E. exists []. now rewrite app_nil_r. }
  assert (Happ : forall vals, recordsWhole vals = true ->
            appendCommand vals ctx = Some ctx' ->
            exists more, commands ctx' = commands ctx ++ more /\
                         recordsWhole more = true).
  { intros vals Hw H. destruct (appendCommand_appends _ _ _ Hw H) as (m & ? & ? & _).
    now exists m. }
  destruct op; cbn [call];
    try (intros H; right; apply Hsame;
         first [ now apply updState_commands in H
               | now apply Fill_commands in H
               | now apply Stroke_commands in H ]);
    try (intros H; right; revert H; apply Happ; reflexivity).
  - unfold IntersectScissor.
    destruct (getState ctx) as [state|]; cbn [bind]; [|discriminate].
    destruct (_ <? _)%f32; [intros H; right; apply Hsame; now apply updState_commands in H|].
    destruct (intersectRects _ _ _ _ _ _ _ _) as [[[r0 r1] r2] r3].
    intros H; right; apply Hsame; now apply updState_commands in H.
  - unfold SetFontSize. destruct (_ <? _)%f32; [discriminate|].
    intros H; right; apply Hsame; now apply updState_commands in H.
  - intros [= <-]. now left.
  - intros H. right. now apply Arc_appends in H.
  - unfold ArcTo. destruct (len_ (commands ctx) =? 0).
    { intros [= <-]. right. now apply Hsame. }
    destruct (arcToDegenerate _ _ _ _ _ _).
    { intros H; right; revert H; apply Happ; reflexivity. }
    destruct (arcToLegs ctx x1 y1 x2 y2) as [[[dx0 dy0] dx1] dy1].
    destruct (_ <? _)%f32.
    { intros H; right; revert H; apply Happ; reflexivity. }
    destruct (_ <? _)%f32; intros H; right; now apply Arc_appends in H.
  - unfold RoundedRect. destruct (_ <? _)%f32;
      intros H; right; revert H; apply Happ; reflexivity.
Qed.

Lemma calls_records_whole (fuel : nat) (cs : list Call) :
  forall ctx ctx', recordsWhole (commands ctx) = true ->
    calls fuel cs ctx = Some ctx' -> recordsWhole (commands ctx') = true.
Proof.
  induction cs as [|op cs IH]; intros ctx ctx' Hw; cbn [calls].
  - now intros [= <-].
  - destruct (call fuel op ctx) as [c1|] eqn:E; cbn [bind]; [|discriminate].
    apply IH.
    destruct (call_appends _ _ _ _ E) as [[_ ->] | (more & -> & Hm)];
      [reflexivity|].
    now rewrite recordsWhole_app.
Qed.

(** X9.  Whatever the call, what the command buffer held stays as it was:
    [BeginPath] empties the buffer, every other call leaves it alone or
    appends whole records to it (an opcode with all its operands).  So the
    buffer that [BeginPath] emptied consists of whole records after any
    sequence of calls. *)
Theorem calls_append_whole_records (fuel : nat) :
  (forall op ctx ctx', call fuel op ctx = Some ctx' ->
     op = CBeginPath /\ commands ctx' = [] \/
     exists more, commands ctx' = commands ctx ++ more /\
                  recordsWhole more = true) /\
  (forall cs ctx ctx', recordsWhole (commands ctx) = true ->
     calls fuel cs ctx = Some ctx' -> recordsWhole (commands ctx') = true) /\
  (forall cs ctx ctx', calls fuel cs (BeginPath ctx) = Some ctx' ->
     recordsWhole (commands ctx') = true).
Proof.
  split; [intros op ctx ctx'; apply call_appends|].
  split; [intros cs; apply calls_records_whole|].
  intros cs ctx ctx'. apply calls_records_whole. reflexivity.
Qed.

End Appending.

(** ** The walk of the flattener over whole records *)

Section Walk.

Context {pkg : Package} {hlp : Helpers}.

Lemma flattenCommands_app_n (tt dt : float32) (n : nat) :
  forall a b c, (length a <= n)%nat -> recordsWhole a = true ->
    flattenCommands tt dt (a ++ b) c
    = (c1 <- flattenCommands tt dt a c ;; flattenCommands tt dt b c1) /\
    exists c1, flattenCommands tt dt a c = Some c1.
Proof.
  induction n as [|n IH]; intros a b c Hn Ha.
  - destruct a; [split; [reflexivity | now exists c] | cbn in Hn; lia].
  - destruct a as [|op rest]; [split; [reflexivity | now exists c]|].
    cbn [length] in Hn. cbn [app]. cbn [recordsWhole] in Ha.
    cbn [flattenCommands].
    destruct (F32.to_int op =? nvgMOVETO) eqn:E0.
    { cbn [orb] in Ha. destruct rest as [|v1 [|v2 rest']]; try discriminate Ha.
      cbn [app]. apply IH; [cbn [length] in Hn; lia | exact Ha]. }
    destruct (F32.to_int op =? nvgLINETO) eqn:E1.
    { cbn [orb] in Ha. destruct rest as [|v1 [|v2 rest']]; try discriminate Ha.
      cbn [app]. apply IH; [cbn [length] in Hn; lia | exact Ha]. }
    cbn [orb] in Ha.
    destruct (F32.to_int op =? nvgBEZIERTO) eqn:E2.
    { destruct rest as [|v1 [|v2 [|v3 [|v4 [|v5 [|v6 rest']]]]]];
        try discriminate Ha.
      cbn [app].
      destruct (lastPoint c); apply IH; try exact Ha; cbn [length] in Hn; lia. }
    destruct (F32.to_int op =? nvgCLOSE) eqn:E3.
    { apply IH; [lia | exact Ha]. }
    destruct (F32.to_int op =? nvgWINDING) eqn:E4.
    { destruct rest as [|v1 rest']; try discriminate Ha.
      cbn [app]. apply IH; [cbn [length] in Hn; lia | exact Ha]. }
    apply IH; [lia | exact Ha].
Qed.

Lemma flattenCommands_app (tt dt : float32) (a b : list float32)
  (c : nvgPathCache) :
  recordsWhole a = true ->
  flattenCommands tt dt (a ++ b) c
  = (c1 <- flattenCommands tt dt a c ;; flattenCommands tt dt b c1).
Proof. intros H. now apply (flattenCommands_app_n tt dt (length a) a b c). Qed.

Lemma flattenCommands_whole (tt dt : float32) (a : list float32)
  (c : nvgPathCache) :
  recordsWhole a = true -> exists c1, flattenCommands tt dt a c = Some c1.
Proof. intros H. now apply (flattenCommands_app_n tt dt (length a) a [] c). Qed.

(** X10.  Over a buffer of whole records the walk of [flattenPaths] stays
    inside the buffer: it returns a cache, whatever the functions of the
    cache are; and it works record by record, the walk over a buffer followed
    by more values being the walk over the buffer and then the walk over the
    rest.  After [BeginPath] and any sequence of calls the walk returns. *)
Theorem flattenCommands_stays_inside (tt dt : float32) (c : nvgPathCache) :
  (forall cmds, recordsWhole cmds = true ->
     exists c1, flattenCommands tt dt cmds c = Some c1) /\
  (forall cmds more, recordsWhole cmds = true ->
     flattenCommands tt dt (cmds ++ more) c
     = (c1 <- flattenCommands tt dt cmds c ;; flattenCommands tt dt more c1)) /\
  (forall fuel cs ctx ctx', calls fuel cs (BeginPath ctx) = Some ctx' ->
     exists c1, flattenCommands tt dt (commands ctx') c = Some c1).
Proof.
  split; [intros; now apply flattenCommands_whole|].
  split; [intros; now apply flattenCommands_app|].
  intros fuel cs ctx ctx' H. apply flattenCommands_whole.
  revert H. apply calls_records_whole. reflexivity.
Qed.

End Walk.

(** ** From the recorded commands to the calls on the cache *)

Section Decoding.

Context {pkg : Package} {hlp : Helpers}.

(** The walk over a buffer of whole records that has grown by some values. *)
Lemma flattenCommands_grown (tt dt : float32) (cmds more : list float32)
  (c c1 : nvgPathCache) :
  recordsWhole cmds = true -> flattenCommands tt dt cmds c = Some c1 ->
  flattenCommands tt dt (cmds ++ more) c = flattenCommands tt dt more c1.
Proof.
  intros Hw H. rewrite flattenCommands_app by exact Hw. now rewrite H.
Qed.

(** X11.  What a path call records, the walk of [flattenPaths] reads back
    as the call on the cache it stands for, with the point as the transform
    of the call mapped it: after [MoveTo] the walk ends with [addPath] and
    [addPoint], after [LineTo] with [addPoint], after [BezierTo] with
    [tesselateBezier] from the last point of the cache (with nothing when the
    cache has no point), after [ClosePath] with [closePath], and after
    [PathWinding] with [pathWinding] for the winding of the call, as long as
    the winding survives the way through [float32] (as [Solid] and [Hole]
    do). *)
Theorem flattenCommands_reads_back (tt dt : float32) (ctx : Context)
  (state : nvgState) (c c1 : nvgPathCache) :
  getState ctx = Some state ->
  recordsWhole (commands ctx) = true ->
  flattenCommands tt dt (commands ctx) c = Some c1 ->
  let T := TransformPoint (xform state) in
  (forall px py, exists ctx', MoveTo px py ctx = Some ctx' /\
     flattenCommands tt dt (commands ctx') c
     = Some (addPoint (addPath c1) (fst (T px py)) (snd (T px py)) nvgPtCORNER dt)) /\
  (forall px py, exists ctx', LineTo px py ctx = Some ctx' /\
     flattenCommands tt dt (commands ctx') c
     = Some (addPoint c1 (fst (T px py)) (snd (T px py)) nvgPtCORNER dt)) /\
  (forall c1x c1y c2x c2y px py, exists ctx',
     BezierTo c1x c1y c2x c2y px py ctx = Some ctx' /\
     flattenCommands tt dt (commands ctx') c
     = Some match lastPoint c1 with
            | Some last =>
                tesselateBezier c1 (x last) (y last)
                  (fst (T c1x c1y)) (snd (T c1x c1y))
                  (fst (T c2x c2y)) (snd (T c2x c2y))
                  (fst (T px py)) (snd (T px py)) 0 nvgPtCORNER tt dt
            | None => c1
            end) /\
  (exists ctx', ClosePath ctx = Some ctx' /\
     flattenCommands tt dt (commands ctx') c = Some (closePath c1)) /\
  (forall w, F32.to_int (F32.of_Z w) = w ->
     exists ctx', PathWinding w ctx = Some ctx' /\
       flattenCommands tt dt (commands ctx') c = Some (pathWinding c1 w)) /\
  F32.to_int (F32.of_Z Solid) = Solid /\ F32.to_int (F32.of_Z Hole) = Hole.
Proof.
  intros Hst Hw Hc T. subst T.
  split.
  { intros px py. eexists. split; [exact (MoveTo_records ctx state px py Hst)|].
    cbn [commands set_commands set_commandXY].
    rewrite (flattenCommands_grown _ _ _ _ _ _ Hw Hc).
    cbn [flattenCommands]. rewrite opcode_MOVETO. reflexivity. }
  split.
  { intros px py. eexists. split; [exact (LineTo_records ctx state px py Hst)|].
    cbn [commands set_commands set_commandXY].
    rewrite (flattenCommands_grown _ _ _ _ _ _ Hw Hc).
    cbn [flattenCommands]. rewrite opcode_LINETO. reflexivity. }
  split.
  { intros c1x c1y c2x c2y px py. eexists.
    split; [exact (BezierTo_records ctx state c1x c1y c2x c2y px py Hst)|].
    cbn [commands set_commands set_commandXY].
    rewrite (flattenCommands_grown _ _ _ _ _ _ Hw Hc).
    cbn [flattenCommands]. rewrite opcode_BEZIERTO.
    change (2 =? nvgMOVETO) with false. change (2 =? nvgLINETO) with false.
    change (nvgBEZIERTO =? nvgBEZIERTO) with true. cbv iota.
    now destruct (lastPoint c1). }
  split.
  { eexists. split; [exact (ClosePath_records ctx state Hst)|].
    cbn [commands set_commands].
    rewrite (flattenCommands_grown _ _ _ _ _ _ Hw Hc). reflexivity. }
  split; [|split; reflexivity].
  intros w Hround. eexists.
  split; [exact (PathWinding_records ctx state w Hst)|].
  cbn [commands set_commands].
  rewrite (flattenCommands_grown _ _ _ _ _ _ Hw Hc).
  cbn [flattenCommands]. rewrite opcode_WINDING, Hround. reflexivity.
Qed.

End Decoding.

(** * Shapes *)

Lemma opcode_CLOSE : F32.to_int (F32.of_Z nvgCLOSE) = nvgCLOSE.
Proof. reflexivity. Qed.

Section Shapes.

Context {pkg : Package} {hlp : Helpers}.

(** [transformCommands], record by record. *)
Lemma transformCommands_move (t : TransformMatrix) (px py : float32)
  (rest : list float32) :
  transformCommands t (F32.of_Z nvgMOVETO :: px :: py :: rest)
  = (r <- transformCommands t rest ;;
     Some (F32.of_Z nvgMOVETO :: fst (TransformPoint t px py)
             :: snd (TransformPoint t px py) :: r)).
Proof.
  cbn [transformCommands]. rewrite opcode_MOVETO.
  change ((nvgMOVETO =? nvgMOVETO) || (nvgMOVETO =? nvgLINETO)) with true.
  cbv iota. now destruct (TransformPoint t px py).
Qed.

Lemma transformCommands_line (t : TransformMatrix) (px py : float32)
  (rest : list float32) :
  transformCommands t (F32.of_Z nvgLINETO :: px :: py :: rest)
  = (r <- transformCommands t rest ;;
     Some (F32.of_Z nvgLINETO :: fst (TransformPoint t px py)
             :: snd (TransformPoint t px py) :: r)).
Proof.
  cbn [transformCommands]. rewrite opcode_LINETO.
  change ((nvgLINETO =? nvgMOVETO) || (nvgLINETO =? nvgLINETO)) with true.
  cbv iota. now destruct (TransformPoint t px py).
Qed.

Lemma transformCommands_bezier (t : TransformMatrix)
  (c1x c1y c2x c2y px py : float32) (rest : list float32) :
  transformCommands t
    (F32.of_Z nvgBEZIERTO :: c1x :: c1y :: c2x :: c2y :: px :: py :: rest)
  = (r <- transformCommands t rest ;;
     Some (F32.of_Z nvgBEZIERTO
             :: fst (TransformPoint t c1x c1y) :: snd (TransformPoint t c1x c1y)
             :: fst (TransformPoint t c2x c2y) :: snd (TransformPoint t c2x c2y)
             :: fst (TransformPoint t px py) :: snd (TransformPoint t px py) :: r)).
Proof.
  cbn [transformCommands]. rewrite opcode_BEZIERTO.
  change ((nvgBEZIERTO =? nvgMOVETO) || (nvgBEZIERTO =? nvgLINETO)) with false.
  change (nvgBEZIERTO =? nvgBEZIERTO) with true. cbv iota.
  destruct (TransformPoint t c1x c1y), (TransformPoint t c2x c2y),
    (TransformPoint t px py). reflexivity.
Qed.

Lemma transformCommands_close (t : TransformMatrix) (rest : list float32) :
  transformCommands t (F32.of_Z nvgCLOSE :: rest)
  = (r <- transformCommands t rest ;; Some (F32.of_Z nvgCLOSE :: r)).
Proof. reflexivity. Qed.

(** The walk of the flattener, record by record. *)
Lemma flattenCommands_move (tt dt : float32) (px py : float32)
  (rest : list float32) (c : nvgPathCache) :
  flattenCommands tt dt (F32.of_Z nvgMOVETO :: px :: py :: rest) c
  = flattenCommands tt dt rest (addPoint (addPath c) px py nvgPtCORNER dt).
Proof. reflexivity. Qed.

Lemma flattenCommands_line (tt dt : float32) (px py : float32)
  (rest : list float32) (c : nvgPathCache) :
  flattenCommands tt dt (F32.of_Z nvgLINETO :: px :: py :: rest) c
  = flattenCommands tt dt rest (addPoint c px py nvgPtCORNER dt).
Proof. reflexivity. Qed.

Lemma flattenCommands_close (tt dt : float32) (rest : list float32)
  (c : nvgPathCache) :
  flattenCommands tt dt (F32.of_Z nvgCLOSE :: rest) c
  = flattenCommands tt dt rest (closePath c).
Proof. reflexivity. Qed.

(** The pen after [appendCommand]: the last two values, as they were
    passed, when the first value is not the opcode of a close or a winding;
    the pen as it was otherwise. *)
Lemma appendCommand_pen (vals : list float32) (ctx ctx' : Context) (v0 : float32) :
  appendCommand vals ctx = Some ctx' -> index vals 0 = Some v0 ->
  (F32.to_int v0 <> nvgCLOSE -> F32.to_int v0 <> nvgWINDING ->
   index vals (len_ vals - 2) = Some (commandX ctx') /\
   index vals (len_ vals - 1) = Some (commandY ctx')) /\
  (F32.to_int v0 = nvgCLOSE \/ F32.to_int v0 = nvgWINDING ->
   commandX ctx' = commandX ctx /\ commandY ctx' = commandY ctx).
Proof.
  unfold appendCommand.
  destruct (getState ctx) as [state|]; cbn [bind]; [|discriminate].
  intros H H0. rewrite H0 in H. cbn [bind] in H.
  destruct (Z.eqb_spec (F32.to_int v0) nvgCLOSE) as [Ec | Ec];
    destruct (Z.eqb_spec (F32.to_int v0) nvgWINDING) as [Ew | Ew];
    cbn [negb andb bind] in H.
  1-3: destruct (transformCommands _ _); cbn [bind] in H; [|discriminate];
       injection H as <-; split; [intros; contradiction | intros _; split; reflexivity].
  destruct (index vals (len_ vals - 2)) as [cX|]; cbn [bind] in H; [|discriminate].
  destruct (index vals (len_ vals - 1)) as [cY|]; cbn [bind] in H; [|discriminate].
  destruct (transformCommands _ _); cbn [bind] in H; [|discriminate].
  injection H as <-. split; [intros _ _; split; reflexivity|].
  intros [E | E]; contradiction.
Qed.

Lemma Rect_result (ctx : Context) (state : nvgState) (px py w h : float32) :
  getState ctx = Some state ->
  let T := TransformPoint (xform state) in
  Rect px py w h ctx
  = Some (set_commands
            (commands ctx ++
               [F32.of_Z nvgMOVETO; fst (T px py); snd (T px py);
                F32.of_Z nvgLINETO; fst (T px (py + h)%f32); snd (T px (py + h)%f32);
                F32.of_Z nvgLINETO; fst (T (px + w)%f32 (py + h)%f32);
                  snd (T (px + w)%f32 (py + h)%f32);
                F32.of_Z nvgLINETO; fst (T (px + w)%f32 py); snd (T (px + w)%f32 py);
                F32.of_Z nvgCLOSE])
            (set_commandXY py (F32.of_Z nvgCLOSE) ctx)).
Proof.
  intros Hst T. subst T. unfold Rect, appendCommand. rewrite Hst. cbn [bind].
  match goal with |- context [index ?l 0] =>
    change (index l 0) with (Some (F32.of_Z nvgMOVETO));
    change (index l (len_ l - 2)) with (Some py);
    change (index l (len_ l - 1)) with (Some (F32.of_Z nvgCLOSE))
  end.
  cbn [bind]. rewrite opcode_MOVETO.
  change (negb (nvgMOVETO =? nvgCLOSE) && negb (nvgMOVETO =? nvgWINDING)) with true.
  cbv iota. cbn [bind].
  rewrite transformCommands_move, !transformCommands_line, transformCommands_close.
  reflexivity.
Qed.

(** X12.  [Rect] records the four corners of the rectangle, mapped through
    the current transform, as a move, three lines and a close; the walk of
    the flattener reads them back as a new path of these four points,
    closed.  [RoundedRect] with a radius below 0.1 is [Rect]. *)
Theorem Rect_records_a_closed_path_of_four_points (ctx : Context)
  (state : nvgState) (px py w h : float32) :
  getState ctx = Some state ->
  let T := TransformPoint (xform state) in
  exists ctx',
    Rect px py w h ctx = Some ctx' /\
    commands ctx'
    = commands ctx ++
        [F32.of_Z nvgMOVETO; fst (T px py); snd (T px py);
         F32.of_Z nvgLINETO; fst (T px (py + h)%f32); snd (T px (py + h)%f32);
         F32.of_Z nvgLINETO; fst (T (px + w)%f32 (py + h)%f32);
           snd (T (px + w)%f32 (py + h)%f32);
         F32.of_Z nvgLINETO; fst (T (px + w)%f32 py); snd (T (px + w)%f32 py);
         F32.of_Z nvgCLOSE] /\
    (forall tt dt c c1, recordsWhole (commands ctx) = true ->
       flattenCommands tt dt (commands ctx) c = Some c1 ->
       flattenCommands tt dt (commands ctx') c
       = Some (closePath
                 (addPoint
                    (addPoint
                       (addPoint
                          (addPoint (addPath c1)
                             (fst (T px py)) (snd (T px py)) nvgPtCORNER dt)
                          (fst (T px (py + h)%f32)) (snd (T px (py + h)%f32))
                          nvgPtCORNER dt)
                       (fst (T (px + w)%f32 (py + h)%f32))
                       (snd (T (px + w)%f32 (py + h)%f32)) nvgPtCORNER dt)
                    (fst (T (px + w)%f32 py)) (snd (T (px + w)%f32 py))
                    nvgPtCORNER dt))) /\
    (forall r, (r <? F32.of_ratio 1 10)%f32 = true ->
       RoundedRect px py w h r ctx = Some ctx').
Proof.
  intros Hst T. subst T. eexists. split; [exact (Rect_result ctx state px py w h Hst)|].
  cbn [commands set_commands set_commandXY]. split; [reflexivity|]. split.
  - intros tt dt c c1 Hw Hc.
    rewrite (flattenCommands_grown _ _ _ _ _ _ Hw Hc).
    rewrite flattenCommands_move, !flattenCommands_line, flattenCommands_close.
    reflexivity.
  - intros r Hr. unfold RoundedRect. rewrite Hr.
    exact (Rect_result ctx state px py w h Hst).
Qed.

Lemma shape_pen (vals : list float32) (ctx ctx' : Context) (a : float32) :
  appendCommand vals ctx = Some ctx' ->
  index vals 0 = Some (F32.of_Z nvgMOVETO) ->
  index vals (len_ vals - 2) = Some a ->
  index vals (len_ vals - 1) = Some (F32.of_Z nvgCLOSE) ->
  (commandX ctx', commandY ctx') = (a, F32.of_Z nvgCLOSE).
Proof.
  intros H H0 H2 H1.
  destruct (proj1 (appendCommand_pen _ _ _ _ H H0)) as [E2 E1];
    [rewrite opcode_MOVETO; discriminate | rewrite opcode_MOVETO; discriminate|].
  rewrite H2 in E2. rewrite H1 in E1.
  injection E2 as <-. injection E1 as <-. reflexivity.
Qed.

(** X13.  After a shape the pen ([commandX], [commandY]) is on no point of
    the shape: [appendCommand] takes the last two values of the shape, and
    the last value of [Rect], [RoundedRect], [Ellipse] and [Circle] is the
    opcode of the close.  So after each of them [commandY] is 3 (the opcode
    [nvgCLOSE]) and [commandX] the ordinate that comes before it: [y] after
    [Rect], [y + ry] after [RoundedRect] with a radius not below 0.1, [cy]
    after [Ellipse] and [Circle]. *)
Theorem shapes_leave_the_pen_on_the_close_opcode (ctx ctx' : Context) :
  (forall px py w h,
     Rect px py w h ctx = Some ctx' ->
     (commandX ctx', commandY ctx') = (py, F32.of_Z nvgCLOSE)) /\
  (forall px py w h r,
     RoundedRect px py w h r ctx = Some ctx' ->
     (commandX ctx', commandY ctx')
     = (if (r <? F32.of_ratio 1 10)%f32 then py
        else (py + minF r (absF h * F32.half) * signF h)%f32,
        F32.of_Z nvgCLOSE)) /\
  (forall cx cy rx ry,
     Ellipse cx cy rx ry ctx = Some ctx' ->
     (commandX ctx', commandY ctx') = (cy, F32.of_Z nvgCLOSE)) /\
  (forall cx cy r,
     Circle cx cy r ctx = Some ctx' ->
     (commandX ctx', commandY ctx') = (cy, F32.of_Z nvgCLOSE)) /\
  F32.of_Z nvgCLOSE = F32.of_Z 3.
Proof.
  split; [intros px py w h H; now apply (shape_pen _ _ _ _ H)|].
  split.
  { intros px py w h r. unfold RoundedRect.
    destruct (r <? F32.of_ratio 1 10)%f32; intros H;
      now apply (shape_pen _ _ _ _ H). }
  split; [intros cx cy rx ry H; now apply (shape_pen _ _ _ _ H)|].
  split; [intros cx cy r H; now apply (shape_pen _ _ _ _ H) | reflexivity].
Qed.

(** X14.  [QuadTo] takes the point the curve starts from, from the pen: the
    point of the last [MoveTo], [LineTo] or [BezierTo] as it was passed, not
    as the transform mapped it.  After one of them at [(x0, y0)], [QuadTo]
    is the [BezierTo] whose control points lie at two thirds of the way from
    [(x0, y0)] and from the end point to the control point of the call; and
    after [QuadTo] the pen is the end point. *)
Theorem QuadTo_starts_from_the_pen (ctx c1 : Context) (x0 y0 : float32) :
  (MoveTo x0 y0 ctx = Some c1 \/ LineTo x0 y0 ctx = Some c1 \/
   exists c1x c1y c2x c2y, BezierTo c1x c1y c2x c2y x0 y0 ctx = Some c1) ->
  forall cx cy px py,
    QuadTo cx cy px py c1
    = BezierTo (x0 + F32.of_ratio 2 3 * (cx - x0))%f32
        (y0 + F32.of_ratio 2 3 * (cy - y0))%f32
        (px + F32.of_ratio 2 3 * (cx - px))%f32
        (py + F32.of_ratio 2 3 * (cy - py))%f32 px py c1 /\
    exists c2, QuadTo cx cy px py c1 = Some c2 /\
      (commandX c2, commandY c2) = (px, py).
Proof.
  intros H cx cy px py.
  assert (Hpen : commandX c1 = x0 /\ commandY c1 = y0 /\
                 exists state, getState c1 = Some state).
  { assert (Hgen : forall vals v0, appendCommand vals ctx = Some c1 ->
              index vals 0 = Some v0 ->
              F32.to_int v0 <> nvgCLOSE -> F32.to_int v0 <> nvgWINDING ->
              index vals (len_ vals - 2) = Some x0 ->
              index vals (len_ vals - 1) = Some y0 ->
              commandX c1 = x0 /\ commandY c1 = y0 /\
              exists state, getState c1 = Some state).
    { intros vals v0 Ha H0 Hc Hw H2 H1.
      destruct (proj1 (appendCommand_pen _ _ _ _ Ha H0) Hc Hw) as [E2 E1].
      rewrite H2 in E2. rewrite H1 in E1.
      injection E2 as E2. injection E1 as E1.
      split; [now symmetry|]. split; [now symmetry|].
      pose proof (appendCommand_states _ _ _ Ha) as Hs.
      unfold appendCommand in Ha.
      destruct (getState ctx) as [state|] eqn:Hst; [|discriminate].
      exists state. unfold getState in *. now rewrite Hs. }
    destruct H as [H | [H | (c1x & c1y & c2x & c2y & H)]];
      eapply Hgen; try exact H; try reflexivity; discriminate. }
  destruct Hpen as (HX & HY & state & Hst).
  unfold QuadTo. rewrite HX, HY. split; [reflexivity|].
  eexists. split; [exact (BezierTo_records c1 state _ _ _ _ px py Hst)|].
  reflexivity.
Qed.

End Shapes.

(** ** Arcs *)

Section Arcs.

Context {pkg : Package}.

Lemma transformCommands_hd (t : TransformMatrix) (op : float32)
  (rest vals' : list float32) :
  transformCommands t (op :: rest) = Some vals' -> hd_error vals' = Some op.
Proof.
  cbn [transformCommands].
  destruct ((F32.to_int op =? nvgMOVETO) || (F32.to_int op =? nvgLINETO)).
  { destruct rest as [|v1 [|v2 rest']]; try discriminate.
    destruct (TransformPoint t v1 v2).
    destruct (transformCommands t rest'); cbn [bind]; [|discriminate].
    now intros [= <-]. }
  destruct (F32.to_int op =? nvgBEZIERTO).
  { destruct rest as [|v1 [|v2 [|v3 [|v4 [|v5 [|v6 rest']]]]]]; try discriminate.
    destruct (TransformPoint t v1 v2), (TransformPoint t v3 v4),
      (TransformPoint t v5 v6).
    destruct (transformCommands t rest'); cbn [bind]; [|discriminate].
    now intros [= <-]. }
  destruct (F32.to_int op =? nvgCLOSE).
  { destruct (transformCommands t rest); cbn [bind]; [|discriminate].
    now intros [= <-]. }
  destruct (F32.to_int op =? nvgWINDING).
  { destruct rest as [|v1 rest']; [now intros [= <-]|].
    destruct (transformCommands t rest'); cbn [bind]; [|discriminate].
    now intros [= <-]. }
  destruct (transformCommands t rest); cbn [bind]; [|discriminate].
  now intros [= <-].
Qed.

(** [Arc] once the sweep is known. *)
Lemma Arc_with_sweep (fuel : nat) (cx cy r a0 a1 da : float32)
  (dir : Direction) (ctx : Context) (state : nvgState) :
  getState ctx = Some state ->
  arcSweep fuel a0 a1 dir = Some da ->
  exists ctx' more,
    Arc fuel cx cy r a0 a1 dir ctx = Some ctx' /\
    commands ctx' = commands ctx ++ more /\ recordsWhole more = true /\
    len_ more = 3 + 7 * arcDivs da /\
    hd_error more
    = Some (F32.of_Z (if 0 <? len_ (commands ctx) then nvgLINETO else nvgMOVETO)) /\
    (commandX ctx', commandY ctx')
    = arcPoint cx cy r a0 da (arcDivs da) (arcDivs da).
Proof.
  intros Hst Hda. unfold Arc. rewrite Hda. cbn [bind].
  set (move := if 0 <? len_ (commands ctx) then nvgLINETO else nvgMOVETO).
  assert (Hm : move = nvgMOVETO \/ move = nvgLINETO).
  { subst move. destruct (0 <? len_ (commands ctx)); auto. }
  destruct (arcValues_whole move cx cy r a0 da dir Hm) as [Hw Hl].
  destruct (appendCommand_whole _ ctx state Hst Hw ltac:(lia))
    as (ctx' & vals' & Ha & Ht & Hw' & Hl' & Hc & _).
  exists ctx', vals'. split; [exact Ha|]. split; [exact Hc|].
  split; [exact Hw'|]. split; [unfold len_; rewrite Hl'; exact Hl|].
  destruct (arcValues_shape move cx cy r a0 da dir) as (body & E & _ & _).
  split.
  - rewrite E in Ht. cbn [app] in Ht. now apply transformCommands_hd in Ht.
  - rewrite E, app_assoc in Ha.
    destruct (index_app_last2
                ([F32.of_Z move;
                  fst (arcPoint cx cy r a0 da (arcDivs da) 0);
                  snd (arcPoint cx cy r a0 da (arcDivs da) 0)] ++ body)
                (fst (arcPoint cx cy r a0 da (arcDivs da) (arcDivs da)))
                (snd (arcPoint cx cy r a0 da (arcDivs da) (arcDivs da))))
      as [I2 I1].
    destruct (proj1 (appendCommand_pen _ _ _ (F32.of_Z move) Ha eq_refl))
      as [E2 E1].
    { destruct Hm as [-> | ->]; discriminate. }
    { destruct Hm as [-> | ->]; discriminate. }
    unfold float32 in *. rewrite I2 in E2. rewrite I1 in E1.
    injection E2 as <-. injection E1 as <-.
    now destruct (arcPoint cx cy r a0 da (arcDivs da) (arcDivs da)).
Qed.

(** X15.  On a context with a state, and for angles whose difference is a
    binary32 number, [Arc] returns (one round of its loop on the sweep is
    enough).  It appends whole records and nothing else: a first record that
    is a line to the first point of the arc when the buffer holds commands
    and a move when it holds none, then one curve for each of the [nDivs]
    parts; [nDivs] is between 1 and 5, so between 10 and 38 values.  The pen
    is then on the last point of the arc. *)
Theorem Arc_returns_and_records (fuel : nat) (cx cy r a0 a1 : float32)
  (dir : Direction) (ctx : Context) (state : nvgState) :
  getState ctx = Some state ->
  valid_binary F32.prec F32.emax (a1 - a0)%f32 = true ->
  exists da ctx' more,
    arcSweep (S fuel) a0 a1 dir = Some da /\
    Arc (S fuel) cx cy r a0 a1 dir ctx = Some ctx' /\
    commands ctx' = commands ctx ++ more /\ recordsWhole more = true /\
    len_ more = 3 + 7 * arcDivs da /\ 10 <= len_ more <= 38 /\
    hd_error more
    = Some (F32.of_Z (if 0 <? len_ (commands ctx) then nvgLINETO else nvgMOVETO)) /\
    (commandX ctx', commandY ctx')
    = arcPoint cx cy r a0 da (arcDivs da) (arcDivs da).
Proof.
  intros Hst Hv. destruct (arcSweep_returns fuel a0 a1 dir Hv) as [da Hda].
  destruct (Arc_with_sweep (S fuel) cx cy r a0 a1 da dir ctx state Hst Hda)
    as (ctx' & more & HA & Hc & Hw & Hl & Hh & Hp).
  exists da, ctx', more. pose proof (arcDivs_range da).
  repeat (split; [assumption|]). split; [lia|]. split; assumption.
Qed.

End Arcs.

(** X16.  The sweep of [Arc], for angles whose difference [a1 - a0] is a
    binary32 number: the loops that bring it into one turn end after one
    round at most, so it is one of [a1 - a0], [a1 - a0 + 2*PI],
    [a1 - a0 - 2*PI], [2*PI] and [-2*PI]; for [Clockwise] it is never below
    zero, for any other direction never above. *)
Theorem Arc_sweep_is_one_turn_away (a0 a1 : float32) (dir : Direction) :
  valid_binary F32.prec F32.emax (a1 - a0)%f32 = true ->
  exists da,
    (forall fuel, arcSweep (S fuel) a0 a1 dir = Some da) /\
    (dir = Clockwise ->
       (da <? F32.zero)%f32 = false /\
       (da = PI_2 \/ da = (a1 - a0)%f32 \/ da = (a1 - a0 + PI_2)%f32)) /\
    (dir <> Clockwise ->
       (F32.zero <? da)%f32 = false /\
       (da = (- PI_2)%f32 \/ da = (a1 - a0)%f32 \/ da = (a1 - a0 - PI_2)%f32)).
Proof.
  intros Hv. unfold arcSweep.
  destruct (Z.eqb_spec dir Clockwise) as [Hd | Hd].
  - destruct (PI_2 <=? absF (a1 - a0))%f32 eqn:Hle.
    { exists PI_2. split; [reflexivity|]. split; [|contradiction].
      intros _. split; [reflexivity | now left]. }
    destruct (a1 - a0 <? F32.zero)%f32 eqn:Hneg.
    + pose proof (add_turn_nonneg _ Hv Hle Hneg) as H.
      exists (a1 - a0 + PI_2)%f32. split.
      { intros fuel. cbn [addTurns]. rewrite Hneg.
        destruct fuel; cbn [addTurns]; now rewrite H. }
      split; [|contradiction]. intros _. split; [exact H | auto].
    + exists (a1 - a0)%f32. split.
      { intros fuel. cbn [addTurns]. now rewrite Hneg. }
      split; [|contradiction]. intros _. split; [exact Hneg | auto].
  - destruct (PI_2 <=? absF (a1 - a0))%f32 eqn:Hle.
    { exists (- PI_2)%f32. split; [reflexivity|]. split; [contradiction|].
      intros _. split; [reflexivity | now left]. }
    destruct (F32.zero <? a1 - a0)%f32 eqn:Hpos.
    + pose proof (sub_turn_nonpos _ Hv Hle Hpos) as H.
      exists (a1 - a0 - PI_2)%f32. split.
      { intros fuel. cbn [subTurns]. rewrite Hpos.
        destruct fuel; cbn [subTurns]; now rewrite H. }
      split; [contradiction|]. intros _. split; [exact H | auto].
    + exists (a1 - a0)%f32. split.
      { intros fuel. cbn [subTurns]. now rewrite Hpos. }
      split; [contradiction|]. intros _. split; [exact Hpos | auto].
Qed.

(** * Drawing *)

Lemma int_small (z : Z) : isInt z -> int z = z.
Proof. unfold isInt, int. intros H. rewrite Z.mod_small; lia. Qed.

Lemma int_isInt (z : Z) : isInt (int z).
Proof.
  unfold isInt, int.
  pose proof (Z.mod_pos_bound (z + 2 ^ 63) (2 ^ 64) ltac:(lia)). lia.
Qed.

Lemma int_int_add (a b : Z) : int (int a + b) = int (a + b).
Proof.
  unfold int. f_equal.
  replace ((a + 2 ^ 63) mod 2 ^ 64 - 2 ^ 63 + b + 2 ^ 63)
    with ((a + 2 ^ 63) mod 2 ^ 64 + b) by lia.
  rewrite Zplus_mod_idemp_l. f_equal. lia.
Qed.

Lemma countFill_counts (ctx : Context) :
  (isInt (drawCallCount ctx) ->
   drawCallCount (countFill ctx)
   = int (drawCallCount ctx + 2 * len_ (paths (cache ctx)))) /\
  (isInt (fillTriCount ctx) ->
   fillTriCount (countFill ctx)
   = int (fillTriCount ctx
          + sumOver (fun p => len_ (fills p) - 2) (paths (cache ctx)))) /\
  (isInt (strokeTriCount ctx) ->
   strokeTriCount (countFill ctx)
   = int (strokeTriCount ctx
          + sumOver (fun p => len_ (strokes p) - 2) (paths (cache ctx)))) /\
  textTriCount (countFill ctx) = textTriCount ctx /\
  beside_cache (countFill ctx) = beside_cache ctx /\
  cache (countFill ctx) = cache ctx /\ params (countFill ctx) = params ctx.
Proof.
  unfold countFill. generalize (paths (cache ctx)) as l. intros l. revert ctx.
  induction l as [|p l IH]; intros ctx; cbn [fold_left sumOver fold_right].
  - change (len_ (@nil nvgPath)) with 0. rewrite !Z.add_0_r.
    repeat split; intros H; symmetry; now apply int_small.
  - fold (sumOver (fun p => len_ (fills p) - 2) l).
    fold (sumOver (fun p => len_ (strokes p) - 2) l).
    destruct (IH (set_counts (int (drawCallCount ctx + 2))
                    (int (fillTriCount ctx + (len_ (fills p) - 2)))
                    (int (strokeTriCount ctx + (len_ (strokes p) - 2))) ctx))
      as (H1 & H2 & H3 & H4 & H5 & H6 & H7).
    cbn [set_counts drawCallCount fillTriCount strokeTriCount textTriCount
         cache params] in H1, H2, H3, H4, H6, H7.
    replace (len_ (p :: l)) with (len_ l + 1)
      by (unfold len_; cbn [length]; lia).
    split; [|split; [|split; [|split; [|split]]]].
    + intros _. rewrite (H1 (int_isInt _)), int_int_add. f_equal. lia.
    + intros _. rewrite (H2 (int_isInt _)), int_int_add. f_equal. lia.
    + intros _. rewrite (H3 (int_isInt _)), int_int_add. f_equal. lia.
    + exact H4.
    + rewrite H5. reflexivity.
    + split; assumption.
Qed.

Lemma countStroke_counts (ctx : Context) :
  (isInt (drawCallCount ctx) ->
   drawCallCount (countStroke ctx)
   = int (drawCallCount ctx + 2 * len_ (paths (cache ctx)))) /\
  fillTriCount (countStroke ctx) = fillTriCount ctx /\
  (isInt (strokeTriCount ctx) ->
   strokeTriCount (countStroke ctx)
   = int (strokeTriCount ctx
          + sumOver (fun p => len_ (strokes p) - 2) (paths (cache ctx)))) /\
  textTriCount (countStroke ctx) = textTriCount ctx /\
  beside_cache (countStroke ctx) = beside_cache ctx /\
  cache (countStroke ctx) = cache ctx /\ params (countStroke ctx) = params ctx.
Proof.
  unfold countStroke. generalize (paths (cache ctx)) as l. intros l. revert ctx.
  induction l as [|p l IH]; intros ctx; cbn [fold_left sumOver fold_right].
  - change (len_ (@nil nvgPath)) with 0. rewrite !Z.add_0_r.
    repeat split; intros H; symmetry; now apply int_small.
  - fold (sumOver (fun p => len_ (strokes p) - 2) l).
    destruct (IH (set_counts (int (drawCallCount ctx + 2)) (fillTriCount ctx)
                    (int (strokeTriCount ctx + (len_ (strokes p) - 2))) ctx))
      as (H1 & H2 & H3 & H4 & H5 & H6 & H7).
    cbn [set_counts drawCallCount fillTriCount strokeTriCount textTriCount
         cache params] in H1, H2, H3, H4, H6, H7.
    replace (len_ (p :: l)) with (len_ l + 1)
      by (unfold len_; cbn [length]; lia).
    split; [|split; [|split; [|split; [|split]]]].
    + intros _. rewrite (H1 (int_isInt _)), int_int_add. f_equal. lia.
    + exact H2.
    + intros _. rewrite (H3 (int_isInt _)), int_int_add. f_equal. lia.
    + exact H4.
    + rewrite H5. reflexivity.
    + split; assumption.
Qed.

Section Drawing.

Context {pkg : Package}.

(** The shape of a [Fill] that returns. *)
Lemma Fill_inv (ctx ctx' : Context) :
  Fill ctx = Some ctx' ->
  exists state c,
    getState ctx = Some state /\ flattenPaths ctx = Some (set_cache c ctx) /\
    ctx' = countFill
             (render (RenderFill (scaleAlpha (alpha state) (fill state))
                        (scissor state) (fringeWidth ctx)
                        (bounds (fillCache (set_cache c ctx)))
                        (paths (fillCache (set_cache c ctx))))
                (set_cache (fillCache (set_cache c ctx)) ctx)).
Proof.
  unfold Fill. destruct (getState ctx) as [state|]; cbn [bind]; [|discriminate].
  destruct (flattenPaths ctx) as [ctx1|] eqn:E; cbn [bind]; [|discriminate].
  destruct (flattenPaths_inv _ _ E) as [c ->].
  intros [= <-]. exists state, c. repeat split.
Qed.

(** The shape of a [Stroke] that returns. *)
Lemma Stroke_shape (ctx ctx' : Context) :
  Stroke ctx = Some ctx' ->
  exists state c paint w,
    getState ctx = Some state /\ flattenPaths ctx = Some (set_cache c ctx) /\
    strokeCoverage (fringeWidth ctx) state = (paint, w) /\
    ctx' = countStroke
             (render (RenderStroke (scaleAlpha (alpha state) paint)
                        (scissor state) (fringeWidth ctx) w
                        (paths (strokeCache w state (set_cache c ctx))))
                (set_cache (strokeCache w state (set_cache c ctx)) ctx)).
Proof.
  unfold Stroke. destruct (getState ctx) as [state|]; cbn [bind]; [|discriminate].
  destruct (strokeCoverage (fringeWidth ctx) state) as [paint w] eqn:Ecov.
  destruct (flattenPaths ctx) as [ctx1|] eqn:E; cbn [bind]; [|discriminate].
  destruct (flattenPaths_inv _ _ E) as [c ->].
  destruct (existsb _ _); [discriminate|].
  intros [= <-]. exists state, c, paint, w. repeat split. exact Ecov.
Qed.

(** X17.  [Fill] and [Stroke] draw and change nothing that they draw from:
    the command buffer, the pen, the state stack with the paints of the
    states, the tolerances and the font images are after a call that returns
    what they were before; the renderer has been called once more.  The
    global alpha, and the coverage of a thin stroke, go into the paint handed
    to the renderer and not into the paint of the state, so a second [Fill]
    hands the renderer the paint of the first. *)
Theorem drawing_changes_cache_and_counters_only (ctx ctx' : Context) :
  (Fill ctx = Some ctx' ->
     beside_cache ctx' = beside_cache ctx /\
     exists state, getState ctx = Some state /\ getState ctx' = Some state /\
       rendered (params ctx')
       = RenderFill (scaleAlpha (alpha state) (fill state)) (scissor state)
           (fringeWidth ctx) (bounds (cache ctx')) (paths (cache ctx'))
         :: rendered (params ctx) /\
       forall c2, Fill ctx' = Some c2 ->
         rendered (params c2)
         = RenderFill (scaleAlpha (alpha state) (fill state)) (scissor state)
             (fringeWidth ctx) (bounds (cache c2)) (paths (cache c2))
           :: rendered (params ctx')) /\
  (Stroke ctx = Some ctx' ->
     beside_cache ctx' = beside_cache ctx /\
     exists state, getState ctx = Some state /\ getState ctx' = Some state /\
       exists call, rendered (params ctx') = call :: rendered (params ctx)).
Proof.
  assert (HF : forall a b, Fill a = Some b ->
     beside_cache b = beside_cache a /\
     exists state, getState a = Some state /\ getState b = Some state /\
       rendered (params b)
       = RenderFill (scaleAlpha (alpha state) (fill state)) (scissor state)
           (fringeWidth a) (bounds (cache b)) (paths (cache b))
         :: rendered (params a)).
  { intros a b H. destruct (Fill_inv _ _ H) as (state & c & Hst & _ & ->).
    match goal with |- context [countFill ?x] =>
      destruct (countFill_counts x) as (_ & _ & _ & _ & Hb & Hc & Hp) end.
    rewrite Hb. split; [reflexivity|]. exists state. split; [exact Hst|].
    split.
    - unfold getState in *.
      assert (Hs : states (countFill
                (render (RenderFill (scaleAlpha (alpha state) (fill state))
                           (scissor state) (fringeWidth a)
                           (bounds (fillCache (set_cache c a)))
                           (paths (fillCache (set_cache c a))))
                   (set_cache (fillCache (set_cache c a)) a))) = states a).
      { unfold beside_cache in Hb. now injection Hb. }
      now rewrite Hs.
    - rewrite Hp, Hc. reflexivity. }
  split.
  - intros H. destruct (HF _ _ H) as (Hb & state & Hst & Hst' & Hr).
    split; [exact Hb|]. exists state. repeat (split; [assumption|]).
    intros c2 H2. destruct (HF _ _ H2) as (Hb2 & state2 & Hs2 & _ & Hr2).
    rewrite Hst' in Hs2. injection Hs2 as <-.
    rewrite Hr2. f_equal. f_equal.
    unfold beside_cache in Hb. now injection Hb.
  - intros H. destruct (Stroke_shape _ _ H) as (state & c & paint & w & Hst & _ & _ & ->).
    match goal with |- context [countStroke ?x] =>
      destruct (countStroke_counts x) as (_ & _ & _ & _ & Hb & Hc & Hp) end.
    rewrite Hb. split; [reflexivity|]. exists state. split; [exact Hst|].
    split.
    + unfold getState in *.
      match goal with |- index (states ?x) _ = _ =>
        assert (Hs : states x = states ctx)
          by (unfold beside_cache in Hb; now injection Hb)
      end.
      now rewrite Hs.
    + rewrite Hp. eexists. reflexivity.
Qed.

(** X18.  The counters after a drawing call, for the paths of the cache as
    the call leaves it and counters that are values of [int]: [Fill] adds
    two to the count of draw calls for each path, and to the counts of fill
    and of stroke triangles the number of fill and of stroke vertices of
    each path less two; [Stroke] does the same but for the fill triangles,
    which it leaves alone.  The sums wrap around as those of [int] do, and
    are the plain sums when these are values of [int].  A path without
    vertices takes two off a count. *)
Theorem drawing_counts_triangles (ctx ctx' : Context) :
  isInt (drawCallCount ctx) -> isInt (fillTriCount ctx) ->
  isInt (strokeTriCount ctx) ->
  (Fill ctx = Some ctx' ->
     drawCallCount ctx'
     = int (drawCallCount ctx + 2 * len_ (paths (cache ctx'))) /\
     fillTriCount ctx'
     = int (fillTriCount ctx
            + sumOver (fun p => len_ (fills p) - 2) (paths (cache ctx'))) /\
     strokeTriCount ctx'
     = int (strokeTriCount ctx
            + sumOver (fun p => len_ (strokes p) - 2) (paths (cache ctx'))) /\
     textTriCount ctx' = textTriCount ctx) /\
  (Stroke ctx = Some ctx' ->
     drawCallCount ctx'
     = int (drawCallCount ctx + 2 * len_ (paths (cache ctx'))) /\
     fillTriCount ctx' = fillTriCount ctx /\
     strokeTriCount ctx'
     = int (strokeTriCount ctx
            + sumOver (fun p => len_ (strokes p) - 2) (paths (cache ctx'))) /\
     textTriCount ctx' = textTriCount ctx) /\
  (forall z, isInt z -> int z = z) /\
  (forall p : nvgPath, fills p = [] ->
     sumOver (fun p => len_ (fills p) - 2) [p] = -2).
Proof.
  intros Hd Hf Hs. split; [|split; [|split]].
  - intros H. destruct (Fill_inv _ _ H) as (state & c & _ & _ & ->).
    match goal with |- context [countFill ?x] =>
      destruct (countFill_counts x) as (H1 & H2 & H3 & H4 & _ & Hc & _) end.
    rewrite (H1 Hd), (H2 Hf), (H3 Hs), H4, Hc. repeat split.
  - intros H. destruct (Stroke_shape _ _ H) as (state & c & paint & w & _ & _ & _ & ->).
    match goal with |- context [countStroke ?x] =>
      destruct (countStroke_counts x) as (H1 & H2 & H3 & H4 & _ & Hc & _) end.
    rewrite (H1 Hd), H2, (H3 Hs), H4, Hc. repeat split.
  - apply int_small.
  - intros p Hp. cbn [sumOver fold_right]. rewrite Hp. reflexivity.
Qed.

(** X19.  Drawing with nothing recorded is no error: with an empty command
    buffer and an empty path cache [flattenPaths] sets the bounds to the
    empty box [(1e6, 1e6, -1e6, -1e6)] and leaves the cache without a path;
    [Fill] and [Stroke] return, and the renderer is called with what
    [expandFill] and [expandStroke] make of this cache. *)
Theorem drawing_an_empty_path (ctx : Context) (state : nvgState) :
  getState ctx = Some state -> commands ctx = [] -> paths (cache ctx) = [] ->
  let flat := set_cache (set_bounds initialBounds (cache ctx)) ctx in
  flattenPaths ctx = Some flat /\
  paths (cache flat) = [] /\ bounds (cache flat) = initialBounds /\
  (exists ctx', Fill ctx = Some ctx' /\ cache ctx' = fillCache flat /\
     rendered (params ctx')
     = RenderFill (scaleAlpha (alpha state) (fill state)) (scissor state)
         (fringeWidth ctx) (bounds (fillCache flat)) (paths (fillCache flat))
       :: rendered (params ctx)) /\
  (exists ctx', Stroke ctx = Some ctx' /\
     cache ctx'
     = strokeCache (snd (strokeCoverage (fringeWidth ctx) state)) state flat).
Proof.
  intros Hst Hcmd Hp flat.
  assert (Hflat : flattenPaths ctx = Some flat).
  { unfold flattenPaths. rewrite Hp, Hcmd. cbn [len_ length Z.of_nat Z.ltb Z.compare].
    cbn [flattenCommands bind]. cbn [paths set_bounds]. rewrite Hp.
    cbn [length seq flattenEach bind]. reflexivity. }
  split; [exact Hflat|]. split; [exact Hp|]. split; [reflexivity|]. split.
  - unfold Fill. rewrite Hst, Hflat. cbn [bind]. eexists. split; [reflexivity|].
    match goal with |- context [countFill ?x] =>
      destruct (countFill_counts x) as (_ & _ & _ & _ & _ & Hc & Hpa) end.
    rewrite Hc, Hpa. split; reflexivity.
  - unfold Stroke. rewrite Hst. cbn [bind].
    destruct (strokeCoverage (fringeWidth ctx) state) as [paint w].
    rewrite Hflat. cbn [bind snd].
    assert (He : existsb (fun path => count path =? 1) (paths (cache flat)) = false).
    { unfold flat. cbn [cache set_cache paths set_bounds]. now rewrite Hp. }
    rewrite He. eexists. split; [reflexivity|].
    match goal with |- context [countStroke ?x] =>
      destruct (countStroke_counts x) as (_ & _ & _ & _ & _ & Hc & _) end.
    rewrite Hc. reflexivity.
Qed.

End Drawing.

(** ** What flattening keeps *)

Lemma polyReverse_perm (l : list nvgPoint) (n : Z) : Permutation (polyReverse l n) l.
Proof.
  unfold polyReverse. rewrite <- (firstn_skipn (Z.to_nat n) l) at 3.
  apply Permutation_app_tail. symmetry. apply Permutation_rev.
Qed.

Lemma enforceWinding_perm (l : list nvgPoint) (n : Z) (w : Winding) :
  Permutation (enforceWinding l n w) l.
Proof.
  unfold enforceWinding. destruct (2 <? n); [|reflexivity].
  destruct (_ && _); [apply polyReverse_perm|].
  destruct (_ && _); [apply polyReverse_perm | reflexivity].
Qed.

Section Arena.

Context {pkg : Package}.

Lemma dirSteps_xy (m : nat) :
  forall st st', dirSteps m st = Some st' ->
    map xy (dl_points st') = map xy (dl_points st).
Proof.
  induction m as [|m IH]; intros st st'; cbn [dirSteps].
  - now intros [= <-].
  - destruct (dirStep st) as [st1|] eqn:E1; cbn [bind]; [|discriminate].
    intros H. rewrite (IH _ _ H).
    now destruct (dirStep_frame _ _ E1) as (_ & Hxy & _).
Qed.

Lemma closedCount_ge (d : float32) (pts : list nvgPoint) (cnt : Z) :
  cnt - 1 <= closedCount d pts cnt.
Proof.
  unfold closedCount.
  destruct (index pts (cnt - 1)); [|lia]. destruct (index pts 0); [|lia].
  destruct (_ && _); lia.
Qed.

Lemma flattenPath_keeps (d : float32) (c c' : nvgPathCache) (j : nat) :
  flattenPath d c j = Some c' ->
  Permutation (map xy (points c')) (map xy (points c)) /\
  vertexes c' = vertexes c /\
  exists p, nth_error (paths c) j = Some p.
Proof.
  unfold flattenPath.
  destruct (nth_error (paths c) j) as [path|] eqn:Ej; cbn [bind]; [|discriminate].
  destruct ((first path <? 0) || (len_ (points c) <? first path)); [discriminate|].
  destruct (index _ (count path - 1)) as [p0|]; cbn [bind]; [|discriminate].
  destruct (index _ 0) as [p1|]; cbn [bind]; [|discriminate].
  destruct (dirSteps _ _) as [st|] eqn:Est; cbn [bind]; [|discriminate].
  intros [= <-]. cbn [points vertexes]. split; [|split; [reflexivity | eauto]].
  apply dirSteps_xy in Est. cbn [dl_points] in Est.
  rewrite map_app, Est.
  rewrite <- (firstn_skipn (Z.to_nat (first path)) (points c)) at 3.
  rewrite map_app. apply Permutation_app_head. apply Permutation_map.
  apply enforceWinding_perm.
Qed.

Lemma flattenEach_keeps (d : float32) (js : list nat) :
  NoDup js ->
  forall c c', flattenEach d js c = Some c' ->
    Permutation (map xy (points c')) (map xy (points c)) /\
    vertexes c' = vertexes c /\
    length (points c') = length (points c) /\
    forall j p, nth_error (paths c) j = Some p ->
      exists p', nth_error (paths c') j = Some p' /\
        first p' = first p /\ winding p' = winding p /\
        (In j js -> 1 <= count p' <= count p /\ count p - 1 <= count p') /\
        (~ In j js -> p' = p).
Proof.
  induction js as [|j0 js IH]; intros Hnd c c'; cbn [flattenEach].
  - intros [= <-]. split; [reflexivity|]. split; [reflexivity|].
    split; [reflexivity|].
    intros j p Hp. exists p. split; [exact Hp|]. split; [reflexivity|].
    split; [reflexivity|]. split; [intros [] | reflexivity].
  - destruct (flattenPath d c j0) as [c1|] eqn:E1; cbn [bind]; [|discriminate].
    intros E. inversion Hnd as [|? ? Hnot Hnd']; subst.
    destruct (IH Hnd' _ _ E) as (Hperm & Hv & Hlen & Hpaths).
    destruct (flattenPath_keeps _ _ _ _ E1) as (Hperm1 & Hv1 & p0 & Hp0).
    destruct (flattenPath_step _ _ _ _ _ E1 Hp0)
      as (Hf0 & Hc0 & Hr0 & p1 & Hst & Hf1 & Hc1 & Hw1 & Hl1 & _).
    split; [now rewrite Hperm|]. split; [congruence|]. split; [congruence|].
    intros j p Hp. destruct (Nat.eq_dec j j0) as [-> | Hne].
    + rewrite Hp0 in Hp. injection Hp as <-.
      destruct (Hpaths j0 p1) as (p' & Hp' & Hf' & Hw' & _ & Hout).
      { rewrite Hst. eapply store_same. exact Hp0. }
      rewrite (Hout Hnot) in Hp'. exists p1. split; [exact Hp'|].
      split; [exact Hf1|]. split; [exact Hw1|]. split.
      * intros _. rewrite Hc1.
        pose proof (closedCount_bounds d (pathPoints c p0) (count p0) Hc0).
        pose proof (closedCount_ge d (pathPoints c p0) (count p0)). lia.
      * intros Hc. exfalso. apply Hc. now left.
    + destruct (Hpaths j p) as (p' & Hp' & Hf' & Hw' & Hin & Hout).
      { rewrite Hst. rewrite store_other by exact Hne. exact Hp. }
      exists p'. split; [exact Hp'|]. split; [exact Hf'|]. split; [exact Hw'|].
      split.
      * intros [Hj | Hj]; [congruence | now apply Hin].
      * intros Hc. apply Hout. intros Hj. apply Hc. now right.
Qed.

(** X20.  A flattening that starts from an empty path cache leaves the
    walk's work standing: the cache holds the points of the walk over the
    commands, each with its coordinates, in another order at most (the
    points of a path may have been put in reverse); as many paths, each with
    the first point and the winding the walk gave it and with its count of
    points or one less (the closing point), never less than one; and the
    vertices.  Outside of the cache the context is as it was. *)
Theorem flattenPaths_keeps_the_points (ctx ctx1 : Context) :
  paths (cache ctx) = [] -> flattenPaths ctx = Some ctx1 ->
  exists c1,
    flattenCommands (tessTol ctx) (distTol ctx) (commands ctx) (cache ctx) = Some c1 /\
    ctx1 = set_cache (cache ctx1) ctx /\
    Permutation (map xy (points (cache ctx1))) (map xy (points c1)) /\
    length (points (cache ctx1)) = length (points c1) /\
    vertexes (cache ctx1) = vertexes c1 /\
    length (paths (cache ctx1)) = length (paths c1) /\
    forall j p, nth_error (paths c1) j = Some p ->
      exists p', nth_error (paths (cache ctx1)) j = Some p' /\
        first p' = first p /\ winding p' = winding p /\
        1 <= count p' <= count p /\ count p - 1 <= count p'.
Proof.
  intros Hnil. unfold flattenPaths. rewrite Hnil.
  cbn [len_ length Z.of_nat Z.ltb Z.compare].
  destruct (flattenCommands _ _ _ _) as [c1|]; cbn [bind]; [|discriminate].
  destruct (flattenEach _ _ _) as [c3|] eqn:E3; cbn [bind]; [|discriminate].
  intros [= <-]. exists c1. split; [reflexivity|]. cbn [cache set_cache].
  split; [reflexivity|].
  destruct (flattenEach_keeps _ _ (seq_NoDup _ _) _ _ E3) as (Hperm & Hv & Hl & Hp).
  destruct (flattenEach_paths _ _ _ _ E3) as (Hlp & _ & _).
  cbn [points paths vertexes set_bounds] in *.
  repeat (split; [assumption|]).
  intros j p Hj. destruct (Hp j p Hj) as (p' & Hp' & Hf & Hw & Hin & _).
  exists p'. repeat (split; [assumption|]).
  assert (Hlt : (j < length (paths c1))%nat) by (apply nth_error_Some; congruence).
  destruct Hin as [H1 H2]; [apply in_seq; lia|]. split; assumption.
Qed.

End Arena.

(** * Scissoring *)

(** Half of a number that is not below zero is not below zero. *)
Lemma half_not_negative (a : float32) :
  (a <? F32.zero)%f32 = false -> (a * F32.half <? F32.zero)%f32 = false.
Proof.
  assert (Hh : F32.half = S754_finite false 8388608 (-24)) by (vm_compute; reflexivity).
  rewrite Hh. intros Ha.
  destruct a as [s | s | | s m e]; try reflexivity.
  - destruct s; [discriminate Ha | reflexivity].
  - destruct s; [discriminate Ha|].
    unfold F32.mul, SFmul. cbn [xorb].
    destruct (binary_round_aux_sign false (Zpos (m * 8388608)) (e + -24) loc_Exact
                _ eq_refl) as [-> | [-> | [-> | (m' & e' & ->)]]]; reflexivity.
Qed.

Section Scissoring.

Context {pkg : Package} {hlp : Helpers}.

(** X21.  [ResetScissor] leaves the state without a scissor, the extent
    being [(-1, -1)]; on such a state [IntersectScissor] is [Scissor], as it
    is whenever the first extent is below zero.  [Scissor] itself never
    leaves the state without a scissor, [maxF(0, w)] being not below zero:
    a width or a height below zero gives a scissor of no extent, and a later
    [IntersectScissor] intersects with it. *)
Theorem IntersectScissor_without_a_scissor_is_Scissor (ctx : Context)
  (state : nvgState) :
  getState ctx = Some state ->
  (exists c1, ResetScissor ctx = Some c1 /\
     getState c1
     = Some (set_scissor
               (mkScissor zeroMatrix ((- F32.one)%f32, (- F32.one)%f32)) state) /\
     forall px py w h, IntersectScissor px py w h c1 = Scissor px py w h c1) /\
  (forall px py w h,
     (fst (scissor_extent (scissor state)) <? F32.zero)%f32 = true ->
     IntersectScissor px py w h ctx = Scissor px py w h ctx) /\
  (forall px py w h, exists c2 sc,
     Scissor px py w h ctx = Some c2 /\
     getState c2 = Some (set_scissor sc state) /\
     scissor_xform sc
     = Multiply
         (TranslateMatrix (px + maxF F32.zero w * F32.half)%f32
            (py + maxF F32.zero h * F32.half)%f32)
         (xform state) /\
     scissor_extent sc
     = ((maxF F32.zero w * F32.half)%f32, (maxF F32.zero h * F32.half)%f32) /\
     ((forall a, (maxF F32.zero a <? F32.zero)%f32 = false) ->
      (fst (scissor_extent sc) <? F32.zero)%f32 = false /\
      (snd (scissor_extent sc) <? F32.zero)%f32 = false)).
Proof.
  intros Hst. split; [|split].
  - unfold ResetScissor. eexists. split; [exact (updState_some _ _ _ Hst)|].
    split; [apply getState_set_states_last|].
    intros px py w h. unfold IntersectScissor.
    rewrite getState_set_states_last. reflexivity.
  - intros px py w h Hneg. unfold IntersectScissor. rewrite Hst. cbn [bind].
    now rewrite Hneg.
  - intros px py w h. unfold Scissor. eexists. eexists.
    split; [exact (updState_some _ _ _ Hst)|].
    split; [apply getState_set_states_last|].
    cbn [scissor_xform scissor_extent fst snd].
    split; [reflexivity|]. split; [reflexivity|].
    intros Hmax. split; apply half_not_negative; apply Hmax.
Qed.

End Scissoring.

Lemma IntersectScissor_without_a_scissor_is_Scissor_witness :
  exists c1,
    ResetScissor (frameContext F32.one true) = Some c1 /\
    IntersectScissor (pkg := Ref.package) (hlp := RefHelpers.helpers)
      F32.one F32.one F32.two F32.two c1
    = Scissor (pkg := Ref.package) (hlp := RefHelpers.helpers)
        F32.one F32.one F32.two F32.two c1.
Proof.
  destruct (proj1 (IntersectScissor_without_a_scissor_is_Scissor
                     (pkg := Ref.package) (hlp := RefHelpers.helpers)
                     (frameContext F32.one true) (Ref.reset zeroState)
                     ltac:(vm_compute; reflexivity)))
    as (c1 & Hc & _ & H).
  exists c1. split; [exact Hc | apply H].
Defined.

(** * Font images *)

Lemma index_app_here {X : Type} (pre post : list X) (v : X) :
  index (pre ++ v :: post) (Z.of_nat (length pre)) = Some v.
Proof.
  unfold index. destruct (Z.ltb_spec (Z.of_nat (length pre)) 0); [lia|].
  rewrite Nat2Z.id, nth_error_app2 by lia. now rewrite Nat.sub_diag.
Qed.

Lemma store_app_here {X : Type} (pre post : list X) (v w : X) :
  store (pre ++ v :: post) (length pre) w = pre ++ w :: post.
Proof. induction pre as [|a pre IH]; cbn; [reflexivity | now rewrite IH]. Qed.

Lemma assign_app_here {X : Type} (pre post : list X) (v w : X) :
  assign (pre ++ v :: post) (Z.of_nat (length pre)) w = Some (pre ++ w :: post).
Proof.
  unfold assign. rewrite index_app_here. cbn [bind].
  now rewrite Nat2Z.id, store_app_here.
Qed.

Lemma clearFontImages_spec (rest : list Z) :
  forall pre,
    clearFontImages (length rest) (Z.of_nat (length pre)) (pre ++ rest)
    = Some (pre ++ repeat 0 (length rest)).
Proof.
  induction rest as [|v rest IH]; intros pre; cbn [clearFontImages length repeat].
  - reflexivity.
  - rewrite assign_app_here. cbn [bind].
    replace (Z.of_nat (length pre) + 1) with (Z.of_nat (length (pre ++ [0])))
      by (rewrite length_app; cbn [length]; lia).
    replace (pre ++ 0 :: rest) with ((pre ++ [0]) ++ rest)
      by (now rewrite <- app_assoc).
    rewrite IH. now rewrite <- app_assoc.
Qed.

Section FontImageLoops.

Context {hlp : Helpers} {tex : Textures}.

(** The loop of [EndFrame] over the images before the current one: the
    images it has kept are at the front, then a gap as long as the number of
    images it has deleted, then the images it has not yet come to. *)
Lemma compactFontImages_spec (iw ih : Z) (todo : list Z) :
  forall (b : Backend) (kept gap rest : list Z) (i j : Z),
    i = Z.of_nat (length kept + length gap) -> j = Z.of_nat (length kept) ->
    exists gap',
      compactFontImages (length todo) i iw ih b (kept ++ gap ++ todo ++ rest) j
      = Some (fst (survivors iw ih b todo),
              (kept ++ snd (survivors iw ih b todo)) ++ gap' ++ rest,
              j + Z.of_nat (length (snd (survivors iw ih b todo)))) /\
      (length (snd (survivors iw ih b todo)) + length gap'
       = length gap + length todo)%nat.
Proof.
  induction todo as [|img todo IH]; intros b kept gap rest i j Hi Hj.
  - exists gap. cbn [length compactFontImages survivors fst snd app].
    rewrite app_nil_r, Z.add_0_r. split; [reflexivity | lia].
  - cbn [length compactFontImages survivors].
    assert (Hidx : index (kept ++ gap ++ (img :: todo) ++ rest) i = Some img).
    { replace (kept ++ gap ++ (img :: todo) ++ rest)
        with ((kept ++ gap) ++ img :: todo ++ rest)
        by (now rewrite <- app_assoc).
      rewrite Hi, <- length_app. apply index_app_here. }
    rewrite Hidx. cbn [bind].
    destruct (renderGetTextureSize b img) as [nw nh].
    destruct ((nw <? iw) || (nh <? ih)).
    + destruct (IH (renderDeleteTexture b img) kept (gap ++ [img]) rest (i + 1) j)
        as (gap' & Hloop & Hlen).
      { rewrite length_app. cbn [length]. lia. }
      { exact Hj. }
      exists gap'. split.
      * replace (kept ++ gap ++ (img :: todo) ++ rest)
          with (kept ++ (gap ++ [img]) ++ todo ++ rest)
          by (now rewrite <- !app_assoc).
        exact Hloop.
      * rewrite length_app in Hlen. cbn [length] in Hlen. lia.
    + assert (Hassign : exists gap1,
                assign (kept ++ gap ++ (img :: todo) ++ rest) j img
                = Some ((kept ++ [img]) ++ gap1 ++ todo ++ rest) /\
                length gap1 = length gap).
      { destruct gap as [|g0 gap].
        - exists []. split; [|reflexivity]. cbn [app]. rewrite Hj.
          rewrite assign_app_here. now rewrite <- app_assoc.
        - exists (gap ++ [img]). split; [|rewrite length_app; cbn [length]; lia].
          cbn [app]. rewrite Hj. rewrite assign_app_here.
          rewrite <- !app_assoc. reflexivity. }
      destruct Hassign as (gap1 & Ha & Hg1). rewrite Ha. cbn [bind].
      destruct (IH b (kept ++ [img]) gap1 rest (i + 1) (j + 1))
        as (gap' & Hloop & Hlen).
      { rewrite length_app. cbn [length]. lia. }
      { rewrite length_app. cbn [length]. lia. }
      rewrite Hloop.
      destruct (survivors iw ih b todo) as [b' ks]. cbn [fst snd length].
      exists gap'. split.
      * replace ((kept ++ [img]) ++ ks) with (kept ++ img :: ks)
          by (now rewrite <- app_assoc).
        f_equal. f_equal. lia.
      * cbn [snd] in Hlen. lia.
Qed.

End FontImageLoops.

Lemma index_split {X : Type} (l : list X) (i : Z) (v : X) :
  index l i = Some v ->
  l = firstn (Z.to_nat i) l ++ v :: skipn (S (Z.to_nat i)) l /\
  length (firstn (Z.to_nat i) l) = Z.to_nat i.
Proof.
  unfold index. destruct (Z.ltb_spec i 0) as [|Hi]; [discriminate|].
  intros Hn. pose proof (nth_error_split l (Z.to_nat i) Hn) as (l1 & l2 & E & Hl).
  rewrite <- Hl. subst l.
  assert (H1 : firstn (length l1) (l1 ++ v :: l2) = l1).
  { rewrite firstn_app, firstn_all, Nat.sub_diag. cbn [firstn].
    apply app_nil_r. }
  assert (H2 : skipn (S (length l1)) (l1 ++ v :: l2) = l2).
  { rewrite skipn_app, skipn_all2 by lia.
    replace (S (length l1) - length l1)%nat with 1%nat by lia. reflexivity. }
  rewrite H1, H2. split; reflexivity.
Qed.

Section FontImagesOfAFrame.

Context {hlp : Helpers} {tex : Textures}.

(** The frame that ends with a current font image other than the first. *)
Lemma EndFrame_compaction (b : Backend) (ctx : Context) (cur : Z) :
  len_ (fontImages ctx) = nvgMaxFontImages ->
  0 < fontImageIdx ctx ->
  index (fontImages ctx) (fontImageIdx ctx) = Some cur -> cur <> 0 ->
  let size := renderGetTextureSize (renderFlush b) cur in
  let earlier := firstn (Z.to_nat (fontImageIdx ctx)) (fontImages ctx) in
  let kept := snd (survivors (fst size) (snd size) (renderFlush b) earlier) in
  EndFrame b ctx
  = Some (fst (survivors (fst size) (snd size) (renderFlush b) earlier),
          set_fontImages
            (cur :: (tl kept ++ firstn 1 kept) ++
               repeat 0 (Z.to_nat nvgMaxFontImages - 1 - length kept))
            0 ctx).
Proof.
  intros Hlen Hidx Hcur Hnz size earlier kept.
  unfold EndFrame.
  destruct (Z.eqb_spec (fontImageIdx ctx) 0); [lia|]. cbn [negb].
  rewrite Hcur. cbn [bind].
  destruct (Z.eqb_spec cur 0); [contradiction|].
  fold size. destruct size as [iw ih] eqn:Esize. cbn [fst snd] in kept.
  destruct (index_split _ _ _ Hcur) as [Esplit Hpre]. fold earlier in Esplit, Hpre.
  set (post := skipn (S (Z.to_nat (fontImageIdx ctx))) (fontImages ctx)) in *.
  destruct (compactFontImages_spec iw ih earlier (renderFlush b) [] [] (cur :: post)
              0 0 eq_refl eq_refl) as (gap' & Hloop & Hgap).
  cbn [app length] in Hloop, Hgap. fold kept in Hloop, Hgap.
  rewrite <- Hpre. rewrite Esplit at 1. rewrite Hloop. cbn [bind].
  assert (Hn : Z.to_nat nvgMaxFontImages
               = (length kept + length gap' + 1 + length post)%nat).
  { rewrite <- Hlen. unfold len_. rewrite Nat2Z.id. rewrite Esplit.
    rewrite length_app. cbn [length]. lia. }
  assert (HR : exists r0 R', gap' ++ cur :: post = r0 :: R' /\
                 length R' = (length gap' + length post)%nat).
  { destruct gap' as [|g gs]; cbn [app].
    - exists cur, post. split; reflexivity.
    - exists g, (gs ++ cur :: post). split; [reflexivity|].
      rewrite length_app. cbn [length]. lia. }
  destruct HR as (r0 & R' & ER & HR'). rewrite ER.
  assert (Hclear : Z.to_nat (nvgMaxFontImages - (0 + Z.of_nat (length kept) + 1))
                   = length R') by lia.
  rewrite Hclear.
  destruct kept as [|k0 ks] eqn:Ek.
  - cbn [app length Z.of_nat].
    change (index (r0 :: R') 0) with (Some r0). cbn [bind].
    change (assign (r0 :: R') (0 + 0) r0) with (Some (r0 :: R')). cbn [bind].
    change (assign (r0 :: R') 0 cur) with (Some (cur :: R')). cbn [bind].
    change (0 + 0 + 1) with (Z.of_nat (length [cur])).
    change (cur :: R') with ([cur] ++ R').
    rewrite clearFontImages_spec. cbn [bind app tl firstn].
    do 4 f_equal. f_equal. cbn [length] in *. lia.
  - change (index ((k0 :: ks) ++ r0 :: R') 0) with (Some k0). cbn [bind].
    replace (0 + Z.of_nat (length (k0 :: ks))) with (Z.of_nat (length (k0 :: ks)))
      by lia.
    rewrite assign_app_here. cbn [bind app].
    change (assign (k0 :: ks ++ k0 :: R') 0 cur) with (Some (cur :: ks ++ k0 :: R')).
    cbn [bind].
    replace (Z.of_nat (length (k0 :: ks)) + 1)
      with (Z.of_nat (length (cur :: ks ++ [k0])))
      by (cbn [length]; rewrite length_app; cbn [length]; lia).
    replace (cur :: ks ++ k0 :: R') with ((cur :: ks ++ [k0]) ++ R')
      by (cbn [app]; now rewrite <- app_assoc).
    rewrite clearFontImages_spec. cbn [bind app tl firstn].
    do 3 f_equal. f_equal. rewrite <- app_assoc. cbn [app].
    rewrite <- app_assoc. cbn [app]. do 3 f_equal.
    cbn [length] in *. lia.
Qed.

(** X22.  [EndFrame] with a current font image that is not the first (the
    array of font images having [nvgMaxFontImages] entries): the font images
    before the current one that are narrower or lower than it are deleted in
    the backend, in their order; the current image becomes the first and
    [fontImageIdx] zero; the images that were kept follow, the first of them
    moved behind the others; all other entries are zero.  With
    [fontImageIdx] zero, or no current image, [EndFrame] only flushes. *)
Theorem EndFrame_compacts_the_font_images (b : Backend) (ctx : Context) :
  (fontImageIdx ctx = 0 -> EndFrame b ctx = Some (renderFlush b, ctx)) /\
  (fontImageIdx ctx <> 0 -> index (fontImages ctx) (fontImageIdx ctx) = Some 0 ->
     EndFrame b ctx = Some (renderFlush b, ctx)) /\
  (fontImageIdx ctx <> 0 -> index (fontImages ctx) (fontImageIdx ctx) = None ->
     EndFrame b ctx = None) /\
  (forall cur,
     len_ (fontImages ctx) = nvgMaxFontImages ->
     0 < fontImageIdx ctx ->
     index (fontImages ctx) (fontImageIdx ctx) = Some cur -> cur <> 0 ->
     let size := renderGetTextureSize (renderFlush b) cur in
     let earlier := firstn (Z.to_nat (fontImageIdx ctx)) (fontImages ctx) in
     let kept := snd (survivors (fst size) (snd size) (renderFlush b) earlier) in
     EndFrame b ctx
     = Some (fst (survivors (fst size) (snd size) (renderFlush b) earlier),
             set_fontImages
               (cur :: (tl kept ++ firstn 1 kept) ++
                  repeat 0 (Z.to_nat nvgMaxFontImages - 1 - length kept))
               0 ctx)).
Proof.
  split; [intros H0; unfold EndFrame; now rewrite H0|].
  split.
  { intros Hidx H0. unfold EndFrame.
    destruct (Z.eqb_spec (fontImageIdx ctx) 0); [contradiction|].
    cbn [negb]. rewrite H0. reflexivity. }
  split.
  { intros Hidx H0. unfold EndFrame.
    destruct (Z.eqb_spec (fontImageIdx ctx) 0); [contradiction|].
    cbn [negb]. rewrite H0. reflexivity. }
  intros cur. apply EndFrame_compaction.
Qed.

(** X23.  [Delete] asks the backend to delete each font image that is not
    zero, in the order of the array, and then to delete itself; it leaves
    every entry of the array zero and the rest of the context as it was.
    Deleting once more deletes no image. *)
Theorem Delete_deletes_each_font_image_once (b : Backend) (ctx : Context) :
  let imgs := fontImages ctx in
  Delete b ctx
  = (renderDelete
       (fold_left renderDeleteTexture (filter (fun img => negb (img =? 0)) imgs) b),
     set_fontImages (repeat 0 (length imgs)) (fontImageIdx ctx) ctx) /\
  forall b', Delete b' (snd (Delete b ctx)) = (renderDelete b', snd (Delete b ctx)).
Proof.
  assert (Hloop : forall imgs b0,
            deleteFontImages b0 imgs
            = (fold_left renderDeleteTexture
                 (filter (fun img => negb (img =? 0)) imgs) b0,
               repeat 0 (length imgs))).
  { induction imgs as [|img imgs IH]; intros b0; cbn [deleteFontImages filter
      fold_left length repeat]; [reflexivity|].
    destruct (Z.eqb_spec img 0) as [-> | Hne]; cbn [negb];
      rewrite IH; reflexivity. }
  assert (Hz : forall n, filter (fun img => negb (img =? 0)) (repeat 0 n) = []).
  { induction n; cbn; auto. }
  intros imgs. subst imgs.
  assert (E : Delete b ctx
              = (renderDelete
                   (fold_left renderDeleteTexture
                      (filter (fun img => negb (img =? 0)) (fontImages ctx)) b),
                 set_fontImages (repeat 0 (length (fontImages ctx)))
                   (fontImageIdx ctx) ctx)).
  { unfold Delete. rewrite Hloop. reflexivity. }
  split; [exact E|].
  intros b'. rewrite E. cbn [snd]. unfold Delete.
  cbn [fontImages set_fontImages fontImageIdx]. rewrite Hloop, Hz, repeat_length.
  reflexivity.
Qed.

End FontImagesOfAFrame.

Lemma EndFrame_compacts_the_font_images_witness :
  EndFrame (hlp := RefHelpers.helpers) (tex := RefHelpers.textures atlasSize)
    [] atlasContext
  = Some ([11], set_fontImages [13; 12; 0; 0] 0 atlasContext).
Proof.
  apply (proj2 (proj2 (proj2 (EndFrame_compacts_the_font_images
                                (hlp := RefHelpers.helpers)
                                (tex := RefHelpers.textures atlasSize)
                                [] atlasContext))) 13).
  - reflexivity.
  - reflexivity.
  - reflexivity.
  - discriminate.
Defined.

(** * Paints and scissors under a changing transform *)

Section PaintsUnderTransforms.

Context {pkg : Package} {hlp : Helpers}.

Lemma call_onTransform (fuel : nat) (op : Call) (ctx ctx' : Context)
  (state : nvgState) :
  onTransform op = true -> getState ctx = Some state ->
  call fuel op ctx = Some ctx' ->
  exists t, ctx' = set_states (removelast (states ctx) ++ [set_xform t state]) ctx.
Proof.
  intros Hop Hst.
  destruct op; cbn [onTransform] in Hop; try discriminate Hop; cbn [call];
    cbv beta delta [SetTransform SetTransformByValue ResetTransform Translate
      Rotate SkewX SkewY Scale];
    rewrite (updState_some _ _ _ Hst); intros [= <-]; eexists; reflexivity.
Qed.

Lemma calls_onTransform (fuel : nat) (cs : list Call) :
  forall ctx ctx' state,
    forallb onTransform cs = true -> getState ctx = Some state ->
    calls fuel cs ctx = Some ctx' ->
    exists state', getState ctx' = Some state' /\
      paintsAndScissor state' = paintsAndScissor state /\
      alpha state' = alpha state /\
      ctx' = set_states (states ctx') ctx.
Proof.
  induction cs as [|op cs IH]; intros ctx ctx' state; cbn [calls forallb].
  - intros _ Hst [= <-]. exists state. repeat split; try assumption.
    symmetry. apply set_states_states.
  - intros Hall Hst. apply andb_true_iff in Hall. destruct Hall as [Hop Hcs].
    destruct (call fuel op ctx) as [c1|] eqn:E; cbn [bind]; [|discriminate].
    intros H. destruct (call_onTransform _ _ _ _ _ Hop Hst E) as [t ->].
    destruct (IH _ _ (set_xform t state) Hcs (getState_set_states_last _ _ _) H)
      as (state' & Hst' & Hps & Ha & Hc).
    exists state'. split; [exact Hst'|]. split; [exact Hps|]. split; [exact Ha|].
    rewrite Hc. reflexivity.
Qed.

(** X24.  A paint and a scissor are mapped by the transform of the state at
    the time they are passed to the API: [SetFillPaint] and [SetStrokePaint]
    store the paint with its transform multiplied by the current one, and
    [Scissor] stores its rectangle under the current one; whatever calls then
    change the transform, the paints and the scissor of the state stay what
    was stored, and [Fill] hands the renderer this fill paint (its alphas
    multiplied by the global alpha) and this scissor. *)
Theorem paints_and_scissor_keep_the_transform_of_their_call
  (fuel : nat) (cs : list Call) (ctx c1 c2 : Context) (state : nvgState) :
  getState ctx = Some state ->
  forallb onTransform cs = true ->
  calls fuel cs c1 = Some c2 ->
  (forall paint, SetFillPaint paint ctx = Some c1 ->
     exists state2, getState c2 = Some state2 /\
       fill state2
       = set_paint_xform (Multiply (paint_xform paint) (xform state)) paint /\
       (stroke state2, scissor state2) = (stroke state, scissor state) /\
       forall c3, Fill c2 = Some c3 ->
         exists bnds ps,
           rendered (params c3)
           = RenderFill
               (scaleAlpha (alpha state)
                  (set_paint_xform (Multiply (paint_xform paint) (xform state))
                     paint))
               (scissor state) (fringeWidth ctx) bnds ps
             :: rendered (params ctx)) /\
  (forall paint, SetStrokePaint paint ctx = Some c1 ->
     exists state2, getState c2 = Some state2 /\
       stroke state2
       = set_paint_xform (Multiply (paint_xform paint) (xform state)) paint /\
       (fill state2, scissor state2) = (fill state, scissor state)) /\
  (forall px py w h, Scissor px py w h ctx = Some c1 ->
     exists state2, getState c2 = Some state2 /\
       scissor_xform (scissor state2)
       = Multiply
           (TranslateMatrix (px + maxF F32.zero w * F32.half)%f32
              (py + maxF F32.zero h * F32.half)%f32)
           (xform state) /\
       (fill state2, stroke state2) = (fill state, stroke state)).
Proof.
  intros Hst Hall Hcs.
  assert (Hgen : forall f, updState f ctx = Some c1 ->
            exists state2, getState c2 = Some state2 /\
              paintsAndScissor state2 = paintsAndScissor (f state) /\
              alpha state2 = alpha (f state) /\
              c2 = set_states (states c2) ctx).
  { intros f H. rewrite (updState_some _ _ _ Hst) in H. injection H as <-.
    destruct (calls_onTransform _ _ _ _ _ Hall (getState_set_states_last _ _ _) Hcs)
      as (state2 & H2 & Hps & Ha & Hc).
    exists state2. repeat (split; [assumption|]). rewrite Hc. reflexivity. }
  split; [|split].
  - intros paint H. destruct (Hgen _ H) as (state2 & H2 & Hps & Ha & Hc).
    unfold paintsAndScissor in Hps. cbn [fill stroke scissor set_fill] in Hps.
    injection Hps as Hf Hs Hsc. cbn [alpha set_fill] in Ha.
    exists state2. split; [exact H2|]. split; [exact Hf|].
    split; [now rewrite Hs, Hsc|].
    intros c3 H3.
    destruct (Fill_inv _ _ H3) as (st & c & Hst3 & _ & ->).
    rewrite H2 in Hst3. injection Hst3 as <-.
    match goal with |- context [countFill ?x] =>
      destruct (countFill_counts x) as (_ & _ & _ & _ & _ & _ & Hp) end.
    rewrite Hp. cbn [render params rendered set_cache set_params].
    rewrite Hf, Hsc, Ha. rewrite Hc. cbn [fringeWidth set_states params].
    eexists. eexists. reflexivity.
  - intros paint H. destruct (Hgen _ H) as (state2 & H2 & Hps & _).
    unfold paintsAndScissor in Hps. cbn [fill stroke scissor set_stroke] in Hps.
    injection Hps as Hf Hs Hsc.
    exists state2. split; [exact H2|]. split; [exact Hs|]. now rewrite Hf, Hsc.
  - intros px py w h H. unfold Scissor in H.
    destruct (Hgen _ H) as (state2 & H2 & Hps & _).
    unfold paintsAndScissor in Hps. cbn [fill stroke scissor set_scissor] in Hps.
    injection Hps as Hf Hs Hsc.
    exists state2. split; [exact H2|]. rewrite Hsc. cbn [scissor_xform].
    split; [reflexivity|]. now rewrite Hf, Hs.
Qed.

End PaintsUnderTransforms.

(** * The theorems at concrete contexts *)

Lemma calls_append_whole_records_witness :
  recordsWhole (commands someCallsContext) = true.
Proof.
  apply (proj2 (proj2 (calls_append_whole_records (pkg := Ref.package)
                         (hlp := RefHelpers.helpers) 1))
           someCalls (frameContext F32.one true)).
  vm_compute; reflexivity.
Defined.

Lemma flattenCommands_stays_inside_witness :
  exists c1,
    flattenCommands (pkg := Ref.package) F32.one F32.one
      (commands someCallsContext) (cache zeroContext) = Some c1.
Proof.
  apply (proj2 (proj2 (flattenCommands_stays_inside (pkg := Ref.package)
                         (hlp := RefHelpers.helpers) F32.one F32.one
                         (cache zeroContext)))
           1%nat someCalls (frameContext F32.one true)).
  vm_compute; reflexivity.
Defined.

Lemma flattenCommands_reads_back_witness :
  exists ctx',
    LineTo (pkg := Ref.package) F32.one F32.two triangleContext = Some ctx' /\
    flattenCommands (pkg := Ref.package) (tessTol triangleContext)
      (distTol triangleContext) (commands ctx') (cache triangleContext)
    = Some (Ref.addPoint triangleWalk F32.one F32.two nvgPtCORNER
              (distTol triangleContext)).
Proof.
  pose proof (flattenCommands_reads_back (pkg := Ref.package)
                (tessTol triangleContext) (distTol triangleContext)
                triangleContext (Ref.reset zeroState)
                (cache triangleContext) triangleWalk
                ltac:(vm_compute; reflexivity) ltac:(vm_compute; reflexivity)
                ltac:(vm_compute; reflexivity)) as H.
  cbv zeta in H. destruct H as (_ & Hline & _).
  destruct (Hline F32.one F32.two) as (ctx' & Hc & Hf).
  exists ctx'. split; [exact Hc|]. rewrite Hf. vm_compute. reflexivity.
Defined.

Lemma Rect_records_a_closed_path_of_four_points_witness :
  exists ctx',
    Rect (pkg := Ref.package) F32.zero F32.zero F32.two F32.one
      (frameContext F32.one true) = Some ctx' /\
    commands ctx'
    = [F32.of_Z nvgMOVETO; F32.zero; F32.zero;
       F32.of_Z nvgLINETO; F32.zero; F32.one;
       F32.of_Z nvgLINETO; F32.two; F32.one;
       F32.of_Z nvgLINETO; F32.two; F32.zero;
       F32.of_Z nvgCLOSE].
Proof.
  pose proof (Rect_records_a_closed_path_of_four_points (pkg := Ref.package)
                (hlp := RefHelpers.helpers) (frameContext F32.one true)
                (Ref.reset zeroState) F32.zero F32.zero F32.two F32.one
                ltac:(vm_compute; reflexivity)) as H.
  cbv zeta in H. destruct H as (ctx' & Hr & Hc & _).
  exists ctx'. split; [exact Hr|]. rewrite Hc. vm_compute. reflexivity.
Defined.

Lemma QuadTo_starts_from_the_pen_witness :
  exists c2,
    QuadTo (pkg := Ref.package) F32.one F32.one F32.two F32.zero pointContext
    = Some c2 /\
    (commandX c2, commandY c2) = (F32.two, F32.zero).
Proof.
  assert (Hm : MoveTo (pkg := Ref.package) (F32.of_Z 5) (F32.of_Z 5)
                 (frameContext F32.one true) = Some pointContext)
    by (vm_compute; reflexivity).
  destruct (QuadTo_starts_from_the_pen (pkg := Ref.package)
              (frameContext F32.one true) pointContext (F32.of_Z 5) (F32.of_Z 5)
              (or_introl Hm) F32.one F32.one F32.two F32.zero) as (_ & c2 & H).
  exists c2. exact H.
Defined.

Lemma Arc_returns_and_records_witness :
  exists ctx' more,
    Arc (pkg := Ref.package) 1 F32.zero F32.zero F32.one F32.zero F32.one
      Clockwise (frameContext F32.one true) = Some ctx' /\
    commands ctx' = commands (frameContext F32.one true) ++ more /\
    10 <= len_ more <= 38 /\
    hd_error more = Some (F32.of_Z nvgMOVETO).
Proof.
  destruct (Arc_returns_and_records (pkg := Ref.package) 0
              F32.zero F32.zero F32.one F32.zero F32.one Clockwise
              (frameContext F32.one true) (Ref.reset zeroState)
              ltac:(vm_compute; reflexivity) ltac:(vm_compute; reflexivity))
    as (da & ctx' & more & _ & HA & Hc & _ & _ & Hl & Hh & _).
  exists ctx', more. split; [exact HA|]. split; [exact Hc|].
  split; [exact Hl | exact Hh].
Defined.

Lemma Arc_sweep_is_one_turn_away_witness :
  exists da,
    arcSweep 1 F32.zero (- F32.one)%f32 Clockwise = Some da /\
    (da <? F32.zero)%f32 = false.
Proof.
  destruct (Arc_sweep_is_one_turn_away F32.zero (- F32.one)%f32 Clockwise
              ltac:(vm_compute; reflexivity)) as (da & Hs & Hcw & _).
  exists da. split; [apply Hs | now apply Hcw].
Defined.

Lemma drawing_changes_cache_and_counters_only_witness :
  beside_cache triangleFilled = beside_cache triangleContext.
Proof.
  apply (proj1 (drawing_changes_cache_and_counters_only (pkg := Ref.package)
                  triangleContext triangleFilled)).
  vm_compute; reflexivity.
Defined.

Lemma drawing_counts_triangles_witness :
  drawCallCount triangleFilled = 2 /\ fillTriCount triangleFilled = 1.
Proof.
  destruct (proj1 (drawing_counts_triangles (pkg := Ref.package)
                     triangleContext triangleFilled
                     ltac:(unfold isInt; by_computation)
                     ltac:(unfold isInt; by_computation)
                     ltac:(unfold isInt; by_computation))
              ltac:(vm_compute; reflexivity)) as (Hd & Hf & _).
  rewrite Hd, Hf. split; vm_compute; reflexivity.
Defined.

Lemma drawing_an_empty_path_witness :
  exists ctx', Fill (pkg := Ref.package) (frameContext F32.one true) = Some ctx' /\
    paths (cache ctx') = [].
Proof.
  pose proof (drawing_an_empty_path (pkg := Ref.package)
                (frameContext F32.one true) (Ref.reset zeroState)
                ltac:(vm_compute; reflexivity) ltac:(vm_compute; reflexivity)
                ltac:(vm_compute; reflexivity)) as H.
  cbv zeta in H. destruct H as (_ & _ & _ & (ctx' & HF & Hc & _) & _).
  exists ctx'. split; [exact HF|]. rewrite Hc. vm_compute. reflexivity.
Defined.

Lemma flattenPaths_keeps_the_points_witness :
  Permutation (map xy (points (cache triangleFlat)))
    [(F32.zero, F32.zero); (F32.of_Z 10, F32.zero); (F32.of_Z 10, F32.of_Z 10)].
Proof.
  destruct (flattenPaths_keeps_the_points (pkg := Ref.package)
              triangleContext triangleFlat
              ltac:(vm_compute; reflexivity) ltac:(vm_compute; reflexivity))
    as (c1 & Hc1 & _ & Hperm & _).
  vm_compute in Hc1. injection Hc1 as <-. exact Hperm.
Defined.

Lemma paints_and_scissor_keep_the_transform_of_their_call_witness :
  exists state2,
    getState movedContext = Some state2 /\
    fill state2
    = set_paint_xform (Ref.Multiply zeroMatrix Ref.IdentityMatrix) zeroPaint.
Proof.
  destruct (proj1 (paints_and_scissor_keep_the_transform_of_their_call
                     (pkg := Ref.package) (hlp := RefHelpers.helpers)
                     1 movedCalls (frameContext F32.one true) paintedContext
                     movedContext (Ref.reset zeroState)
                     ltac:(vm_compute; reflexivity) ltac:(reflexivity)
                     ltac:(vm_compute; reflexivity))
              zeroPaint ltac:(vm_compute; reflexivity))
    as (state2 & H2 & Hf & _).
  exists state2. split; [exact H2 | exact Hf].
Defined.

(** * The atlas of the glyphs *)

Lemma index_in_range {X : Type} (l : list X) (i : Z) :
  0 <= i < len_ l -> exists v, index l i = Some v.
Proof.
  intros H. rewrite index_of_nat by lia.
  destruct (nth_error l (Z.to_nat i)) as [v|] eqn:E; [now exists v|].
  apply nth_error_None in E. unfold len_ in H. lia.
Qed.

Lemma assign_inv {X : Type} (l l' : list X) (i : Z) (v : X) :
  assign l i v = Some l' ->
  length l' = length l /\ index l' i = Some v /\
  forall k, k <> i -> index l' k = index l k.
Proof.
  unfold assign. destruct (index l i) as [w|] eqn:E; cbn [bind]; [|discriminate].
  intros [= <-]. pose proof (index_nonneg _ _ _ E) as Hi.
  split; [apply store_length|]. split.
  - rewrite index_of_nat by lia. eapply store_same.
    apply index_nth_error. exact E.
  - intros k Hk. unfold index. destruct (Z.ltb_spec k 0); [reflexivity|].
    apply store_other. lia.
Qed.

Lemma assign_in_range {X : Type} (l : list X) (i : Z) (v : X) :
  0 <= i < len_ l -> exists l', assign l i v = Some l'.
Proof.
  intros H. destruct (index_in_range l i H) as [w Hw].
  unfold assign. rewrite Hw. cbn [bind]. eauto.
Qed.

Lemma deleteFontImages_length {tex : Textures} (imgs : list Z) :
  forall b, length (snd (deleteFontImages b imgs)) = length imgs.
Proof.
  induction imgs as [|img imgs IH]; intros b; cbn [deleteFontImages];
    [reflexivity|].
  destruct (negb (img =? 0)).
  - specialize (IH (renderDeleteTexture b img)).
    destruct (deleteFontImages _ imgs) as [b' rest']. cbn [snd length] in *.
    now rewrite IH.
  - specialize (IH b).
    destruct (deleteFontImages _ imgs) as [b' rest']. cbn [snd length] in *.
    now rewrite IH.
Qed.

Lemma survivors_length {tex : Textures} (iw ih : Z) (imgs : list Z) :
  forall b, (length (snd (survivors iw ih b imgs)) <= length imgs)%nat.
Proof.
  induction imgs as [|img imgs IH]; intros b; cbn [survivors snd length]; [lia|].
  destruct (renderGetTextureSize b img) as [nw nh].
  destruct ((nw <? iw) || (nh <? ih)).
  - specialize (IH (renderDeleteTexture b img)). lia.
  - specialize (IH b). destruct (survivors iw ih b imgs) as [b' k'].
    cbn [snd length] in *. lia.
Qed.

Section FontImagesOfTheCalls.

Context {pkg : Package} {hlp : Helpers}.

Lemma updState_fonts (f : nvgState -> nvgState) (ctx ctx' : Context) :
  updState f ctx = Some ctx' ->
  fontImages ctx' = fontImages ctx /\ fontImageIdx ctx' = fontImageIdx ctx.
Proof.
  intros H. destruct (updState_inv _ _ _ H) as (st & _ & ->). now split.
Qed.

Lemma appendCommand_fonts (vals : list float32) (ctx ctx' : Context) :
  appendCommand vals ctx = Some ctx' ->
  fontImages ctx' = fontImages ctx /\ fontImageIdx ctx' = fontImageIdx ctx.
Proof.
  unfold appendCommand.
  destruct (getState ctx) as [state|]; cbn [bind]; [|discriminate].
  destruct (index vals 0) as [v0|]; cbn [bind]; [|discriminate].
  destruct (negb (F32.to_int v0 =? nvgCLOSE) && negb (F32.to_int v0 =? nvgWINDING)).
  - destruct (index vals (len_ vals - 2)); cbn [bind]; [|discriminate].
    destruct (index vals (len_ vals - 1)); cbn [bind]; [|discriminate].
    destruct (transformCommands _ _); cbn [bind]; [|discriminate].
    intros [= <-]. now split.
  - cbn [bind]. destruct (transformCommands _ _); cbn [bind]; [|discriminate].
    intros [= <-]. now split.
Qed.

Lemma Arc_fonts (fuel : nat) (cx cy r a0 a1 : float32) (dir : Direction)
  (ctx ctx' : Context) :
  Arc fuel cx cy r a0 a1 dir ctx = Some ctx' ->
  fontImages ctx' = fontImages ctx /\ fontImageIdx ctx' = fontImageIdx ctx.
Proof.
  unfold Arc. destruct (arcSweep fuel a0 a1 dir); cbn [bind]; [|discriminate].
  apply appendCommand_fonts.
Qed.

Lemma ArcTo_fonts (fuel : nat) (x1 y1 x2 y2 radius_ : float32)
  (ctx ctx' : Context) :
  ArcTo fuel x1 y1 x2 y2 radius_ ctx = Some ctx' ->
  fontImages ctx' = fontImages ctx /\ fontImageIdx ctx' = fontImageIdx ctx.
Proof.
  unfold ArcTo. destruct (len_ (commands ctx) =? 0); [intros [= <-]; now split|].
  destruct (arcToDegenerate _ _ _ _ _ _); [apply appendCommand_fonts|].
  destruct (arcToLegs ctx x1 y1 x2 y2) as [[[dx0 dy0] dx1] dy1].
  destruct (_ <? _)%f32; [apply appendCommand_fonts|].
  destruct (_ <? _)%f32; apply Arc_fonts.
Qed.

Lemma beside_cache_fonts (a b : Context) :
  beside_cache a = beside_cache b ->
  fontImages a = fontImages b /\ fontImageIdx a = fontImageIdx b.
Proof. unfold beside_cache. intros H. injection H. intros. now split. Qed.

Lemma Fill_fonts (ctx ctx' : Context) :
  Fill ctx = Some ctx' ->
  fontImages ctx' = fontImages ctx /\ fontImageIdx ctx' = fontImageIdx ctx.
Proof.
  intros H. destruct (Fill_inv _ _ H) as (state & c & _ & _ & ->).
  match goal with |- context [countFill ?x] =>
    destruct (countFill_counts x) as (_ & _ & _ & _ & Hb & _) end.
  apply beside_cache_fonts in Hb. exact Hb.
Qed.

Lemma Stroke_fonts (ctx ctx' : Context) :
  Stroke ctx = Some ctx' ->
  fontImages ctx' = fontImages ctx /\ fontImageIdx ctx' = fontImageIdx ctx.
Proof.
  intros H.
  destruct (Stroke_shape _ _ H) as (state & c & paint & w & _ & _ & _ & ->).
  match goal with |- context [countStroke ?x] =>
    destruct (countStroke_counts x) as (_ & _ & _ & _ & Hb & _) end.
  apply beside_cache_fonts in Hb. exact Hb.
Qed.

Lemma call_fonts (fuel : nat) (op : Call) (ctx ctx' : Context) :
  call fuel op ctx = Some ctx' ->
  fontImages ctx' = fontImages ctx /\ fontImageIdx ctx' = fontImageIdx ctx.
Proof.
  destruct op; cbn [call];
    try (now apply updState_fonts);
    try (now apply appendCommand_fonts);
    try (now apply Arc_fonts);
    try (now apply ArcTo_fonts);
    try (now apply Fill_fonts);
    try (now apply Stroke_fonts).
  - (* IntersectScissor *)
    unfold IntersectScissor.
    destruct (getState ctx) as [state|]; cbn [bind]; [|discriminate].
    destruct (_ <? _)%f32; [now apply updState_fonts|].
    destruct (intersectRects _ _ _ _ _ _ _ _) as [[[r0 r1] r2] r3].
    now apply updState_fonts.
  - (* SetFontSize *)
    unfold SetFontSize. destruct (_ <? _)%f32; [discriminate|].
    now apply updState_fonts.
  - (* BeginPath *)
    intros [= <-]. now split.
  - (* RoundedRect *)
    unfold RoundedRect. destruct (_ <? _)%f32; now apply appendCommand_fonts.
Qed.

Lemma calls_fonts (fuel : nat) (cs : list Call) :
  forall ctx ctx', calls fuel cs ctx = Some ctx' ->
    fontImages ctx' = fontImages ctx /\ fontImageIdx ctx' = fontImageIdx ctx.
Proof.
  induction cs as [|op cs IH]; intros ctx ctx'; cbn [calls].
  - intros [= <-]. now split.
  - destruct (call fuel op ctx) as [c1|] eqn:E; cbn [bind]; [|discriminate].
    intros H. destruct (IH _ _ H) as [H1 H2].
    destruct (call_fonts _ _ _ _ E) as [H3 H4]. split; congruence.
Qed.

Lemma Save_fonts (ctx : Context) :
  fontImages (Save ctx) = fontImages ctx /\
  fontImageIdx (Save ctx) = fontImageIdx ctx.
Proof.
  unfold Save. destruct (_ <=? _); [now split|].
  destruct (_ <? _); [|now split]. destruct (getState ctx); now split.
Qed.

Lemma Restore_fonts (ctx : Context) :
  fontImages (Restore ctx) = fontImages ctx /\
  fontImageIdx (Restore ctx) = fontImageIdx ctx.
Proof. unfold Restore. destruct (_ <? _); now split. Qed.

Lemma BeginFrame_fonts (ratio : float32) (ctx ctx' : Context) :
  BeginFrame ratio ctx = Some ctx' ->
  fontImages ctx' = fontImages ctx /\ fontImageIdx ctx' = fontImageIdx ctx.
Proof.
  unfold BeginFrame.
  destruct (Reset (Save (set_states [] ctx))) as [c1|] eqn:E; cbn [bind];
    [|discriminate].
  intros [= <-]. cbn [fontImages fontImageIdx setDevicePixelRatio set_ratio].
  destruct (updState_fonts _ _ _ E) as [H1 H2].
  destruct (Save_fonts (set_states [] ctx)) as [H3 H4].
  cbn [fontImages fontImageIdx set_states] in H3, H4.
  unfold setDevicePixelRatio, set_ratio. cbn [fontImages fontImageIdx].
  split; congruence.
Qed.

End FontImagesOfTheCalls.

Section Atlas.

Context {pkg : Package} {hlp : Helpers} {tex : Textures} {atl : Atlas}.

Lemma fontImagesFit_same (ctx ctx' : Context) :
  fontImages ctx' = fontImages ctx /\ fontImageIdx ctx' = fontImageIdx ctx ->
  fontImagesFit ctx -> fontImagesFit ctx'.
Proof. unfold fontImagesFit. intros [-> ->]. auto. Qed.

Lemma nextAtlasSize_bound (iw ih : Z) :
  fst (nextAtlasSize iw ih) <= nvgMaxFontImageSize /\
  snd (nextAtlasSize iw ih) <= nvgMaxFontImageSize.
Proof.
  unfold nextAtlasSize. destruct (ih <? iw).
  - destruct (Z.ltb_spec nvgMaxFontImageSize iw); cbn [orb fst snd]; [lia|].
    destruct (Z.ltb_spec nvgMaxFontImageSize (int (ih * 2))); cbn [fst snd]; lia.
  - destruct (Z.ltb_spec nvgMaxFontImageSize (int (iw * 2))); cbn [orb fst snd];
      [lia|].
    destruct (Z.ltb_spec nvgMaxFontImageSize ih); cbn [fst snd]; lia.
Qed.

(** [flushTextTexture] with a current font image in the array. *)
Lemma flushTextTexture_returns (b : Backend) (fs : FontStash) (ctx : Context) :
  fontImagesFit ctx ->
  exists b1, flushTextTexture b fs ctx = Some (b1, fst (ValidateTexture fs)) /\
    (snd (ValidateTexture fs) = None -> b1 = b) /\
    (index (fontImages ctx) (fontImageIdx ctx) = Some 0 -> b1 = b).
Proof.
  intros [Hlen Hidx]. unfold flushTextTexture.
  destruct (ValidateTexture fs) as [fs1 [[[[d0 d1] d2] d3]|]]; cbn [fst snd].
  - destruct (index_in_range (fontImages ctx) (fontImageIdx ctx)) as [cur Hcur];
      [lia|].
    rewrite Hcur. cbn [bind].
    destruct (Z.eqb_spec cur 0) as [-> | Hne]; cbn [negb].
    + exists b. repeat split.
    + eexists. split; [reflexivity|]. split; [discriminate|].
      intros [= ->]. contradiction.
  - exists b. repeat split.
Qed.

Lemma allocTextAtlas_result (b : Backend) (fs : FontStash) (ctx : Context) :
  fontImagesFit ctx ->
  exists b1,
    flushTextTexture b fs ctx = Some (b1, fst (ValidateTexture fs)) /\
    (fontImageIdx ctx = nvgMaxFontImages - 1 ->
       allocTextAtlas b fs ctx
       = Some (false, b1, fst (ValidateTexture fs), ctx)) /\
    (fontImageIdx ctx < nvgMaxFontImages - 1 ->
       exists b2 iw ih imgs,
         allocTextAtlas b fs ctx
         = Some (true, b2, ResetAtlas (fst (ValidateTexture fs)) iw ih,
                 set_fontImages imgs (fontImageIdx ctx + 1) ctx) /\
         length imgs = length (fontImages ctx) /\
         (forall k, k <> fontImageIdx ctx + 1 ->
            index imgs k = index (fontImages ctx) k) /\
         (forall next,
            index (fontImages ctx) (fontImageIdx ctx + 1) = Some next ->
            next <> 0 ->
            b2 = b1 /\ imgs = fontImages ctx /\
            (iw, ih) = renderGetTextureSize b1 next) /\
         (forall cur,
            index (fontImages ctx) (fontImageIdx ctx + 1) = Some 0 ->
            index (fontImages ctx) (fontImageIdx ctx) = Some cur ->
            (iw, ih) = nextAtlasSize (fst (renderGetTextureSize b1 cur))
                         (snd (renderGetTextureSize b1 cur)) /\
            iw <= nvgMaxFontImageSize /\ ih <= nvgMaxFontImageSize /\
            exists t,
              (b2, t) = renderCreateTexture b1 nvgTextureALPHA iw ih 0 None /\
              index imgs (fontImageIdx ctx + 1) = Some t)).
Proof.
  intros Hfit. destruct (flushTextTexture_returns b fs ctx Hfit) as (b1 & Hflush & _).
  destruct Hfit as [Hlen Hidx].
  exists b1. split; [exact Hflush|]. split.
  - intros Hlast. unfold allocTextAtlas. rewrite Hflush. cbn [bind].
    destruct (Z.leb_spec (nvgMaxFontImages - 1) (fontImageIdx ctx)); [reflexivity|lia].
  - intros Hlt. unfold allocTextAtlas. rewrite Hflush. cbn [bind].
    destruct (Z.leb_spec (nvgMaxFontImages - 1) (fontImageIdx ctx)); [lia|].
    destruct (index_in_range (fontImages ctx) (fontImageIdx ctx + 1))
      as [next Hnext]; [lia|].
    destruct (index_in_range (fontImages ctx) (fontImageIdx ctx))
      as [cur Hcur]; [lia|].
    rewrite Hnext. cbn [bind].
    destruct (Z.eqb_spec next 0) as [-> | Hne]; cbn [negb].
    + rewrite Hcur. cbn [bind].
      destruct (renderGetTextureSize b1 cur) as [iw0 ih0] eqn:Esize.
      pose proof (nextAtlasSize_bound iw0 ih0) as Hb.
      destruct (nextAtlasSize iw0 ih0) as [iw ih] eqn:Enext. cbn [fst snd] in Hb.
      destruct (renderCreateTexture b1 nvgTextureALPHA iw ih 0 None)
        as [b2 t] eqn:Ecreate.
      destruct (assign_in_range (fontImages ctx) (fontImageIdx ctx + 1) t)
        as [imgs Himgs]; [lia|].
      rewrite Himgs. cbn [bind].
      destruct (assign_inv _ _ _ _ Himgs) as (Hl & Hat & Hother).
      exists b2, iw, ih, imgs. split; [reflexivity|].
      split; [exact Hl|]. split; [exact Hother|]. split.
      * intros next' Hn' Hnz. try rewrite Hnext in Hn'. injection Hn' as <-.
        contradiction.
      * intros cur' _ Hc'. try rewrite Hcur in Hc'. injection Hc' as <-.
        rewrite Esize. cbn [fst snd]. rewrite Enext.
        split; [reflexivity|]. split; [lia|]. split; [lia|].
        exists t. split; [now rewrite Ecreate | exact Hat].
    + destruct (renderGetTextureSize b1 next) as [iw ih] eqn:Esize. cbn [bind].
      exists b1, iw, ih, (fontImages ctx). split; [reflexivity|].
      split; [reflexivity|]. split; [reflexivity|]. split.
      * intros next' Hn' _. try rewrite Hnext in Hn'. injection Hn' as <-.
        rewrite Esize. repeat split.
      * intros cur' Hz. try rewrite Hnext in Hz. injection Hz as ->. contradiction.
Qed.


Lemma createInternal_fits (params_ : nvgParams) (tex_ : Z) :
  0 < nvgMaxStates -> 0 < nvgMaxFontImages ->
  exists ctx, createInternal params_ tex_ = Some ctx /\ fontImagesFit ctx.
Proof.
  intros Hmax Himg. unfold createInternal, Reset.
  match goal with |- context [Save ?c] =>
    assert (HS : Save c = set_states [zeroState] c)
  end.
  { unfold Save. cbn [states set_states len_ length Z.of_nat].
    destruct (Z.leb_spec nvgMaxStates 0); [lia | reflexivity]. }
  rewrite HS. unfold updState, getState. cbn [states set_states len_ length
    Z.of_nat Z.sub Z.pos_sub Z.opp index Z.ltb Z.compare Z.to_nat nth_error bind
    removelast app].
  destruct (Z.to_nat nvgMaxFontImages) as [|n] eqn:En; [lia|].
  cbn. eexists. split; [reflexivity|].
  unfold fontImagesFit. cbn. unfold len_. cbn [length].
  rewrite repeat_length. lia.
Qed.

(** X27.  The array of font images keeps its [nvgMaxFontImages] entries and
    the index of the current font image stays one of them: that holds in the
    context [createInternal] returns (the two limits being positive),
    and whenever it holds it holds after the calls on the state, the path
    and the drawing, after [BeginFrame], [Save] and [Restore], after
    [EndFrame], [allocTextAtlas] and [Delete], and after [renderText]; in
    such a context [EndFrame] and [allocTextAtlas] return, and [renderText]
    returns when there is a state. *)
Theorem font_images_fit_throughout :
  (0 < nvgMaxStates -> 0 < nvgMaxFontImages -> forall params_ tex_,
     exists ctx, createInternal params_ tex_ = Some ctx /\ fontImagesFit ctx) /\
  (forall ctx, fontImagesFit ctx ->
     (forall fuel cs ctx', calls fuel cs ctx = Some ctx' -> fontImagesFit ctx') /\
     (forall ratio ctx', BeginFrame ratio ctx = Some ctx' -> fontImagesFit ctx') /\
     fontImagesFit (Save ctx) /\ fontImagesFit (Restore ctx) /\
     (forall b, exists b' ctx',
        EndFrame b ctx = Some (b', ctx') /\ fontImagesFit ctx') /\
     (forall b fs, exists r b' fs' ctx',
        allocTextAtlas b fs ctx = Some (r, b', fs', ctx') /\ fontImagesFit ctx') /\
     (forall b, fontImagesFit (snd (Delete b ctx))) /\
     (forall b vertexes_ state, getState ctx = Some state ->
        exists b' ctx',
          renderText b vertexes_ ctx = Some (b', ctx') /\ fontImagesFit ctx')).
Proof.
  split.
  { intros Hmax Himg params_ tex_. now apply createInternal_fits. }
  intros ctx Hfit.
  split; [intros fuel cs ctx' H;
          exact (fontImagesFit_same _ _ (calls_fonts _ _ _ _ H) Hfit)|].
  split; [intros ratio ctx' H;
          exact (fontImagesFit_same _ _ (BeginFrame_fonts _ _ _ H) Hfit)|].
  split; [exact (fontImagesFit_same _ _ (Save_fonts ctx) Hfit)|].
  split; [exact (fontImagesFit_same _ _ (Restore_fonts ctx) Hfit)|].
  split; [|split; [|split]].
  - (* EndFrame *)
    intros b. pose proof Hfit as [Hlen Hidx].
    destruct (Z.eq_dec (fontImageIdx ctx) 0) as [H0 | Hne].
    { exists (renderFlush b), ctx. split; [|exact Hfit].
      unfold EndFrame. now rewrite H0. }
    destruct (index_in_range (fontImages ctx) (fontImageIdx ctx)) as [cur Hcur];
      [lia|].
    destruct (Z.eq_dec cur 0) as [-> | Hcz].
    { exists (renderFlush b), ctx. split; [|exact Hfit].
      unfold EndFrame. destruct (Z.eqb_spec (fontImageIdx ctx) 0); [contradiction|].
      cbn [negb]. rewrite Hcur. reflexivity. }
    pose proof (EndFrame_compaction b ctx cur Hlen ltac:(lia) Hcur Hcz) as H.
    cbv zeta in H. rewrite H. eexists. eexists. split; [reflexivity|].
    unfold fontImagesFit. cbn [fontImages fontImageIdx set_fontImages].
    split; [|lia].
    match goal with |- context [survivors ?iw ?ih ?b0 ?l] =>
      pose proof (survivors_length iw ih l b0) as Hk;
      set (kept := snd (survivors iw ih b0 l)) in *
    end.
    rewrite length_firstn in Hk.
    unfold len_ in *. cbn [length]. rewrite !length_app, repeat_length.
    assert (Ht : (length (tl kept) + length (firstn 1 kept) = length kept)%nat).
    { destruct kept as [|k0 ks]; cbn [tl firstn length]; lia. }
    lia.
  - (* allocTextAtlas *)
    intros b fs. pose proof Hfit as [Hlen Hidx].
    destruct (allocTextAtlas_result b fs ctx Hfit) as (b1 & _ & Hlast & Hnext).
    destruct (Z.eq_dec (fontImageIdx ctx) (nvgMaxFontImages - 1)) as [He | Hn].
    + rewrite (Hlast He). do 4 eexists. split; [reflexivity | exact Hfit].
    + destruct (Hnext ltac:(lia)) as (b2 & iw & ih & imgs & H & Hl & _).
      rewrite H. do 4 eexists. split; [reflexivity|].
      unfold fontImagesFit. cbn [fontImages fontImageIdx set_fontImages].
      unfold len_ in *. rewrite Hl. lia.
  - (* Delete *)
    intros b. unfold Delete.
    pose proof (deleteFontImages_length (fontImages ctx) b) as Hl.
    destruct (deleteFontImages b (fontImages ctx)) as [b' imgs].
    cbn [snd] in *. destruct Hfit as [Hlen Hidx].
    unfold fontImagesFit. cbn [fontImages fontImageIdx set_fontImages].
    unfold len_ in *. rewrite Hl. lia.
  - (* renderText *)
    intros b vs state Hst. destruct Hfit as [Hlen Hidx].
    destruct (index_in_range (fontImages ctx) (fontImageIdx ctx)) as [cur Hcur];
      [lia|].
    unfold renderText. rewrite Hst. cbn [bind]. rewrite Hcur. cbn [bind].
    do 2 eexists. split; [reflexivity|].
    unfold fontImagesFit. cbn [fontImages fontImageIdx set_text_counts]. lia.
Qed.

End Atlas.

Lemma firstAtlasContext_fits :
  fontImagesFit (hlp := RefHelpers.helpers) firstAtlasContext.
Proof. split; [reflexivity | split; [discriminate | reflexivity]]. Defined.


Lemma font_images_fit_throughout_witness :
  (exists ctx,
     createInternal (pkg := Ref.package) (hlp := RefHelpers.helpers)
       (mkParams true []) 11 = Some ctx /\
     fontImagesFit (hlp := RefHelpers.helpers) ctx) /\
  (exists r b' fs' ctx',
     allocTextAtlas (hlp := RefHelpers.helpers)
       (atl := RefHelpers.atlas squareSize) [] tt firstAtlasContext
     = Some (r, b', fs', ctx') /\
     fontImagesFit (hlp := RefHelpers.helpers) ctx').
Proof.
  pose proof (font_images_fit_throughout (pkg := Ref.package)
                (hlp := RefHelpers.helpers) (atl := RefHelpers.atlas squareSize))
    as [Hcreate Hkeep].
  split.
  - exact (Hcreate ltac:(reflexivity) ltac:(reflexivity) (mkParams true []) 11).
  - destruct (Hkeep firstAtlasContext firstAtlasContext_fits)
      as (_ & _ & _ & _ & _ & Halloc & _).
    exact (Halloc [] tt).
Defined.

(** ** Rounded corners *)

Section RoundedCorners.

Context {pkg : Package}.

(** X28.  [ArcTo] goes on with a path and never starts one.  With an empty
    command buffer it returns and leaves the context alone, also a context
    without a state.  With commands in the buffer, what a call that returns
    has appended are whole records of which the first is a line: one line
    to [(x1, y1)], which is then the pen, or a line to the start of the arc
    and then between one and five curves. *)
Theorem ArcTo_continues_the_path (fuel : nat) (x1 y1 x2 y2 radius_ : float32)
  (ctx : Context) :
  (commands ctx = [] -> ArcTo fuel x1 y1 x2 y2 radius_ ctx = Some ctx) /\
  (forall ctx', commands ctx <> [] ->
     ArcTo fuel x1 y1 x2 y2 radius_ ctx = Some ctx' ->
     exists more,
       commands ctx' = commands ctx ++ more /\ recordsWhole more = true /\
       hd_error more = Some (F32.of_Z nvgLINETO) /\
       (len_ more = 3 /\ (commandX ctx', commandY ctx') = (x1, y1) \/
        exists n, 1 <= n <= 5 /\ len_ more = 3 + 7 * n)).
Proof.
  split.
  { intros E. unfold ArcTo. now rewrite E. }
  intros ctx' Hne H. pose proof (len_pos_cons _ Hne) as Hpos.
  assert (HL : LineTo x1 y1 ctx = Some ctx' ->
     exists more,
       commands ctx' = commands ctx ++ more /\ recordsWhole more = true /\
       hd_error more = Some (F32.of_Z nvgLINETO) /\
       (len_ more = 3 /\ (commandX ctx', commandY ctx') = (x1, y1) \/
        exists n, 1 <= n <= 5 /\ len_ more = 3 + 7 * n)).
  { intros HLine.
    destruct (getState ctx) as [state|] eqn:Hst;
      [|unfold LineTo, appendCommand in HLine; rewrite Hst in HLine; discriminate].
    rewrite (LineTo_records ctx state x1 y1 Hst) in HLine. injection HLine as <-.
    eexists. split; [reflexivity|]. split; [reflexivity|].
    split; [reflexivity|]. left. split; reflexivity. }
  assert (HA : forall cx cy a0 a1 dir,
     Arc fuel cx cy radius_ a0 a1 dir ctx = Some ctx' ->
     exists more,
       commands ctx' = commands ctx ++ more /\ recordsWhole more = true /\
       hd_error more = Some (F32.of_Z nvgLINETO) /\
       (len_ more = 3 /\ (commandX ctx', commandY ctx') = (x1, y1) \/
        exists n, 1 <= n <= 5 /\ len_ more = 3 + 7 * n)).
  { intros cx cy a0 a1 dir HArc.
    destruct (arcSweep fuel a0 a1 dir) as [da|] eqn:Hda;
      [|unfold Arc in HArc; rewrite Hda in HArc; discriminate].
    destruct (getState ctx) as [state|] eqn:Hst;
      [|unfold Arc, appendCommand in HArc; rewrite Hda, Hst in HArc;
        discriminate].
    destruct (Arc_with_sweep fuel cx cy radius_ a0 a1 da dir ctx state Hst Hda)
      as (c2 & more & HA & Hc & Hw & Hl & Hh & _).
    rewrite HA in HArc. injection HArc as <-.
    exists more. split; [exact Hc|]. split; [exact Hw|]. split.
    - rewrite Hh. destruct (Z.ltb_spec 0 (len_ (commands ctx))); [reflexivity|lia].
    - right. exists (arcDivs da). split; [apply arcDivs_range | exact Hl]. }
  unfold ArcTo in H.
  destruct (Z.eqb_spec (len_ (commands ctx)) 0); [lia|].
  destruct (arcToDegenerate ctx x1 y1 x2 y2 radius_); [now apply HL|].
  destruct (arcToLegs ctx x1 y1 x2 y2) as [[[dx0 dy0] dx1] dy1].
  destruct (_ <? _)%f32; [now apply HL|].
  destruct (_ <? _)%f32; eapply HA; exact H.
Qed.

End RoundedCorners.

Lemma ArcTo_continues_the_path_witness :
  exists more,
    commands
      (orZero (ArcTo (pkg := Ref.package) 1 (F32.of_Z 20) F32.zero (F32.of_Z 30)
                 F32.zero (F32.of_Z 5) (segmentContext F32.one F32.one F32.one)))
    = commands (segmentContext F32.one F32.one F32.one) ++ more /\
    hd_error more = Some (F32.of_Z nvgLINETO).
Proof.
  destruct (proj2 (ArcTo_continues_the_path (pkg := Ref.package) 1
                     (F32.of_Z 20) F32.zero (F32.of_Z 30) F32.zero (F32.of_Z 5)
                     (segmentContext F32.one F32.one F32.one))
              (orZero (ArcTo (pkg := Ref.package) 1 (F32.of_Z 20) F32.zero
                         (F32.of_Z 30) F32.zero (F32.of_Z 5)
                         (segmentContext F32.one F32.one F32.one)))
              ltac:(vm_compute; discriminate) ltac:(vm_compute; reflexivity))
    as (more & Hc & _ & Hh & _).
  exists more. split; [exact Hc | exact Hh].
Defined.

(** * The path cache within an epoch *)

Section Epoch.

Context {pkg : Package}.

(** C1.  When the path cache already holds a path, [flattenPaths] returns
    the context as it is: cache, points and bounds included.  [Fill] then
    hands the cache it finds to [expandFill], and the bounds and paths this
    gives to the renderer.  So a second [Fill] with no [BeginPath] in
    between does not flatten again: it hands the cache the first call left
    to [expandFill], with the arguments of the first call.  Its paths are
    those of the first call when [expandFill] gives, for its own result, the
    paths of that result again, and its bounds are those of the first call
    when [expandFill] keeps the bounds; with both, the renderer is handed
    the bounds and paths it was handed by the first call. *)
Theorem flattenPaths_once_per_epoch (ctx : Context) :
  paths (cache ctx) <> [] ->
  flattenPaths ctx = Some ctx /\
  (forall state, getState ctx = Some state ->
     exists c2, Fill ctx = Some c2 /\
       cache c2 = fillCache ctx /\
       rendered (params c2)
       = RenderFill (scaleAlpha (alpha state) (fill state)) (scissor state)
           (fringeWidth ctx) (bounds (fillCache ctx)) (paths (fillCache ctx))
         :: rendered (params ctx)) /\
  (forall ctx0, Fill ctx0 = Some ctx ->
     let w := if edgeAntiAlias (params ctx0) then fringeWidth ctx0 else F32.zero in
     exists c2 flat state,
       Fill ctx = Some c2 /\ cache c2 = fillCache ctx /\
       flattenPaths ctx0 = Some (set_cache flat ctx0) /\
       getState ctx0 = Some state /\ getState ctx = Some state /\
       cache ctx
       = expandFill flat w Miter (F32.of_ratio 24 10) (fringeWidth ctx0) /\
       cache c2
       = expandFill (cache ctx) w Miter (F32.of_ratio 24 10) (fringeWidth ctx0) /\
       ((forall c w join miter fringe,
           paths (expandFill (expandFill c w join miter fringe)
                    w join miter fringe)
           = paths (expandFill c w join miter fringe)) ->
        paths (cache c2) = paths (cache ctx)) /\
       ((forall c w join miter fringe,
           bounds (expandFill c w join miter fringe) = bounds c) ->
        bounds (cache c2) = bounds (cache ctx)) /\
       (paths (cache c2) = paths (cache ctx) ->
        bounds (cache c2) = bounds (cache ctx) ->
        hd_error (rendered (params c2)) = hd_error (rendered (params ctx)))).
Proof.
  intros Hne. pose proof (flattenPaths_cached ctx Hne) as Hflat.
  assert (Hfill : forall state, getState ctx = Some state ->
     exists c2, Fill ctx = Some c2 /\
       cache c2 = fillCache ctx /\
       rendered (params c2)
       = RenderFill (scaleAlpha (alpha state) (fill state)) (scissor state)
           (fringeWidth ctx) (bounds (fillCache ctx)) (paths (fillCache ctx))
         :: rendered (params ctx)).
  { intros state Hst. unfold Fill. rewrite Hst, Hflat. cbn [bind].
    eexists. split; [reflexivity|].
    match goal with |- cache (countFill ?c) = _ /\ _ =>
      destruct (countFill_frame c) as (H1 & _ & H3 & _) end.
    rewrite H1, H3. split; reflexivity. }
  split; [exact Hflat|]. split; [exact Hfill|].
  intros ctx0 H0 w.
  destruct (Fill_inv _ _ H0) as (state & flat & Hst0 & Hflat0 & Hctx).
  assert (Hst : getState ctx = Some state).
  { pose proof (Fill_states _ _ H0) as Hs. unfold getState in *. now rewrite Hs. }
  destruct (Hfill state Hst) as (c2 & Hc2 & Hcache & Hrend).
  assert (Hfirst : cache ctx = fillCache (set_cache flat ctx0) /\
                   fringeWidth ctx = fringeWidth ctx0 /\
                   edgeAntiAlias (params ctx) = edgeAntiAlias (params ctx0) /\
                   rendered (params ctx)
                   = RenderFill (scaleAlpha (alpha state) (fill state))
                       (scissor state) (fringeWidth ctx0)
                       (bounds (fillCache (set_cache flat ctx0)))
                       (paths (fillCache (set_cache flat ctx0)))
                     :: rendered (params ctx0)).
  { rewrite Hctx.
    match goal with |- context [countFill ?x] =>
      destruct (countFill_counts x) as (_ & _ & _ & _ & Hb & Hc & Hp) end.
    unfold beside_cache in Hb. injection Hb as _ _ _ _ _ _ Hfr _ _ _ Haa.
    split; [now rewrite Hc|]. split; [now rewrite Hfr|].
    split; [now rewrite Haa|]. now rewrite Hp. }
  destruct Hfirst as (Hc1 & Hfr & Haa & Hr1).
  assert (E1 : cache ctx
               = expandFill flat w Miter (F32.of_ratio 24 10) (fringeWidth ctx0)).
  { rewrite Hc1. unfold fillCache, w. cbn [cache set_cache params fringeWidth].
    now destruct (edgeAntiAlias (params ctx0)). }
  assert (E2 : cache c2
               = expandFill (cache ctx) w Miter (F32.of_ratio 24 10)
                   (fringeWidth ctx0)).
  { rewrite Hcache. unfold fillCache, w. rewrite Hfr, Haa.
    now destruct (edgeAntiAlias (params ctx0)). }
  exists c2, flat, state.
  split; [exact Hc2|]. split; [exact Hcache|]. split; [exact Hflat0|].
  split; [exact Hst0|]. split; [exact Hst|]. split; [exact E1|].
  split; [exact E2|]. split; [|split].
  - intros Hidem. rewrite E2. rewrite E1 at 1. rewrite Hidem. now rewrite <- E1.
  - intros Hb. rewrite E2. apply Hb.
  - intros Hp Hb. rewrite Hrend, Hr1. cbn [hd_error].
    rewrite <- Hcache, <- Hc1, Hp, Hb, Hfr. reflexivity.
Qed.

End Epoch.

(** The tessellator of the reference instance gives, for its own result,
    that result again. *)
Lemma Ref_expandFill_twice (c : nvgPathCache) (w : float32) (join : LineCap)
  (miter fringe : float32) :
  Ref.expandFill (Ref.expandFill c w join miter fringe) w join miter fringe
  = Ref.expandFill c w join miter fringe.
Proof.
  unfold Ref.expandFill. destruct c as [pts ps vs bs].
  unfold set_paths. cbn [paths points vertexes bounds].
  f_equal; try reflexivity.
  all: rewrite map_map; apply map_ext; intros p; reflexivity.
Qed.

Lemma flattenPaths_once_per_epoch_witness :
  paths (cache triangleFilled) <> [] /\
  flattenPaths (pkg := Ref.package) triangleFilled = Some triangleFilled /\
  exists c2, Fill (pkg := Ref.package) triangleFilled = Some c2 /\
    cache c2 = fillCache (pkg := Ref.package) triangleFilled /\
    paths (cache c2) = paths (cache triangleFilled) /\
    bounds (cache c2) = bounds (cache triangleFilled).
Proof.
  assert (H : paths (cache triangleFilled) <> []) by (vm_compute; discriminate).
  destruct (flattenPaths_once_per_epoch (pkg := Ref.package) triangleFilled H)
    as (Hflat & _ & Htwice).
  split; [exact H|]. split; [exact Hflat|].
  pose proof (Htwice triangleContext ltac:(vm_compute; reflexivity)) as H2.
  cbv zeta in H2.
  destruct H2 as (c2 & flat & state & Hc2 & Hcache & _ & _ & _ & _ & _ & Hpaths
                  & Hbounds & _).
  exists c2. split; [exact Hc2|]. split; [exact Hcache|]. split.
  - apply Hpaths. intros c w join miter fringe.
    change (@expandFill Ref.package) with Ref.expandFill.
    now rewrite Ref_expandFill_twice.
  - apply Hbounds. intros; reflexivity.
Defined.

(** * Recording under the current transform *)

Section RecordingCommands.

Context {pkg : Package} {hlp : Helpers}.

Lemma transformCommands_encodeAll (t : TransformMatrix) (cs : list PathCommand) :
  transformCommands t (encodeAll cs)
  = Some (encodeAll (map (recordedUnder t) cs)).
Proof.
  induction cs as [|c cs IH]; [reflexivity|].
  unfold encodeAll in *. cbn [flat_map map].
  destruct c; cbn [encode app recordedUnder transformCommands].
  - rewrite opcode_MOVETO. cbn [Z.eqb nvgMOVETO orb].
    destruct (TransformPoint t px py) as [tx ty]. rewrite IH. reflexivity.
  - rewrite opcode_LINETO.
    change ((nvgLINETO =? nvgMOVETO) || (nvgLINETO =? nvgLINETO)) with true.
    cbv iota. destruct (TransformPoint t px py) as [tx ty]. rewrite IH.
    reflexivity.
  - rewrite opcode_BEZIERTO.
    change ((nvgBEZIERTO =? nvgMOVETO) || (nvgBEZIERTO =? nvgLINETO)) with false.
    change (nvgBEZIERTO =? nvgBEZIERTO) with true. cbv iota.
    destruct (TransformPoint t c1x c1y) as [t1x t1y].
    destruct (TransformPoint t c2x c2y) as [t2x t2y].
    destruct (TransformPoint t px py) as [tx ty]. rewrite IH. reflexivity.
  - rewrite opcode_CLOSE.
    change ((nvgCLOSE =? nvgMOVETO) || (nvgCLOSE =? nvgLINETO)) with false.
    change (nvgCLOSE =? nvgBEZIERTO) with false.
    change (nvgCLOSE =? nvgCLOSE) with true. cbv iota.
    rewrite IH. reflexivity.
  - rewrite opcode_WINDING.
    change ((nvgWINDING =? nvgMOVETO) || (nvgWINDING =? nvgLINETO)) with false.
    change (nvgWINDING =? nvgBEZIERTO) with false.
    change (nvgWINDING =? nvgCLOSE) with false.
    change (nvgWINDING =? nvgWINDING) with true. cbv iota.
    rewrite IH. reflexivity.
Qed.

Lemma encode_length (c : PathCommand) :
  (1 <= length (encode c))%nat /\
  (forall op, hd_error (encode c) = Some op ->
     F32.to_int op <> nvgCLOSE -> F32.to_int op <> nvgWINDING ->
     3 <= length (encode c))%nat.
Proof.
  destruct c; cbn [encode length hd_error]; split; try lia;
    intros op [= <-] Hc Hw; try lia.
  - exfalso. apply Hc. reflexivity.
  - exfalso. apply Hw. reflexivity.
Qed.

(** [appendCommand] on the values of a list of commands. *)
Lemma appendCommand_encodeAll (cs : list PathCommand) (ctx : Context)
  (state : nvgState) :
  getState ctx = Some state -> cs <> [] ->
  exists ctx',
    appendCommand (encodeAll cs) ctx = Some ctx' /\
    commands ctx'
    = commands ctx ++ encodeAll (map (recordedUnder (xform state)) cs).
Proof.
  intros Hst Hne. destruct cs as [|c cs]; [contradiction|].
  unfold appendCommand. rewrite Hst. cbn [bind].
  rewrite transformCommands_encodeAll.
  destruct (encode_length c) as [H1 H3].
  assert (Hlen : len_ (encodeAll (c :: cs))
                 = Z.of_nat (length (encode c)) + len_ (encodeAll cs)).
  { unfold encodeAll, len_. cbn [flat_map]. rewrite length_app. lia. }
  assert (Hhd : exists op, hd_error (encode c) = Some op /\
                  index (encodeAll (c :: cs)) 0 = Some op).
  { unfold encodeAll. cbn [flat_map].
    destruct (encode c) as [|op rest] eqn:E; [cbn in H1; lia|].
    exists op. split; reflexivity. }
  destruct Hhd as (op & Hop & Hi0). rewrite Hi0. cbn [bind].
  destruct (negb (F32.to_int op =? nvgCLOSE) && negb (F32.to_int op =? nvgWINDING))
    eqn:Ek.
  - apply andb_true_iff in Ek. destruct Ek as [Ec Ew].
    apply negb_true_iff, Z.eqb_neq in Ec. apply negb_true_iff, Z.eqb_neq in Ew.
    specialize (H3 op Hop Ec Ew).
    assert (0 <= len_ (encodeAll cs)) by (unfold len_; lia).
    destruct (index_in_range (encodeAll (c :: cs)) (len_ (encodeAll (c :: cs)) - 2))
      as [cX HX]; [lia|].
    destruct (index_in_range (encodeAll (c :: cs)) (len_ (encodeAll (c :: cs)) - 1))
      as [cY HY]; [lia|].
    rewrite HX, HY. cbn [bind]. eexists. split; reflexivity.
  - cbn [bind]. eexists. split; reflexivity.
Qed.

(** The rounds of the loop of [Arc] after the first: one curve each. *)
Lemma arc_curves (move : nvgCommands) (cx cy r a0 da kappa : float32) (nDivs : Z) :
  forall (ks : list Z) (st : arcLoop),
    (forall i, In i ks -> i <> 0) ->
    exists curves,
      values (fold_left (arcStep move cx cy r a0 da kappa nDivs) ks st)
      = values st ++ encodeAll curves /\
      length curves = length ks /\ forallb isCurve curves = true.
Proof.
  induction ks as [|i ks IH]; intros st Hnz.
  - exists []. cbn [fold_left encodeAll flat_map]. rewrite app_nil_r. now split.
  - cbn [fold_left].
    destruct (arcStep_later move cx cy r a0 da kappa nDivs st i)
      as (c1x & c1y & c2x & c2y & Hstep); [apply Hnz; now left|].
    destruct (IH (arcStep move cx cy r a0 da kappa nDivs st i))
      as (curves & Hv & Hl & Hc); [intros k Hk; apply Hnz; now right|].
    exists (PBezierTo c1x c1y c2x c2y
              (fst (arcPoint cx cy r a0 da nDivs i))
              (snd (arcPoint cx cy r a0 da nDivs i)) :: curves).
    rewrite Hv, Hstep, <- app_assoc. unfold encodeAll. cbn [flat_map encode].
    split; [reflexivity|]. split; [cbn [length]; now rewrite Hl|].
    cbn [forallb isCurve andb]. exact Hc.
Qed.

(** The values of an arc are those of a move or a line to its first point
    and of one curve for each of its parts. *)
Lemma arcValues_commands (move : nvgCommands) (cx cy r a0 da : float32)
  (dir : Direction) :
  move = nvgMOVETO \/ move = nvgLINETO ->
  exists curves,
    arcValues move cx cy r a0 da dir
    = encodeAll (arcFirst move (fst (arcPoint cx cy r a0 da (arcDivs da) 0))
                   (snd (arcPoint cx cy r a0 da (arcDivs da) 0)) :: curves) /\
    Z.of_nat (length curves) = arcDivs da /\ forallb isCurve curves = true.
Proof.
  intros Hm. pose proof (arcDivs_range da) as Hr.
  destruct (upto_split (arcDivs da) ltac:(lia)) as (Hu & Hnz & _ & _ & Hlen).
  unfold arcValues. destruct (sinCosF _) as [sin_ cos_].
  rewrite Hu. cbn [fold_left].
  match goal with |- context [fold_left (arcStep ?m ?a ?b ?c ?d ?e ?k ?n) _ ?st] =>
    destruct (arc_curves m a b c d e k n _ st Hnz) as (curves & Hv & Hl & Hc);
    rewrite Hv
  end.
  rewrite arcStep_first. cbn [values app].
  exists curves. split; [|split; [rewrite Hl, Hlen; lia | exact Hc]].
  unfold encodeAll. cbn [flat_map].
  destruct Hm as [-> | ->]; reflexivity.
Qed.

(** C2.  Each path operation appends its opcode and its operands mapped
    through the transform of the current state at that moment: [MoveTo] and
    [LineTo] map their point, [BezierTo] its two control points and its end
    point, [ClosePath] and [PathWinding] map nothing.  So does every list
    of commands handed to [appendCommand]: each command of the list is
    recorded with each of its points mapped, the later ones as the first.
    [Rect] records its move, three lines and close, [Ellipse] its move, four
    curves and close, and [Arc] its line or move and its curves, one for
    each part of the arc, every one under the transform.  A later
    [Translate], [Rotate], [Scale], [SetTransform] or [ResetTransform], and
    any sequence of calls on the transform, leaves the buffer as it is. *)
Theorem commands_recorded_under_current_transform
  (ctx : Context) (state : nvgState) :
  getState ctx = Some state ->
  let T := TransformPoint (xform state) in
  (forall px py,
     MoveTo px py ctx
     = Some (set_commands
               (commands ctx ++ [F32.of_Z nvgMOVETO; fst (T px py); snd (T px py)])
               (set_commandXY px py ctx))) /\
  (forall px py,
     LineTo px py ctx
     = Some (set_commands
               (commands ctx ++ [F32.of_Z nvgLINETO; fst (T px py); snd (T px py)])
               (set_commandXY px py ctx))) /\
  (forall c1x c1y c2x c2y px py,
     BezierTo c1x c1y c2x c2y px py ctx
     = Some (set_commands
               (commands ctx ++
                  [F32.of_Z nvgBEZIERTO; fst (T c1x c1y); snd (T c1x c1y);
                   fst (T c2x c2y); snd (T c2x c2y); fst (T px py); snd (T px py)])
               (set_commandXY px py ctx))) /\
  ClosePath ctx = Some (set_commands (commands ctx ++ [F32.of_Z nvgCLOSE]) ctx) /\
  (forall w,
     PathWinding w ctx
     = Some (set_commands (commands ctx ++ [F32.of_Z nvgWINDING; F32.of_Z w]) ctx)) /\
  (forall vals ctx',
     appendCommand vals ctx = Some ctx' ->
     exists vals', transformCommands (xform state) vals = Some vals' /\
                   commands ctx' = commands ctx ++ vals') /\
  (forall cs, cs <> [] ->
     exists ctx',
       appendCommand (encodeAll cs) ctx = Some ctx' /\
       commands ctx'
       = commands ctx ++ encodeAll (map (recordedUnder (xform state)) cs)) /\
  (forall px py w h,
     exists ctx',
       Rect px py w h ctx = Some ctx' /\
       commands ctx'
       = commands ctx ++
         encodeAll
           [PMoveTo (fst (T px py)) (snd (T px py));
            PLineTo (fst (T px (py + h)%f32)) (snd (T px (py + h)%f32));
            PLineTo (fst (T (px + w)%f32 (py + h)%f32))
              (snd (T (px + w)%f32 (py + h)%f32));
            PLineTo (fst (T (px + w)%f32 py)) (snd (T (px + w)%f32 py));
            PClose]) /\
  (forall cx cy rx ry,
     exists ctx',
       Ellipse cx cy rx ry ctx = Some ctx' /\
       commands ctx'
       = commands ctx ++
         encodeAll
           (map (recordedUnder (xform state))
              [PMoveTo (cx - rx)%f32 cy;
               PBezierTo (cx - rx)%f32 (cy + ry * Kappa90)%f32
                 (cx - rx * Kappa90)%f32 (cy + ry)%f32 cx (cy + ry)%f32;
               PBezierTo (cx + rx * Kappa90)%f32 (cy + ry)%f32
                 (cx + rx)%f32 (cy + ry * Kappa90)%f32 (cx + rx)%f32 cy;
               PBezierTo (cx + rx)%f32 (cy - ry * Kappa90)%f32
                 (cx + rx * Kappa90)%f32 (cy - ry)%f32 cx (cy - ry)%f32;
               PBezierTo (cx - rx * Kappa90)%f32 (cy - ry)%f32
                 (cx - rx)%f32 (cy - ry * Kappa90)%f32 (cx - rx)%f32 cy;
               PClose])) /\
  (forall fuel cx cy r a0 a1 dir ctx',
     Arc fuel cx cy r a0 a1 dir ctx = Some ctx' ->
     let move := if 0 <? len_ (commands ctx) then nvgLINETO else nvgMOVETO in
     exists da curves,
       arcSweep fuel a0 a1 dir = Some da /\
       Z.of_nat (length curves) = arcDivs da /\ forallb isCurve curves = true /\
       let arc :=
         arcFirst move (fst (arcPoint cx cy r a0 da (arcDivs da) 0))
           (snd (arcPoint cx cy r a0 da (arcDivs da) 0)) :: curves in
       arcValues move cx cy r a0 da dir = encodeAll arc /\
       commands ctx'
       = commands ctx ++ encodeAll (map (recordedUnder (xform state)) arc)) /\
  (forall ctx',
     (exists tx ty, Translate tx ty ctx = Some ctx') \/
     (exists angle, Rotate angle ctx = Some ctx') \/
     (exists sx sy, Scale sx sy ctx = Some ctx') \/
     (exists t, SetTransform t ctx = Some ctx') \/
     ResetTransform ctx = Some ctx' ->
     commands ctx' = commands ctx) /\
  (forall fuel cs ctx',
     forallb onTransform cs = true -> calls fuel cs ctx = Some ctx' ->
     commands ctx' = commands ctx).
Proof.
  intros Hst T. subst T.
  split; [intros; now apply MoveTo_records|].
  split; [intros; now apply LineTo_records|].
  split; [intros; now apply BezierTo_records|].
  split; [now apply ClosePath_records with (state := state)|].
  split; [intros; now apply PathWinding_records with (state := state)|].
  split; [intros vals ctx'; now apply appendCommand_commands|].
  split; [intros cs Hne; now apply appendCommand_encodeAll|].
  split.
  { intros px py w h.
    exact (appendCommand_encodeAll
             [PMoveTo px py; PLineTo px (py + h)%f32;
              PLineTo (px + w)%f32 (py + h)%f32; PLineTo (px + w)%f32 py; PClose]
             ctx state Hst ltac:(discriminate)). }
  split.
  { intros cx cy rx ry.
    exact (appendCommand_encodeAll
             [PMoveTo (cx - rx)%f32 cy;
              PBezierTo (cx - rx)%f32 (cy + ry * Kappa90)%f32
                (cx - rx * Kappa90)%f32 (cy + ry)%f32 cx (cy + ry)%f32;
              PBezierTo (cx + rx * Kappa90)%f32 (cy + ry)%f32
                (cx + rx)%f32 (cy + ry * Kappa90)%f32 (cx + rx)%f32 cy;
              PBezierTo (cx + rx)%f32 (cy - ry * Kappa90)%f32
                (cx + rx * Kappa90)%f32 (cy - ry)%f32 cx (cy - ry)%f32;
              PBezierTo (cx - rx * Kappa90)%f32 (cy - ry)%f32
                (cx - rx)%f32 (cy - ry * Kappa90)%f32 (cx - rx)%f32 cy;
              PClose]
             ctx state Hst ltac:(discriminate)). }
  split.
  { intros fuel cx cy r a0 a1 dir ctx' HArc move.
    unfold Arc in HArc. fold move in HArc.
    destruct (arcSweep fuel a0 a1 dir) as [da|]; cbn [bind] in HArc;
      [|discriminate].
    assert (Hm : move = nvgMOVETO \/ move = nvgLINETO).
    { subst move. destruct (0 <? len_ (commands ctx)); auto. }
    destruct (arcValues_commands move cx cy r a0 da dir Hm)
      as (curves & Hv & Hl & Hc).
    exists da, curves. split; [reflexivity|]. split; [exact Hl|].
    split; [exact Hc|]. cbv zeta. split; [exact Hv|].
    rewrite Hv in HArc.
    destruct (appendCommand_encodeAll
                (arcFirst move (fst (arcPoint cx cy r a0 da (arcDivs da) 0))
                   (snd (arcPoint cx cy r a0 da (arcDivs da) 0)) :: curves)
                ctx state Hst) as (c & Ha & Hcmd); [discriminate|].
    rewrite Ha in HArc. injection HArc as <-. exact Hcmd. }
  split.
  { intros ctx' [(tx & ty & H) | [(a & H) | [(sx & sy & H) | [(t & H) | H]]]];
      eapply updState_commands; exact H. }
  intros fuel cs ctx' Hall H.
  destruct (calls_onTransform fuel cs ctx ctx' state Hall Hst H)
    as (state' & _ & _ & _ & Hc).
  rewrite Hc. reflexivity.
Qed.

End RecordingCommands.

Lemma commands_recorded_under_current_transform_witness :
  LineTo (pkg := Ref.package) (F32.of_Z 3) (F32.of_Z 4) scaledContext
  = Some (set_commands
            [F32.of_Z nvgLINETO; F32.of_Z 16; F32.of_Z 28]
            (set_commandXY (F32.of_Z 3) (F32.of_Z 4) scaledContext)) /\
  exists ctx',
    Rect (pkg := Ref.package) (F32.of_Z 1) (F32.of_Z 2) (F32.of_Z 3) (F32.of_Z 4)
      scaledContext = Some ctx' /\
    commands ctx'
    = encodeAll
        [PMoveTo (F32.of_Z 12) (F32.of_Z 24); PLineTo (F32.of_Z 12) (F32.of_Z 32);
         PLineTo (F32.of_Z 18) (F32.of_Z 32); PLineTo (F32.of_Z 18) (F32.of_Z 24);
         PClose].
Proof.
  pose proof (commands_recorded_under_current_transform (pkg := Ref.package)
                (hlp := RefHelpers.helpers) scaledContext
                (set_xform
                   (Ref.PreMultiply
                      (Ref.PreMultiply Ref.IdentityMatrix
                         (Ref.TranslateMatrix (F32.of_Z 10) (F32.of_Z 20)))
                      (Ref.ScaleMatrix F32.two F32.two))
                   (Ref.reset zeroState))
                ltac:(vm_compute; reflexivity)) as H.
  cbv zeta in H.
  destruct H as (_ & HLine & _ & _ & _ & _ & _ & HRect & _).
  split.
  - rewrite HLine. vm_compute. reflexivity.
  - destruct (HRect (F32.of_Z 1) (F32.of_Z 2) (F32.of_Z 3) (F32.of_Z 4))
      as (ctx' & HR & Hc).
    exists ctx'. split; [exact HR|]. rewrite Hc. vm_compute. reflexivity.
Defined.

(** * The winding after the flattening *)


Section WindingAfterFlattening.

Context {pkg : Package}.


End WindingAfterFlattening.


